(** * smartPlayer: metadata enrichment (build_db.py) and next-track
      selection (nexttrack.py)

    A shallow embedding of the two scripts and the properties their
    specification states about them.

    Conventions of the embedding.
    - Python [str] values are modelled as [string]; case folding and the
      regular-expression classes are the ASCII ones.
    - SQL [NULL] / Python [None] is [None]; a Python truth test is [truthy].
    - The SQLite connection is an explicit store value threaded through
      the calls; every statement names the columns it touches and raises
      [OperationalError] when the table lacks one of them.
    - The collaborators (tag reader, remote metadata service, directory
      walk, [int], [json.dumps], the embedding model, the timestamp
      parser) are parameters.  What the remote service returns may change
      from one call to the next.
    - Effects that the properties observe (remote calls, committed
      statements, the pacing delay, printed lines) are recorded in a
      trace, newest first.
    - numpy [float64] values are IEEE binary64 primitive floats; sums are
      taken left to right. *)

From Stdlib Require Import ZArith Ascii Floats.PrimFloat.
From Stdlib Require Floats.SpecFloat Floats.FloatOps Floats.FloatAxioms.
From stdpp Require Import base option list strings pretty gmap.

Local Open Scope string_scope.
Local Open Scope Z_scope.

(** ** Python values *)

Module Py.

(** [bool(x)] for the value types that occur in the two scripts. *)
Class Truthy (A : Type) := truthy : A → bool.
Global Hint Mode Truthy ! : typeclass_instances.

Global Instance truthy_string : Truthy string :=
  fun s => match s with EmptyString => false | String _ _ => true end.
Global Instance truthy_Z : Truthy Z :=
  fun n => negb (n =? 0)%Z.
Global Instance truthy_list {A} : Truthy (list A) :=
  fun l => match l with [] => false | _ :: _ => true end.
Global Instance truthy_option {A} `{Truthy A} : Truthy (option A) :=
  fun o => match o with None => false | Some a => truthy a end.

(** [x or d] where [x] may be [None]. *)
Definition or_default {A} `{Truthy A} (o : option A) (d : A) : A :=
  match o with
  | Some a => if truthy a then a else d
  | None => d
  end.

(** Exceptions that the modelled code can meet. *)
Inductive exn :=
| OperationalError (msg : string)
| IntegrityError (msg : string)
| OverflowError
| KeyError (key : string)
| IndexError
| TypeError
| ValueError
| UnicodeDecodeError
| WebServiceError
| SystemExit (code : Z).

(** Result of a pure computation that may raise. *)
Inductive res (A : Type) :=
| Good (a : A)
| Bad (e : exn).
Global Arguments Good {A} a.
Global Arguments Bad {A} e.

Definition res_bind {A B} (r : res A) (k : A → res B) : res B :=
  match r with
  | Good a => k a
  | Bad e => Bad e
  end.

(** *** Strings *)

Definition is_upper (c : Ascii.ascii) : bool :=
  (65 <=? Z.of_N (Ascii.N_of_ascii c)) && (Z.of_N (Ascii.N_of_ascii c) <=? 90).
Definition is_lower (c : Ascii.ascii) : bool :=
  (97 <=? Z.of_N (Ascii.N_of_ascii c)) && (Z.of_N (Ascii.N_of_ascii c) <=? 122).
Definition is_digit (c : Ascii.ascii) : bool :=
  (48 <=? Z.of_N (Ascii.N_of_ascii c)) && (Z.of_N (Ascii.N_of_ascii c) <=? 57).

Definition lower_char (c : Ascii.ascii) : Ascii.ascii :=
  if is_upper c then Ascii.ascii_of_N (Ascii.N_of_ascii c + 32)%N else c.

(** [s.lower()] *)
Fixpoint lower (s : string) : string :=
  match s with
  | EmptyString => EmptyString
  | String c t => String (lower_char c) (lower t)
  end.

(** [needle in hay] on strings: substring test. *)
Fixpoint str_in (needle hay : string) : bool :=
  String.prefix needle hay ||
  match hay with
  | EmptyString => false
  | String _ t => str_in needle t
  end.

(** [s.split(sep)] for a one-character separator; never the empty list. *)
Fixpoint split (sep : Ascii.ascii) (s : string) : list string :=
  match s with
  | EmptyString => [EmptyString]
  | String c t =>
      if Ascii.eqb c sep then EmptyString :: split sep t
      else match split sep t with
           | h :: r => String c h :: r
           | [] => [String c EmptyString]
           end
  end.

(** [s.endswith(suffix)] *)
Definition endswith (s suffix : string) : bool :=
  let n := String.length s in
  let k := String.length suffix in
  (k <=? n)%nat && String.eqb (String.substring (n - k) k s) suffix.

(** [sep.join(parts)] *)
Fixpoint join (sep : string) (parts : list string) : string :=
  match parts with
  | [] => EmptyString
  | [p] => p
  | p :: rest => p +:+ sep +:+ join sep rest
  end.

(** *** Insertion-ordered dictionaries with integer values
    ([tag_counts], [type_counts], [status_counts]). *)

Definition dict := list (string * Z).

Fixpoint dict_get (d : dict) (k : string) (default : Z) : Z :=
  match d with
  | [] => default
  | (k', v) :: r => if String.eqb k' k then v else dict_get r k default
  end.

(** [d[k] = v]: an existing key keeps its position, a new key is appended. *)
Fixpoint dict_set (d : dict) (k : string) (v : Z) : dict :=
  match d with
  | [] => [(k, v)]
  | (k', v') :: r =>
      if String.eqb k' k then (k', v) :: r else (k', v') :: dict_set r k v
  end.

(** [d[k] = d.get(k, 0) + n] *)
Definition dict_add (d : dict) (k : string) (n : Z) : dict :=
  dict_set d k (dict_get d k 0 + n).

Fixpoint max_from (best : string * Z) (d : dict) : string :=
  match d with
  | [] => fst best
  | (k, v) :: r => if (snd best <? v)%Z then max_from (k, v) r else max_from best r
  end.

(** [max(d, key=d.get) if d else None]: the first key, in insertion order,
    among those of greatest value. *)
Definition max_key (d : dict) : option string :=
  match d with
  | [] => None
  | kv :: r => Some (max_from kv r)
  end.

(** [min(l) if l else None] *)
Definition min_list (l : list Z) : option Z :=
  match l with
  | [] => None
  | x :: r => Some (foldl Z.min x r)
  end.

End Py.

(** ** The persisted stores *)

Module Store.
Import Py.

(** A row of table [tracks] of the resolver database (build_db.py,
    [create_db]).  [embedding] holds the JSON text of a float array,
    modelled by the array itself. *)
Record track_row := {
  file_path : string;
  track_mbid : option string;
  artist_mbid : option string;
  release_group_mbid : option string;
  genre : option string;
  year : option Z;
  album_type : option string;
  embedding : option (list float)
}.

(** A row of table [mbid_cache], keyed by [track_mbid]. *)
Record cache_row := {
  c_genre : option string;
  c_year : option Z;
  c_album_type : option string;
  c_recording_json : option string
}.

(** Table [mbid_cache] with the columns it was created with. *)
Record cache_table := {
  cache_columns : list string;
  cache_rows : gmap string cache_row
}.

(** The resolver database: each table exists or not.  Table [tracks] is
    kept in rowid order, the order of a full scan. *)
Record db := {
  tracks : option (list track_row);
  mbid_cache : option cache_table
}.

(** A database file without any table. *)
Definition empty_db : db := {| tracks := None; mbid_cache := None |}.

(** The columns of [CREATE TABLE IF NOT EXISTS mbid_cache (...)]. *)
Definition created_cache_columns : list string :=
  ["track_mbid"; "genre"; "year"; "album_type"].

(** [create_db]: both statements are [CREATE TABLE IF NOT EXISTS]. *)
Definition create_db (file : db) : db :=
  {| tracks := Some (default [] (tracks file));
     mbid_cache :=
       Some (default {| cache_columns := created_cache_columns;
                        cache_rows := ∅ |} (mbid_cache file)) |}.

Definition has_column (cols : list string) (c : string) : bool :=
  existsb (String.eqb c) cols.

(** The first column a statement names that the table does not have. *)
Definition missing_column (named cols : list string) : option string :=
  List.find (fun c => negb (has_column cols c)) named.

(** [SELECT ... FROM tracks WHERE file_path = ?] then [fetchone()]. *)
Definition find_track (rows : list track_row) (path : string) : option track_row :=
  List.find (fun r => String.eqb (file_path r) path) rows.

(** [UPDATE tracks SET genre = ?, year = ?, album_type = ? WHERE file_path = ?] *)
Definition update_track (rows : list track_row) (path : string)
    (g : option string) (y : option Z) (at_ : option string) : list track_row :=
  map (fun r =>
         if String.eqb (file_path r) path
         then {| file_path := file_path r; track_mbid := track_mbid r;
                 artist_mbid := artist_mbid r;
                 release_group_mbid := release_group_mbid r;
                 genre := g; year := y; album_type := at_;
                 embedding := embedding r |}
         else r) rows.

(** The record of table [tracks] for a file, if any. *)
Definition stored_track (d : db) (path : string) : option track_row :=
  rows ← tracks d; find_track rows path.

(** A row of the play-history table [tracks] of the library database. *)
Record play_row := {
  play_count : option Z;
  last_played : option string
}.

End Store.

(** ** build_db.py: the enrichment pipeline *)

Module BuildDb.
Import Py Store.

(** *** What the collaborators return *)

(** A [{"name": ..., "count": ...}] entry of a [tag-list]. *)
Record mb_tag := {
  tag_name : option string;
  tag_count : option string
}.

Record mb_release_group := {
  rg_tag_list : list mb_tag;
  rg_primary_type : option string
}.

Record mb_release_event := { ev_date : option string }.

Record mb_release := {
  rel_release_group : option mb_release_group;
  rel_date : option string;
  rel_release_event_list : list mb_release_event;
  rel_status : option string;
  rel_title : option string
}.

Record mb_artist := { artist_id : option string }.

(** An [artist-credit] entry: a join phrase (a string) or a dictionary
    that may hold an ["artist"]. *)
Inductive mb_credit :=
| CreditPhrase (s : string)
| CreditDict (artist : option mb_artist).

(** [result["recording"]]; an absent list key reads as the empty list. *)
Record mb_recording := {
  rec_tag_list : list mb_tag;
  rec_release_list : list mb_release;
  rec_artist_credit : list mb_credit
}.

(** The identifier frames of an ID3 tag container. *)
Record ufid_frame := { ufid_owner : string; ufid_data : string }.
Record txxx_frame := { txxx_desc : string; txxx_text : list string }.
Record id3_tags := { id3_ufid : list ufid_frame; id3_txxx : list txxx_frame }.

(** The world outside the script.  The remote service is unreliable: what
    a call returns depends on how many remote calls were made before it.
    [json_members] is the text [json.dumps] puts between the braces of the
    recording dictionary. *)
Record env := {
  ID3 : string → res id3_tags;
  get_recording_by_id : nat → string → res mb_recording;
  get_artist_by_id : nat → string → res (list mb_tag);
  os_walk : string → list (string * list string);
  py_int : string → option Z;
  json_members : mb_recording → string;
  encode : string → list float
}.

(** *** State: connection, diagnostics counters, observable effects *)

Record diagnostics := {
  missing_genre : Z;
  missing_year : Z;
  missing_album_type : Z
}.

Inductive status_flag :=
| MetadataUpdated (g : bool) (y : bool) (a : bool)
| NoNewMetadata
| ExistingComplete
| NewAdded (g : option string) (y : option Z) (a : option string).

Inductive sql_write :=
| UpdateTrack (path : string)
| InsertTrack (path : string)
| UpsertCache (mbid : string).

Inductive event :=
| Committed (stmt : sql_write)
| RemoteRecording (mbid : string)
| RemoteArtist (id : string)
| Sleep
| PrintFailedTags (path : string)
| PrintResolved (g : option string) (y : option Z) (a : option string)
| PrintQueryFailed (mbid : string)
| PrintStatus (path : string) (flag : status_flag)
| PrintSummary (genres years album_types : Z).

Record world := {
  conn : db;
  diag : diagnostics;
  trace : list event
}.

Definition is_remote (e : event) : bool :=
  match e with
  | RemoteRecording _ | RemoteArtist _ => true
  | _ => false
  end.

(** Number of remote calls made so far. *)
Definition remote_calls (t : list event) : nat := length (filter is_remote t).

Inductive outcome (A : Type) :=
| Ok (a : A) (w : world)
| Raise (e : exn) (w : world).
Global Arguments Ok {A} a w.
Global Arguments Raise {A} e w.

Definition M (A : Type) : Type := world → outcome A.

Definition ret {A} (a : A) : M A := fun w => Ok a w.
Definition bind {A B} (m : M A) (k : A → M B) : M B :=
  fun w => match m w with
           | Ok a w' => k a w'
           | Raise e w' => Raise e w'
           end.
Definition raise {A} (e : exn) : M A := fun w => Raise e w.
Definition lift {A} (r : res A) : M A :=
  fun w => match r with Good a => Ok a w | Bad e => Raise e w end.

(** [try: body except Exception as e: handler(e)] *)
Definition try_except {A} (body : M A) (handler : exn → M A) : M A :=
  fun w => match body w with
           | Ok a w' => Ok a w'
           | Raise e w' => handler e w'
           end.

Definition log (e : event) : M unit :=
  fun w => Ok tt {| conn := conn w; diag := diag w; trace := e :: trace w |}.
Definition set_conn (d : db) : M unit :=
  fun w => Ok tt {| conn := d; diag := diag w; trace := trace w |}.
Definition set_diag (d : diagnostics) : M unit :=
  fun w => Ok tt {| conn := conn w; diag := d; trace := trace w |}.
Definition get_world : M world := fun w => Ok w w.

Global Instance M_ret : MRet M := @ret.
Global Instance M_bind : MBind M := fun A B k m => bind m k.

Section WithEnv.
Context (E : env).

(** *** [get_mbids] *)

Definition decode_ascii (data : string) : res string :=
  if forallb (fun c => (Ascii.N_of_ascii c <? 128)%N) (String.list_ascii_of_string data)
  then Good data else Bad UnicodeDecodeError.

(** The [for ufid in id3.getall("UFID")] loop, [break] at the first frame
    owned by MusicBrainz. *)
Fixpoint scan_ufid (frames : list ufid_frame) : res (option string) :=
  match frames with
  | [] => Good None
  | u :: rest =>
      if String.eqb (ufid_owner u) "http://musicbrainz.org"
      then res_bind (decode_ascii (ufid_data u)) (fun s => Good (Some s))
      else scan_ufid rest
  end.

Definition text0 (t : txxx_frame) : res string :=
  match txxx_text t with
  | s :: _ => Good s
  | [] => Bad IndexError
  end.

(** The [for tag in id3.getall("TXXX")] loop over
    [(track_mbid, artist_mbid, release_group_mbid)]. *)
Fixpoint scan_txxx (frames : list txxx_frame)
    (ids : option string * option string * option string)
    : res (option string * option string * option string) :=
  match frames with
  | [] => Good ids
  | t :: rest =>
      let '(track, artist, rg) := ids in
      let desc := lower (txxx_desc t) in
      if String.eqb desc "musicbrainz track id" && negb (truthy track)
      then res_bind (text0 t) (fun s => scan_txxx rest (Some s, artist, rg))
      else if String.eqb desc "musicbrainz artist id"
      then res_bind (text0 t) (fun s => scan_txxx rest (track, Some s, rg))
      else if String.eqb desc "musicbrainz release group id"
      then res_bind (text0 t) (fun s => scan_txxx rest (track, artist, Some s))
      else scan_txxx rest ids
  end.

Definition read_mbids (path : string)
    : res (option string * option string * option string) :=
  res_bind (ID3 E path) (fun id3 =>
  res_bind (scan_ufid (id3_ufid id3)) (fun track =>
  scan_txxx (id3_txxx id3) (track, None, None))).

Definition get_mbids (path : string)
    : M (option string * option string * option string) :=
  try_except (lift (read_mbids path))
    (fun _ => log (PrintFailedTags path);; mret (None, None, None)).

(** *** Aggregation of a lookup result ([query_musicbrainz], the [try] body) *)

(** [count = int(tag.get("count", 1))] then
    [tag_counts[tag["name"]] = tag_counts.get(tag["name"], 0) + count] *)
Definition add_tag (d : dict) (t : mb_tag) : res dict :=
  res_bind (match tag_count t with
            | None => Good 1
            | Some s => match py_int E s with
                        | Some n => Good n
                        | None => Bad ValueError
                        end
            end) (fun count =>
  match tag_name t with
  | Some name => Good (dict_add d name count)
  | None => Bad (KeyError "name")
  end).

(** A loop over a tag list: the dictionary reached, and the exception that
    stopped the loop, if any. *)
Fixpoint add_tags (d : dict) (tags : list mb_tag) : dict * option exn :=
  match tags with
  | [] => (d, None)
  | t :: rest =>
      match add_tag d t with
      | Good d' => add_tags d' rest
      | Bad e => (d, Some e)
      end
  end.

Definition add_tags_or_raise (d : dict) (tags : list mb_tag) : res dict :=
  match add_tags d tags with
  | (d', None) => Good d'
  | (_, Some e) => Bad e
  end.

(** Release-group tags of every release. *)
Fixpoint add_release_tags (d : dict) (releases : list mb_release) : res dict :=
  match releases with
  | [] => Good d
  | r :: rest =>
      match rel_release_group r with
      | Some rg => res_bind (add_tags_or_raise d (rg_tag_list rg))
                     (fun d' => add_release_tags d' rest)
      | None => add_release_tags d rest
      end
  end.

(** One [get_artist_by_id] call inside the inner [try ... except: pass]:
    tags added before a failure stay in the dictionary. *)
Definition artist_tags (id : string) (d : dict) : M dict :=
  w ← get_world;
  log (RemoteArtist id);;
  match get_artist_by_id E (remote_calls (trace w)) id with
  | Good tags => mret (fst (add_tags d tags))
  | Bad _ => mret d
  end.

(** The artist fallback loop.  ["artist" in credit] is a substring test
    when the credit is a join phrase, and indexing the phrase raises. *)
Fixpoint artist_fallback (credits : list mb_credit) (d : dict) : M dict :=
  match credits with
  | [] => mret d
  | CreditPhrase s :: rest =>
      if str_in "artist" s then raise TypeError else artist_fallback rest d
  | CreditDict None :: rest => artist_fallback rest d
  | CreditDict (Some a) :: rest =>
      match artist_id a with
      | None => raise (KeyError "id")
      | Some id => d' ← artist_tags id d; artist_fallback rest d'
      end
  end.

(** The date a release contributes and the year parsed from it; a parse
    failure is swallowed by the inner [try ... except: pass]. *)
Definition release_year (r : mb_release) : option Z :=
  let date :=
    if negb (truthy (rel_date r)) && truthy (rel_release_event_list r)
    then match rel_release_event_list r with
         | ev :: _ => ev_date ev
         | [] => rel_date r
         end
    else rel_date r in
  match date with
  | Some s => if truthy s then py_int E (hd EmptyString (split "-"%char s)) else None
  | None => None
  end.

Definition release_years (releases : list mb_release) : list Z :=
  omap release_year releases.

(** [type_counts]: votes for the release-group primary type. *)
Fixpoint count_primary_types (d : dict) (releases : list mb_release) : dict :=
  match releases with
  | [] => d
  | r :: rest =>
      match rel_release_group r with
      | Some rg =>
          match rg_primary_type rg with
          | Some t => if truthy t then count_primary_types (dict_add d t 1) rest
                      else count_primary_types d rest
          | None => count_primary_types d rest
          end
      | None => count_primary_types d rest
      end
  end.

(** [status_counts]: votes for the release status. *)
Fixpoint count_statuses (d : dict) (releases : list mb_release) : dict :=
  match releases with
  | [] => d
  | r :: rest =>
      match rel_status r with
      | Some s => if truthy s then count_statuses (dict_add d s 1) rest
                  else count_statuses d rest
      | None => count_statuses d rest
      end
  end.

(** The keyword tests on one lower-cased release title, in source order. *)
Definition title_keyword (title : string) : option string :=
  if str_in "compilation" title || str_in "hits" title then Some "Compilation"
  else if str_in "deluxe" title then Some "Deluxe"
  else if str_in "soundtrack" title then Some "Soundtrack"
  else if str_in "live" title then Some "Live"
  else None.

(** The title loop: [break] at the first release with a keyword. *)
Fixpoint scan_titles (releases : list mb_release) : option string :=
  match releases with
  | [] => None
  | r :: rest =>
      match title_keyword (lower (default EmptyString (rel_title r))) with
      | Some t => Some t
      | None => scan_titles rest
      end
  end.

Definition resolve_album_type (releases : list mb_release) : option string :=
  let album_type := max_key (count_primary_types [] releases) in
  let album_type :=
    if negb (truthy album_type)
    then let status_counts := count_statuses [] releases in
         if truthy status_counts then max_key status_counts else album_type
    else album_type in
  if negb (truthy album_type)
  then match scan_titles releases with
       | Some t => Some t
       | None => album_type
       end
  else album_type.

(** [diagnostics[...] += 1] for every unresolved field. *)
Definition count_missing (g : option string) (y : option Z) (a : option string)
    (d : diagnostics) : diagnostics :=
  {| missing_genre := if truthy g then missing_genre d else missing_genre d + 1;
     missing_year := if truthy y then missing_year d else missing_year d + 1;
     missing_album_type :=
       if truthy a then missing_album_type d else missing_album_type d + 1 |}.

(** *** The cache statements *)

(** Columns named by the cache [SELECT], in the order SQLite resolves them. *)
Definition cache_select_columns : list string :=
  ["genre"; "year"; "album_type"; "recording_json"; "track_mbid"].

(** Columns named by the cache [INSERT ... ON CONFLICT DO UPDATE]. *)
Definition cache_insert_columns : list string :=
  ["track_mbid"; "genre"; "year"; "album_type"; "recording_json"].

(** [c.execute("SELECT genre, year, album_type, recording_json FROM
    mbid_cache WHERE track_mbid = ?")] and [c.fetchone()]. *)
Definition cache_select (track_mbid : string) : M (option cache_row) :=
  w ← get_world;
  match mbid_cache (conn w) with
  | None => raise (OperationalError "no such table: mbid_cache")
  | Some t =>
      match missing_column cache_select_columns (cache_columns t) with
      | Some c => raise (OperationalError ("no such column: " +:+ c))
      | None => mret (cache_rows t !! track_mbid)
      end
  end.

(** SQLite stores integers on 64 bits; a larger Python integer is refused
    when the statement binds it. *)
Definition fits_sqlite_integer (y : option Z) : bool :=
  match y with
  | Some n => (- 2 ^ 63 <=? n) && (n <? 2 ^ 63)
  | None => true
  end.

(** The upsert of the cache row, committed at once. *)
Definition cache_insert (track_mbid : string) (row : cache_row) : M unit :=
  w ← get_world;
  match mbid_cache (conn w) with
  | None => raise (OperationalError "no such table: mbid_cache")
  | Some t =>
      match missing_column cache_insert_columns (cache_columns t) with
      | Some c =>
          raise (OperationalError ("table mbid_cache has no column named " +:+ c))
      | None =>
          if fits_sqlite_integer (c_year row)
          then set_conn {| tracks := tracks (conn w);
                           mbid_cache :=
                             Some {| cache_columns := cache_columns t;
                                     cache_rows :=
                                       <[track_mbid := row]> (cache_rows t) |} |}
          else raise OverflowError
      end
  end.

(** *** [query_musicbrainz] *)

(** [json.dumps(recording, separators=(',', ':'))] of a dictionary. *)
Definition json_dumps (recording : mb_recording) : string :=
  "{" +:+ json_members E recording +:+ "}".

(** First part of the [try] body: the remote lookup and its aggregation
    into [(genre, year, album_type)]. *)
Definition aggregate (track_mbid : string)
    : M (mb_recording * option string * option Z * option string) :=
  w ← get_world;
  log (RemoteRecording track_mbid);;
  recording ← lift (get_recording_by_id E (remote_calls (trace w)) track_mbid);
  tag_counts ← lift (add_tags_or_raise [] (rec_tag_list recording));
  tag_counts ← lift (add_release_tags tag_counts (rec_release_list recording));
  tag_counts ← (if negb (truthy tag_counts)
                then artist_fallback (rec_artist_credit recording) tag_counts
                else mret tag_counts);
  let genre := max_key tag_counts in
  let year := min_list (release_years (rec_release_list recording)) in
  let album_type := resolve_album_type (rec_release_list recording) in
  mret (recording, genre, year, album_type).

(** The whole [try] body: aggregation, diagnostics, cache write, pacing
    delay. *)
Definition fresh_lookup (track_mbid : string)
    : M (option string * option Z * option string) :=
  '(recording, genre, year, album_type) ← aggregate track_mbid;
  w ← get_world;
  set_diag (count_missing genre year album_type (diag w));;
  let recording_json := json_dumps recording in
  cache_insert track_mbid
    {| c_genre := genre; c_year := year; c_album_type := album_type;
       c_recording_json := Some recording_json |};;
  log (Committed (UpsertCache track_mbid));;
  log (PrintResolved genre year album_type);;
  log Sleep;;
  mret (genre, year, album_type).

(** The [try ... except Exception] around the fresh lookup. *)
Definition guarded_lookup (track_mbid : string)
    : M (option string * option Z * option string) :=
  try_except (fresh_lookup track_mbid)
    (fun _ => log (PrintQueryFailed track_mbid);; mret (None, None, None)).

Definition query_musicbrainz (track_mbid : string)
    : M (option string * option Z * option string) :=
  row ← cache_select track_mbid;
  match row with
  | Some r =>
      if truthy (c_recording_json r)
      then mret (c_genre r, c_year r, c_album_type r)
      else guarded_lookup track_mbid
  | None => guarded_lookup track_mbid
  end.

(** *** The descriptor *)

Definition generate_metadata_string (artist title genre : option string)
    (year : option Z) (album_type : option string) : string :=
  let parts : list string := [] in
  let parts := if truthy artist
               then app parts ["artist: " +:+ default EmptyString artist] else parts in
  let parts := if truthy title
               then app parts ["title: " +:+ default EmptyString title] else parts in
  let parts := if truthy genre
               then app parts ["genre: " +:+ default EmptyString genre] else parts in
  let parts := if truthy year
               then app parts ["year: " +:+ pretty (default 0 year)] else parts in
  let parts := if truthy album_type
               then app parts ["album_type: " +:+ default EmptyString album_type]
               else parts in
  join "; " parts.

Definition generate_embedding (metadata_string : string) : list float :=
  encode E metadata_string.

(** *** [process_file] *)

Definition select_track (path : string) : M (option track_row) :=
  w ← get_world;
  match tracks (conn w) with
  | None => raise (OperationalError "no such table: tracks")
  | Some rows => mret (find_track rows path)
  end.

Definition execute_update_track (path : string)
    (g : option string) (y : option Z) (a : option string) : M unit :=
  w ← get_world;
  match tracks (conn w) with
  | None => raise (OperationalError "no such table: tracks")
  | Some rows =>
      set_conn {| tracks := Some (update_track rows path g y a);
                  mbid_cache := mbid_cache (conn w) |};;
      log (Committed (UpdateTrack path))
  end.

(** [INSERT INTO tracks (file_path, track_mbid, artist_mbid,
    release_group_mbid, genre, year, album_type)]: column [embedding] is not
    named and takes its default, [NULL]. *)
Definition execute_insert_track (r : track_row) : M unit :=
  w ← get_world;
  match tracks (conn w) with
  | None => raise (OperationalError "no such table: tracks")
  | Some rows =>
      match find_track rows (file_path r) with
      | Some _ =>
          raise (IntegrityError "UNIQUE constraint failed: tracks.file_path")
      | None => set_conn {| tracks := Some (app rows [r]);
                            mbid_cache := mbid_cache (conn w) |};;
                log (Committed (InsertTrack (file_path r)))
      end
  end.

Definition process_file (path : string) : M unit :=
  row ← select_track path;
  flag ← match row with
         | Some r =>
             if truthy (track_mbid r) &&
                (negb (truthy (genre r)) || negb (truthy (year r))
                 || negb (truthy (album_type r)))
             then
               '(g, y, a) ← query_musicbrainz (default EmptyString (track_mbid r));
               let upd_genre := truthy g && negb (truthy (genre r)) in
               let upd_year := truthy y && negb (truthy (year r)) in
               let upd_album_type := truthy a && negb (truthy (album_type r)) in
               if upd_genre || upd_year || upd_album_type
               then
                 execute_update_track path
                   (if upd_genre then g else genre r)
                   (if upd_year then y else year r)
                   (if upd_album_type then a else album_type r);;
                 mret (MetadataUpdated upd_genre upd_year upd_album_type)
               else mret NoNewMetadata
             else mret ExistingComplete
         | None =>
             '(mbid, artist, rg) ← get_mbids path;
             '(g, y, a) ← (if truthy mbid
                           then query_musicbrainz (default EmptyString mbid)
                           else mret (None, None, None));
             execute_insert_track
               {| file_path := path; track_mbid := mbid; artist_mbid := artist;
                  release_group_mbid := rg; genre := g; year := y;
                  album_type := a; embedding := None |};;
             mret (NewAdded g y a)
         end;
  log (PrintStatus path flag).

(** [os.path.join(root, file)] for a relative [file]. *)
Definition os_path_join (root file : string) : string :=
  if negb (truthy root) || endswith root "/" then root +:+ file
  else root +:+ "/" +:+ file.

(** The [.mp3] files of a directory listing, in walk order. *)
Definition mp3_paths (listing : list (string * list string)) : list string :=
  flat_map (fun '(root, files) =>
              map (os_path_join root)
                  (List.filter (fun file => endswith (lower file) ".mp3") files))
           listing.

Fixpoint process_all (paths : list string) : M unit :=
  match paths with
  | [] => mret tt
  | p :: rest => process_file p;; process_all rest
  end.

Definition walk_and_process (music_dir : string) : M unit :=
  process_all (mp3_paths (os_walk E music_dir)).

Definition no_diagnostics : diagnostics :=
  {| missing_genre := 0; missing_year := 0; missing_album_type := 0 |}.

(** [main]: [file] is the content of the database file at [db_path]. *)
Definition main (argv : list string) (file : db) : outcome unit :=
  match argv with
  | _ :: music_dir :: _ =>
      (walk_and_process music_dir;;
       w ← get_world;
       log (PrintSummary (missing_genre (diag w)) (missing_year (diag w))
              (missing_album_type (diag w))))
        {| conn := create_db file; diag := no_diagnostics; trace := [] |}
  | _ => Raise (SystemExit 1)
           {| conn := file; diag := no_diagnostics; trace := [] |}
  end.

End WithEnv.

(** *** Observations on stores and traces *)

Definition stored_embedding (d : db) (path : string) : option (list float) :=
  r ← stored_track d path; embedding r.

(** The test of [process_file] on an existing record: a recording
    identifier and at least one field missing. *)
Definition needs_lookup (r : track_row) : bool :=
  truthy (track_mbid r) &&
  (negb (truthy (genre r)) || negb (truthy (year r))
   || negb (truthy (album_type r))).

Definition count_events (p : event → bool) (t : list event) : nat :=
  length (List.filter p t).

Definition is_query_failed (e : event) : bool :=
  match e with PrintQueryFailed _ => true | _ => false end.

(** Number of lookups that ended in the [except] branch. *)
Definition failed_queries (t : list event) : nat :=
  count_events is_query_failed t.

Definition is_track_update (path : string) (e : event) : bool :=
  match e with
  | Committed (UpdateTrack p) => String.eqb p path
  | _ => false
  end.

(** Number of committed [UPDATE tracks ... WHERE file_path = path]. *)
Definition track_updates (path : string) (t : list event) : nat :=
  count_events (is_track_update path) t.

(** The cache entry of a recording identifier as the cache [SELECT] reads
    it, when the table has the columns the statement names. *)
Definition cache_entry (d : db) (mbid : string) : option cache_row :=
  t ← mbid_cache d;
  match missing_column cache_select_columns (cache_columns t) with
  | Some _ => None
  | None => cache_rows t !! mbid
  end.

(** The cache entry is authoritative: it holds a raw payload. *)
Definition has_payload (d : db) (mbid : string) : bool :=
  match cache_entry d mbid with
  | Some c => truthy (c_recording_json c)
  | None => false
  end.

(** A file is settled when its record exists and, if the record still
    asks for a lookup, the cache holds an authoritative entry for its
    recording identifier that offers nothing for the missing fields. *)
Definition settled (d : db) (path : string) : Prop :=
  ∃ r, stored_track d path = Some r ∧
    (needs_lookup r = true →
     ∃ c, cache_entry d (default EmptyString (track_mbid r)) = Some c ∧
          truthy (c_recording_json c) = true ∧
          (truthy (genre r) = false → truthy (c_genre c) = false) ∧
          (truthy (year r) = false → truthy (c_year c) = false) ∧
          (truthy (album_type r) = false → truthy (c_album_type c) = false)).

(** The record [r] after the updates that the answer [(g, y, a)] allows. *)
Definition backfill (r : track_row) (g : option string) (y : option Z)
    (a : option string) : track_row :=
  {| file_path := file_path r; track_mbid := track_mbid r;
     artist_mbid := artist_mbid r;
     release_group_mbid := release_group_mbid r;
     genre := if truthy g && negb (truthy (genre r)) then g else genre r;
     year := if truthy y && negb (truthy (year r)) then y else year r;
     album_type := if truthy a && negb (truthy (album_type r)) then a
                   else album_type r;
     embedding := embedding r |}.

(** Whether the answer [(g, y, a)] puts anything into [updates]. *)
Definition any_update (r : track_row) (g : option string) (y : option Z)
    (a : option string) : bool :=
  truthy g && negb (truthy (genre r)) || truthy y && negb (truthy (year r))
  || truthy a && negb (truthy (album_type r)).

(** World [w] after the events [new], newest first. *)
Definition after (new : list event) (w : world) : world :=
  {| conn := conn w; diag := diag w; trace := new ++ trace w |}.

(** [m] changes nothing but the trace, to which it adds remote calls. *)
Definition only_calls {A} (m : M A) : Prop :=
  ∀ w, ∃ new, forallb is_remote new = true ∧
    match m w with
    | Ok _ w' | Raise _ w' => w' = after new w
    end.

(** The record [process_file] inserts for a new file. *)
Definition new_track (path : string) (mbid artist rg : option string)
    (g : option string) (y : option Z) (a : option string) : track_row :=
  {| file_path := path; track_mbid := mbid; artist_mbid := artist;
     release_group_mbid := rg; genre := g; year := y; album_type := a;
     embedding := None |}.

(** World [wq] after a committed statement that leaves table [tracks] as
    [rows] and after the status line. *)
Definition written (rows : list track_row) (stmt : sql_write)
    (path : string) (flag : status_flag) (wq : world) : world :=
  {| conn := {| tracks := Some rows; mbid_cache := mbid_cache (conn wq) |};
     diag := diag wq;
     trace := PrintStatus path flag :: Committed stmt :: trace wq |}.

(** What a call [query_musicbrainz mbid] in world [w] can come to. *)
Inductive query_result (mbid : string) (w : world)
    : outcome (option string * option Z * option string) → Prop :=
| QSelectRaises msg :
    cache_entry (conn w) mbid = None →
    query_result mbid w (Raise (OperationalError msg) w)
| QHit c :
    cache_entry (conn w) mbid = Some c →
    truthy (c_recording_json c) = true →
    query_result mbid w (Ok (c_genre c, c_year c, c_album_type c) w)
| QFresh t new g y a json :
    has_payload (conn w) mbid = false →
    mbid_cache (conn w) = Some t →
    missing_column cache_select_columns (cache_columns t) = None →
    forallb is_remote new = true →
    truthy json = true →
    query_result mbid w
      (Ok (g, y, a)
         {| conn := {| tracks := tracks (conn w);
                       mbid_cache :=
                         Some {| cache_columns := cache_columns t;
                                 cache_rows :=
                                   <[mbid := {| c_genre := g; c_year := y;
                                                c_album_type := a;
                                                c_recording_json := Some json |}]>
                                     (cache_rows t) |} |};
            diag := count_missing g y a (diag w);
            trace := Sleep :: PrintResolved g y a
                     :: Committed (UpsertCache mbid) :: new ++ trace w |})
| QFailed new d' :
    has_payload (conn w) mbid = false →
    forallb is_remote new = true →
    query_result mbid w
      (Ok (None, None, None)
         {| conn := conn w; diag := d';
            trace := PrintQueryFailed mbid :: new ++ trace w |}).

(** *** Functions of build_db.py that [main] does not reach *)

(** [track_already_in_db]: [SELECT 1 FROM tracks WHERE file_path = ?] and
    [fetchone() is not None]. *)
Definition track_already_in_db (conn : db) (path : string) : res bool :=
  match tracks conn with
  | None => Bad (OperationalError "no such table: tracks")
  | Some rows => Good (bool_decide (is_Some (find_track rows path)))
  end.

(** [track_mbid.encode("ascii")]; a [UnicodeEncodeError] is a
    [ValueError]. *)
Definition encode_ascii (s : string) : res string :=
  if forallb (fun c => (Ascii.N_of_ascii c <? 128)%N) (String.list_ascii_of_string s)
  then Good s else Bad ValueError.

(** The tag container after [id3.delall("UFID")] and
    [id3.add(UFID(owner="http://musicbrainz.org", data=...))]. *)
Definition with_ufid (id3 : id3_tags) (data : string) : id3_tags :=
  {| id3_ufid := [{| ufid_owner := "http://musicbrainz.org";
                     ufid_data := data |}];
     id3_txxx := id3_txxx id3 |}.

(** [embed_mbid_in_file].  [files] gives what [ID3(path)] reads for each
    path and [save_ok] tells whether [id3.save()] succeeds there.  The
    result is what [ID3] reads afterwards, and whether the success line
    was printed; every exception is caught. *)
Definition embed_mbid_in_file (files : string → res id3_tags)
    (save_ok : string → bool) (file_path track_mbid : string)
    : (string → res id3_tags) * bool :=
  match files file_path with
  | Good id3 =>
      match encode_ascii track_mbid with
      | Good data =>
          if save_ok file_path
          then (fun p => if String.eqb p file_path
                         then Good (with_ufid id3 data) else files p,
                true)
          else (files, false)
      | Bad _ => (files, false)
      end
  | Bad _ => (files, false)
  end.

(** The environment [E] with the tag containers [files]. *)
Definition with_files (E : env) (files : string → res id3_tags) : env :=
  {| ID3 := files;
     get_recording_by_id := get_recording_by_id E;
     get_artist_by_id := get_artist_by_id E;
     os_walk := os_walk E;
     py_int := py_int E;
     json_members := json_members E;
     encode := encode E |}.

(** *** Further observations on traces and lookups *)

Definition is_recording_call (e : event) : bool :=
  match e with RemoteRecording _ => true | _ => false end.

Definition is_pacing_delay (e : event) : bool :=
  match e with Sleep => true | _ => false end.

Definition is_cache_write (e : event) : bool :=
  match e with Committed (UpsertCache _) => true | _ => false end.

(** Number of [get_recording_by_id] calls made so far. *)
Definition recording_calls (t : list event) : nat :=
  count_events is_recording_call t.

(** Number of [time.sleep(1)] calls made so far. *)
Definition pacing_delays (t : list event) : nat :=
  count_events is_pacing_delay t.

(** Number of committed cache upserts so far. *)
Definition cache_writes (t : list event) : nat :=
  count_events is_cache_write t.

(** The count a tag entry carries: [int(tag.get("count", 1))], when it
    parses. *)
Definition tag_votes (E : env) (t : mb_tag) : Z :=
  match tag_count t with
  | None => 1
  | Some s => default 0 (py_int E s)
  end.

(** The sum of the counts of the entries of [tags] named [name]. *)
Fixpoint tag_weight (E : env) (name : string) (tags : list mb_tag) : Z :=
  match tags with
  | [] => 0
  | t :: rest =>
      (if bool_decide (tag_name t = Some name) then tag_votes E t else 0)
      + tag_weight E name rest
  end.

(** The file has no usable recording identifier: its tags cannot be read,
    or hold no identifier, or an empty one. *)
Definition untagged (E : env) (path : string) : bool :=
  match read_mbids E path with
  | Good (mbid, _, _) => negb (truthy mbid)
  | Bad _ => true
  end.

Definition is_artist_call (e : event) : bool :=
  match e with RemoteArtist _ => true | _ => false end.

End BuildDb.

(** ** nexttrack.py: next-track selection *)

Module NextTrack.
Import Py Store.

Definition DISTANCE_THRESHOLD : float := 0.001%float.

(** The literal [1e-6] of the tie test. *)
Definition TIE_EPSILON : float := 1e-6%float.

(** [re.sub(r'[^a-z0-9]', '', s)] *)
Fixpoint strip_non_alnum (s : string) : string :=
  match s with
  | EmptyString => EmptyString
  | String c t =>
      if is_lower c || is_digit c then String c (strip_non_alnum t)
      else strip_non_alnum t
  end.

Definition normalize_string (s : string) : string :=
  strip_non_alnum (lower s).

(** [np.dot(a, b)] on one-dimensional arrays, summed left to right; arrays
    of different lengths raise [ValueError]. *)
Fixpoint dot_from (acc : float) (a b : list float) : res float :=
  match a, b with
  | [], [] => Good acc
  | x :: a', y :: b' => dot_from (acc + x * y)%float a' b'
  | _, _ => Bad ValueError
  end.

Definition np_dot (a b : list float) : res float := dot_from 0%float a b.

(** [np.linalg.norm(a)]: the square root of [a.dot(a)]. *)
Definition np_linalg_norm (a : list float) : float :=
  PrimFloat.sqrt (foldl (fun acc x => acc + x * x)%float 0%float a).

Definition cosine_distance (a b : list float) : res float :=
  res_bind (np_dot a b) (fun d =>
  Good (1 - d / (np_linalg_norm a * np_linalg_norm b))%float).

Definition newline : string := String (ascii_of_nat 10) EmptyString.

(** [re.sub(r'\.mp3$', '', name, flags=re.IGNORECASE)]: [$] matches at the
    end of the string and before a final newline. *)
Definition strip_mp3 (name : string) : string :=
  let n := String.length name in
  if endswith (lower name) ".mp3" then String.substring 0 (n - 4) name
  else if endswith (lower name) (".mp3" +:+ newline)
  then String.substring 0 (n - 5) name +:+ newline
  else name.

(** [path.split('/')[-1]] *)
Definition basename (path : string) : string :=
  List.last (split "/"%char path) EmptyString.

Definition load_input_track (conn : db) (path : string)
    : res (list float * option string * string) :=
  match tracks conn with
  | None => Bad (OperationalError "no such table: tracks")
  | Some rows =>
      match find_track rows path with
      | Some {| embedding := Some emb; track_mbid := mbid |} =>
          Good (emb, mbid, strip_mp3 (basename path))
      | _ => Bad (SystemExit 1)
      end
  end.

(** [update_play_info]; [now] is the formatted current time.  The
    play-history table holds one row per path and is modelled as a map
    keyed by path. *)
Definition update_play_info (library : gmap string play_row)
    (path now : string) : gmap string play_row :=
  match library !! path with
  | Some row =>
      <[path := {| play_count := Some (or_default (play_count row) 0 + 1);
                   last_played := Some now |}]> library
  | None => library
  end.

(** A candidate: [(file_path, emb, track_mbid, last_played)]. *)
Record candidate := {
  cand_path : string;
  cand_emb : list float;
  cand_mbid : option string;
  cand_last_played : option string
}.

(** The loop of [load_candidates] over the rows selected by
    [WHERE embedding IS NOT NULL], in table order. *)
Fixpoint scan_candidates (library : gmap string play_row)
    (current_path : string) (current_mbid : option string)
    (norm_input_title : string) (rows : list track_row) : list candidate :=
  match rows with
  | [] => []
  | r :: rest =>
      let continue :=
        scan_candidates library current_path current_mbid norm_input_title rest in
      match embedding r with
      | None => continue
      | Some emb =>
          if String.eqb (file_path r) current_path then continue
          else if truthy current_mbid && bool_decide (track_mbid r = current_mbid)
          then continue
          else
            let filename := basename (file_path r) in
            let norm_filename := normalize_string filename in
            if str_in norm_input_title norm_filename then continue
            else
              let lib_row := library !! file_path r in
              let last_played := match lib_row with
                                 | Some row => last_played row
                                 | None => None
                                 end in
              {| cand_path := file_path r; cand_emb := emb;
                 cand_mbid := track_mbid r;
                 cand_last_played := last_played |} :: continue
      end
  end.

Definition load_candidates (conn_tracks : db) (library : gmap string play_row)
    (current_path : string) (current_mbid : option string)
    (input_title : string) : res (list candidate) :=
  match tracks conn_tracks with
  | None => Bad (OperationalError "no such table: tracks")
  | Some rows =>
      Good (scan_candidates library current_path current_mbid
              (normalize_string input_title) rows)
  end.

Section Select.

(** [datetime.fromisoformat] on naive timestamps, as a point on the time
    line; [None] when it raises. *)
Context (fromisoformat : string → option Z).

(** The block "Parse last_played". *)
Definition parse_last_played (last_played : option string) : option Z :=
  match last_played with
  | Some s => if truthy s then fromisoformat s else None
  | None => None
  end.

(** The loop variables of [select_best_match] once [best] is not [None]. *)
Record best_state := {
  best : string * float * option Z;
  best_dist : float;
  best_last_played : option Z
}.

(** One iteration of the loop of [select_best_match]. *)
Definition examine (current_emb : list float) (st : option best_state)
    (c : candidate) : res (option best_state) :=
  res_bind (cosine_distance current_emb (cand_emb c)) (fun dist =>
  if (dist <? DISTANCE_THRESHOLD)%float then Good st
  else
    let last_played_dt := parse_last_played (cand_last_played c) in
    let taken := (cand_path c, dist, last_played_dt) in
    match st with
    | None =>
        Good (Some {| best := taken; best_dist := dist;
                      best_last_played := last_played_dt |})
    | Some s =>
        if (dist <? best_dist s)%float
        then Good (Some {| best := taken; best_dist := dist;
                           best_last_played := last_played_dt |})
        else if (PrimFloat.abs (dist - best_dist s) <? TIE_EPSILON)%float
        then
          match best_last_played s, last_played_dt with
          | Some b, Some l =>
              if (l <? b)%Z
              then Good (Some {| best := taken; best_dist := best_dist s;
                                 best_last_played := last_played_dt |})
              else Good st
          | None, Some _ => Good st
          | Some _, None =>
              Good (Some {| best := taken; best_dist := best_dist s;
                            best_last_played := last_played_dt |})
          | None, None => Good st
          end
        else Good st
    end).

Fixpoint examine_all (current_emb : list float) (st : option best_state)
    (candidates : list candidate) : res (option best_state) :=
  match candidates with
  | [] => Good st
  | c :: rest =>
      res_bind (examine current_emb st c) (fun st' =>
      examine_all current_emb st' rest)
  end.

Definition select_best_match (current_emb : list float)
    (candidates : list candidate) : res (option (string * float * option Z)) :=
  res_bind (examine_all current_emb None candidates) (fun st =>
  Good (best <$> st)).

(** What [main] prints. *)
Inductive report :=
| Selected (best_file : string) (best_score : float) (last : option Z)
| NoSuitableMatch.

(** [main]: the outcome and the play-history store it leaves.  [argv] is
    [sys.argv]; [conn_tracks] and [conn_library] are the two databases
    opened; [now] is the formatted current time. *)
Definition main (argv : list string) (conn_tracks : db)
    (conn_library : gmap string play_row) (now : string)
    : res report * gmap string play_row :=
  match argv with
  | [_; current_path; _] =>
      match load_input_track conn_tracks current_path with
      | Bad e => (Bad e, conn_library)
      | Good (current_emb, current_mbid, current_title) =>
          match load_candidates conn_tracks conn_library current_path
                  current_mbid current_title with
          | Bad e => (Bad e, conn_library)
          | Good candidates =>
              match select_best_match current_emb candidates with
              | Bad e => (Bad e, conn_library)
              | Good (Some (best_file, best_score, best_last_played)) =>
                  (Good (Selected best_file best_score best_last_played),
                   update_play_info conn_library best_file now)
              | Good None => (Good NoSuitableMatch, conn_library)
              end
          end
      end
  | _ => (Bad (SystemExit 1), conn_library)
  end.

End Select.

(** *** Observations used by the properties *)

(** The string contains an ASCII letter or digit. *)
Fixpoint has_alnum (s : string) : bool :=
  match s with
  | EmptyString => false
  | String c t => is_upper c || is_lower c || is_digit c || has_alnum t
  end.

(** The file the loop currently holds as best. *)
Definition best_path (s : best_state) : string := (best s).1.1.

(** The candidate passes the near-duplicate test of [select_best_match]. *)
Definition survives (current_emb : list float) (c : candidate) : bool :=
  match cosine_distance current_emb (cand_emb c) with
  | Good dist => negb (dist <? DISTANCE_THRESHOLD)%float
  | Bad _ => true
  end.

(** A character that [normalize_string] keeps. *)
Definition is_norm_char (c : Ascii.ascii) : bool := is_lower c || is_digit c.

(** The three tests of the loop of [load_candidates] on one row. *)
Definition eligible (current_path : string) (current_mbid : option string)
    (norm_input_title : string) (r : track_row) : bool :=
  negb (String.eqb (file_path r) current_path)
  && negb (truthy current_mbid && bool_decide (track_mbid r = current_mbid))
  && negb (str_in norm_input_title (normalize_string (basename (file_path r)))).

(** The tuple [load_candidates] appends for a row with embedding [emb]. *)
Definition candidate_of (library : gmap string play_row) (r : track_row)
    (emb : list float) : candidate :=
  {| cand_path := file_path r; cand_emb := emb; cand_mbid := track_mbid r;
     cand_last_played := library !! file_path r ≫= last_played |}.

(** The loop invariant of [select_best_match], over the candidates [seen]
    examined so far: nothing is held while no candidate has passed the
    threshold; otherwise [best] is the tuple of a candidate that passed,
    [best_dist] is the distance of a candidate, no candidate that passed
    is strictly closer than [best_dist], and the distance in [best] is
    [best_dist] or within the epsilon of it. *)
Definition holds_best (iso : string → option Z) (current_emb : list float)
    (seen : list candidate) (st : option best_state) : Prop :=
  match st with
  | None =>
      ∀ c d, c ∈ seen → cosine_distance current_emb (cand_emb c) = Good d →
             (d <? DISTANCE_THRESHOLD)%float = true
  | Some s =>
      (∃ c d, c ∈ seen
         ∧ cosine_distance current_emb (cand_emb c) = Good d
         ∧ (d <? DISTANCE_THRESHOLD)%float = false
         ∧ best s = (cand_path c, d, parse_last_played iso (cand_last_played c))
         ∧ best_last_played s = parse_last_played iso (cand_last_played c)
         ∧ (d <? best_dist s)%float = false
         ∧ (d = best_dist s
            ∨ (PrimFloat.abs (d - best_dist s) <? TIE_EPSILON)%float = true))
      ∧ (∃ c0, c0 ∈ seen
           ∧ cosine_distance current_emb (cand_emb c0) = Good (best_dist s))
      ∧ (∀ c d, c ∈ seen →
                cosine_distance current_emb (cand_emb c) = Good d →
                (d <? DISTANCE_THRESHOLD)%float = false →
                (d <? best_dist s)%float = false)
  end.

End NextTrack.

(** ** Concrete collaborators and stores used in the examples *)

Module Sample.
Import Py Store.

Fixpoint digits_from (acc : Z) (s : string) : option Z :=
  match s with
  | EmptyString => Some acc
  | String c t =>
      if is_digit c
      then digits_from (10 * acc + (Z.of_N (N_of_ascii c) - 48)) t
      else None
  end.

(** [int(s)] on plain decimal numerals; anything else raises. *)
Definition decimal (s : string) : option Z :=
  match s with
  | EmptyString => None
  | _ => digits_from 0 s
  end.

Fixpoint only_digits (s : string) : string :=
  match s with
  | EmptyString => EmptyString
  | String c t => if is_digit c then String c (only_digits t) else only_digits t
  end.

Definition char_at (s : string) (i : nat) (c : ascii) : bool :=
  bool_decide (String.get i s = Some c).

(** [datetime.fromisoformat] on the format [update_play_info] writes,
    [YYYY-MM-DD HH:MM:SS]; the timestamp is read as the number
    [YYYYMMDDHHMMSS], which orders timestamps chronologically. *)
Definition iso_seconds (s : string) : option Z :=
  if (String.length s =? 19)%nat && char_at s 4 "-" && char_at s 7 "-"
     && char_at s 10 " " && char_at s 13 ":" && char_at s 16 ":"
     && (String.length (only_digits s) =? 14)%nat
  then decimal (only_digits s)
  else None.

Definition track (path : string) (mbid : option string)
    (g : option string) (y : option Z) (a : option string)
    (emb : option (list float)) : track_row :=
  {| file_path := path; track_mbid := mbid; artist_mbid := None;
     release_group_mbid := None; genre := g; year := y; album_type := a;
     embedding := emb |}.

(** A cache table that has the raw-payload column. *)
Definition full_cache (rows : gmap string cache_row) : cache_table :=
  {| cache_columns := ["track_mbid"; "genre"; "year"; "album_type";
                       "recording_json"];
     cache_rows := rows |}.

(** A cache entry resolved to unknown: all three fields null, payload
    present. *)
Definition unknown_entry : cache_row :=
  {| c_genre := None; c_year := None; c_album_type := None;
     c_recording_json := Some "{}" |}.

Import BuildDb.

(** A file tagged with the recording identifier [mbid]. *)
Definition tagged (mbid : string) : id3_tags :=
  {| id3_ufid := [{| ufid_owner := "http://musicbrainz.org";
                     ufid_data := mbid |}];
     id3_txxx := [] |}.

Definition bohemian : mb_recording :=
  {| rec_tag_list := [{| tag_name := Some "rock"; tag_count := Some "3" |}];
     rec_release_list :=
       [{| rel_release_group :=
             Some {| rg_tag_list := []; rg_primary_type := Some "Album" |};
           rel_date := Some "1975-10-31"; rel_release_event_list := [];
           rel_status := Some "Official";
           rel_title := Some "A Night at the Opera" |}];
     rec_artist_credit := [] |}.

(** A music directory with two tagged files; the remote service is down. *)
Definition offline : env :=
  {| ID3 := fun _ => Good (tagged "b1a9c0e9");
     get_recording_by_id := fun _ _ => Bad WebServiceError;
     get_artist_by_id := fun _ _ => Bad WebServiceError;
     os_walk := fun _ => [("/music", ["one.mp3"; "two.mp3"])];
     py_int := decimal;
     json_members := fun _ => EmptyString;
     encode := fun _ => [1%float; 0%float] |}.

(** The same directory with the remote service answering. *)
Definition online : env :=
  {| ID3 := fun _ => Good (tagged "b1a9c0e9");
     get_recording_by_id := fun _ _ => Good bohemian;
     get_artist_by_id := fun _ _ => Bad WebServiceError;
     os_walk := fun _ => [("/music", ["one.mp3"; "two.mp3"])];
     py_int := decimal;
     json_members := fun _ => EmptyString;
     encode := fun _ => [1%float; 0%float] |}.

Definition start (d : db) : world :=
  {| conn := d; diag := no_diagnostics; trace := [] |}.

(** The remote service fails on the first call and answers afterwards. *)
Definition flaky : env :=
  {| ID3 := fun _ => Good (tagged "b1a9c0e9");
     get_recording_by_id :=
       fun n _ => match n with
                  | O => Bad WebServiceError
                  | S _ => Good bohemian
                  end;
     get_artist_by_id := fun _ _ => Bad WebServiceError;
     os_walk := fun _ => [("/music", ["one.mp3"; "two.mp3"])];
     py_int := decimal;
     json_members := fun _ => EmptyString;
     encode := fun _ => [1%float; 0%float] |}.

(** A store whose cache table has the raw-payload column, still empty. *)
Definition clean_db : db :=
  {| tracks := Some []; mbid_cache := Some (full_cache ∅) |}.

Definition world_of {A} (o : outcome A) : world :=
  match o with Ok _ w | Raise _ w => w end.

(** The world after a first run over ["/music"], for each environment. *)
Definition online_first : world :=
  Eval vm_compute in
    world_of (walk_and_process online "/music" (start clean_db)).
Definition offline_first : world :=
  Eval vm_compute in
    world_of (walk_and_process offline "/music" (start clean_db)).
Definition flaky_first : world :=
  Eval vm_compute in
    world_of (walk_and_process flaky "/music" (start clean_db)).

(** The world after a second run. *)
Definition offline_second : world :=
  Eval vm_compute in world_of (walk_and_process offline "/music" offline_first).
Definition flaky_second : world :=
  Eval vm_compute in world_of (walk_and_process flaky "/music" flaky_first).

(** A store with one record whose year is the integer 0 (what
    [int("0000")] gives for a date [0000-...]), and an authoritative cache
    entry for its recording identifier. *)
Definition zero_year_db : db :=
  {| tracks := Some [track "/music/one.mp3" (Some "b1a9c0e9")
                       (Some "rock") (Some 0) (Some "Album") None];
     mbid_cache :=
       Some (full_cache
               {[ "b1a9c0e9" :=
                    {| c_genre := Some "rock"; c_year := Some 1975;
                       c_album_type := Some "Album";
                       c_recording_json := Some "{}" |} ]}) |}.

Definition zero_year_after : world :=
  Eval vm_compute in
    world_of (process_file online "/music/one.mp3" (start zero_year_db)).

(** The world after processing one new file with the service answering. *)
Definition one_file_after : world :=
  Eval vm_compute in
    world_of (process_file online "/music/one.mp3" (start clean_db)).

(** The world after the first file is processed again, in [flaky_first]. *)
Definition flaky_backfilled : world :=
  Eval vm_compute in
    world_of (process_file flaky "/music/one.mp3" flaky_first).

(** *** Stores for the selection engine *)

(** Two files whose recording identifier is the empty string (a tag frame
    with empty data), with orthogonal embeddings. *)
Definition empty_id_db : db :=
  {| tracks := Some [track "/music/ref.mp3" (Some EmptyString) None None None
                       (Some [1%float; 0%float]);
                     track "/music/other.mp3" (Some EmptyString) None None None
                       (Some [0%float; 1%float])];
     mbid_cache := None |}.

(** Candidates for the reference embedding [reference]: the two kinds are
    at cosine distances about 3.5e-7 apart, less than the tie epsilon. *)
Definition reference : list float := [1%float; 0%float].

Definition slightly_closer (path : string) (last : option string)
    : NextTrack.candidate :=
  {| NextTrack.cand_path := path;
     NextTrack.cand_emb := [1%float; 1%float];
     NextTrack.cand_mbid := None;
     NextTrack.cand_last_played := last |}.

Definition slightly_farther (path : string) (last : option string)
    : NextTrack.candidate :=
  {| NextTrack.cand_path := path;
     NextTrack.cand_emb := [1%float; 1.000001%float];
     NextTrack.cand_mbid := None;
     NextTrack.cand_last_played := last |}.

Definition distance_to (emb : list float) : float :=
  match NextTrack.cosine_distance reference emb with
  | Good d => d
  | Bad _ => PrimFloat.nan
  end.

(** About 0.2928932 and 0.2928936. *)
Definition closer_distance : float :=
  Eval vm_compute in distance_to [1%float; 1%float].
Definition farther_distance : float :=
  Eval vm_compute in distance_to [1%float; 1.000001%float].

(** A library with a reference, a same-recording duplicate, a re-encode
    whose filename contains the reference title, and an unrelated track. *)
Definition selection_db : db :=
  {| tracks :=
       Some [track "/music/Queen - Bohemian Rhapsody.mp3" (Some "b1a9c0e9")
               None None None (Some [1%float; 0%float]);
             track "/music/disc2/track07.mp3" (Some "b1a9c0e9")
               None None None (Some [0.6%float; 0.8%float]);
             track "/music/old/queen_bohemian_rhapsody_128k.mp3" None
               None None None (Some [0.8%float; 0.6%float]);
             track "/music/Under Pressure.mp3" (Some "32c7e292")
               None None None (Some [0%float; 1%float])];
     mbid_cache := None |}.

(** A library whose only other track is a near-duplicate of the
    reference: cosine distance 0. *)
Definition copy_db : db :=
  {| tracks :=
       Some [track "/music/ref.mp3" None None None None
               (Some [1%float; 0%float]);
             track "/music/copy.mp3" None None None None
               (Some [2%float; 0%float])];
     mbid_cache := None |}.

(** A play-history store that knows both files of [copy_db]. *)
Definition history : gmap string play_row :=
  {[ "/music/ref.mp3" := {| play_count := Some 3;
                            last_played := Some "2024-01-01 00:00:00" |};
     "/music/copy.mp3" := {| play_count := None; last_played := None |} ]}.

(** A reference whose filename has no letter or digit. *)
Definition blank_title_db : db :=
  {| tracks :=
       Some [track "/music/--- !!! ---.mp3" None None None None
               (Some [1%float; 0%float]);
             track "/music/Under Pressure.mp3" None None None None
               (Some [0%float; 1%float])];
     mbid_cache := None |}.

(** The world after one lookup of the identifier, the service
    answering. *)
Definition looked_up : world :=
  Eval vm_compute in
    world_of (query_musicbrainz online "b1a9c0e9" (start clean_db)).

(** A music directory whose two files carry no identifier frame. *)
Definition untagged_library : env :=
  {| ID3 := fun _ => Good {| id3_ufid := []; id3_txxx := [] |};
     get_recording_by_id := fun _ _ => Good bohemian;
     get_artist_by_id := fun _ _ => Bad WebServiceError;
     os_walk := fun _ => [("/music", ["one.mp3"; "two.mp3"])];
     py_int := decimal;
     json_members := fun _ => EmptyString;
     encode := fun _ => [1%float; 0%float] |}.

End Sample.

(** * Properties of the enrichment pipeline *)

Module BuildDbSpec.
Import Py Store BuildDb.

(** Unfolds the monadic plumbing. *)
Ltac unfold_M :=
  unfold mbind, mret, M_bind, M_ret, bind, ret, raise, lift, try_except,
    log, set_conn, set_diag, get_world in *.

(** ** The schema [create_db] creates *)

Lemma create_db_fresh_cache rows :
  mbid_cache (create_db {| tracks := rows; mbid_cache := None |})
  = Some {| cache_columns := created_cache_columns; cache_rows := ∅ |}.
Proof. reflexivity. Qed.

Lemma cache_select_created_raises mbid w rows :
  mbid_cache (conn w)
  = Some {| cache_columns := created_cache_columns; cache_rows := rows |} →
  cache_select mbid w
  = Raise (OperationalError "no such column: recording_json") w.
Proof.
  intros Hc. unfold cache_select. unfold_M. rewrite Hc. reflexivity.
Qed.

Lemma query_musicbrainz_created_raises E mbid w rows :
  mbid_cache (conn w)
  = Some {| cache_columns := created_cache_columns; cache_rows := rows |} →
  query_musicbrainz E mbid w
  = Raise (OperationalError "no such column: recording_json") w.
Proof.
  intros Hc. unfold query_musicbrainz. unfold_M.
  by erewrite cache_select_created_raises.
Qed.

(** C9 (the code does not do what the claim says). On a store whose
    schema [create_db] produced, table [mbid_cache] has the four columns
    [track_mbid], [genre], [year], [album_type] and no [recording_json]
    column, so the cache [SELECT] of [query_musicbrainz] raises
    [OperationalError] for every recording identifier: no raw payload can
    be stored or read back. *)
Theorem created_cache_lacks_payload_column
    (E : env) (rows : option (list track_row)) (mbid : string)
    (d : diagnostics) (t : list event) :
  let created := create_db {| tracks := rows; mbid_cache := None |} in
  let w := {| conn := created; diag := d; trace := t |} in
  (cache_columns <$> mbid_cache created) = Some created_cache_columns
  ∧ has_column created_cache_columns "recording_json" = false
  ∧ missing_column cache_select_columns created_cache_columns
    = Some "recording_json"
  ∧ missing_column cache_insert_columns created_cache_columns
    = Some "recording_json"
  ∧ query_musicbrainz E mbid w
    = Raise (OperationalError "no such column: recording_json") w.
Proof.
  cbn zeta. split; [reflexivity|]. do 3 (split; [reflexivity|]).
  eapply query_musicbrainz_created_raises. apply create_db_fresh_cache.
Qed.

(** C4 (the code does not do what the claim says). [query_musicbrainz]
    raises on the store [create_db] makes from an empty database file: the
    cache [SELECT] stands before the [try], so its [OperationalError]
    escapes.  In a run of [main] over a directory with two tagged files the
    error stops the run at the first file: no track is stored and the
    second file is never processed. *)
Theorem lookup_error_escapes_query :
  (∀ (E : env) (mbid : string),
     query_musicbrainz E mbid (Sample.start (create_db empty_db))
     = Raise (OperationalError "no such column: recording_json")
         (Sample.start (create_db empty_db)))
  ∧ mp3_paths (os_walk Sample.offline "/music")
    = ["/music/one.mp3"; "/music/two.mp3"]
  ∧ main Sample.offline ["build_db.py"; "/music"] empty_db
    = Raise (OperationalError "no such column: recording_json")
        {| conn := {| tracks := Some [];
                      mbid_cache := Some {| cache_columns := created_cache_columns;
                                            cache_rows := ∅ |} |};
           diag := no_diagnostics; trace := [] |}.
Proof.
  split; [|split; reflexivity].
  intros E mbid.
  eapply query_musicbrainz_created_raises. apply (create_db_fresh_cache None).
Qed.

(** ** Counting events *)

Lemma count_events_app p (t1 t2 : list event) :
  count_events p (t1 ++ t2)%list = (count_events p t1 + count_events p t2)%nat.
Proof.
  unfold count_events. rewrite List.filter_app. apply length_app.
Qed.

Lemma count_events_cons p e (t : list event) :
  count_events p (e :: t)
  = ((if p e then 1 else 0) + count_events p t)%nat.
Proof. unfold count_events. cbn. destruct (p e); reflexivity. Qed.

Lemma count_events_remote p (new : list event) :
  (∀ e, is_remote e = true → p e = false) →
  forallb is_remote new = true →
  count_events p new = 0%nat.
Proof.
  intros Hp. induction new as [|e new IH]; [reflexivity|].
  intros Hall. cbn in Hall. apply andb_prop in Hall as [He Hnew].
  rewrite count_events_cons, (Hp e He). cbn. auto.
Qed.

Lemma failed_queries_remote new :
  forallb is_remote new = true → failed_queries new = 0%nat.
Proof. apply count_events_remote. by intros []. Qed.

Lemma track_updates_remote path new :
  forallb is_remote new = true → track_updates path new = 0%nat.
Proof. apply count_events_remote. by intros []. Qed.

(** ** The remote lookup only adds remote calls to the trace *)

Lemma after_nil w : after [] w = w.
Proof. by destruct w. Qed.

Lemma after_after new1 new2 w :
  after new2 (after new1 w) = after (new2 ++ new1)%list w.
Proof. unfold after. cbn. by rewrite app_assoc. Qed.

Lemma only_calls_ret {A} (a : A) : only_calls (mret a).
Proof. intros w. exists []. split; [done|]. cbn. by rewrite after_nil. Qed.

Lemma only_calls_raise {A} e : only_calls (@raise A e).
Proof. intros w. exists []. split; [done|]. cbn. by rewrite after_nil. Qed.

Lemma only_calls_lift {A} (r : res A) : only_calls (lift r).
Proof.
  intros w. exists []. split; [done|].
  unfold lift. destruct r; by rewrite after_nil.
Qed.

Lemma only_calls_bind {A B} (m : M A) (k : A → M B) :
  only_calls m → (∀ a, only_calls (k a)) → only_calls (m ≫= k).
Proof.
  intros Hm Hk w. destruct (Hm w) as (new1 & Hr1 & H1).
  unfold mbind, M_bind, bind.
  destruct (m w) as [a w1|e w1]; subst w1.
  - destruct (Hk a (after new1 w)) as (new2 & Hr2 & H2).
    exists (new2 ++ new1)%list. split.
    + rewrite forallb_app. by rewrite Hr1, Hr2.
    + destruct (k a (after new1 w)); by rewrite H2, after_after.
  - by exists new1.
Qed.

Lemma only_calls_get_world : only_calls get_world.
Proof. intros w. exists []. split; [done|]. cbn. by rewrite after_nil. Qed.

Lemma only_calls_log_remote e : is_remote e = true → only_calls (log e).
Proof. intros He w. exists [e]. split; [by rewrite <- He; cbn; rewrite andb_true_r|done]. Qed.

Lemma only_calls_artist_tags E id d : only_calls (artist_tags E id d).
Proof.
  unfold artist_tags.
  apply only_calls_bind; [apply only_calls_get_world|]. intros w.
  apply only_calls_bind; [by apply only_calls_log_remote|]. intros _.
  destruct (get_artist_by_id E _ id); apply only_calls_ret.
Qed.

Lemma only_calls_artist_fallback E credits d :
  only_calls (artist_fallback E credits d).
Proof.
  revert d. induction credits as [|[s|[a|]] rest IH]; intros d; cbn.
  - apply only_calls_ret.
  - destruct (str_in "artist" s); [apply only_calls_raise | apply IH].
  - destruct (artist_id a); [|apply only_calls_raise].
    apply only_calls_bind; [apply only_calls_artist_tags | intros; apply IH].
  - apply IH.
Qed.

Lemma only_calls_aggregate E mbid : only_calls (aggregate E mbid).
Proof.
  unfold aggregate.
  apply only_calls_bind; [apply only_calls_get_world|]. intros w.
  apply only_calls_bind; [by apply only_calls_log_remote|]. intros _.
  apply only_calls_bind; [apply only_calls_lift|]. intros recording.
  apply only_calls_bind; [apply only_calls_lift|]. intros tc1.
  apply only_calls_bind; [apply only_calls_lift|]. intros tc2.
  apply only_calls_bind; [|intros; apply only_calls_ret].
  destruct (negb _); [apply only_calls_artist_fallback | apply only_calls_ret].
Qed.

(** ** The outcomes of [query_musicbrainz] *)

Lemma truthy_json_dumps E recording : truthy (json_dumps E recording) = true.
Proof. reflexivity. Qed.

Lemma fresh_lookup_cases E mbid w :
  ∃ new, forallb is_remote new = true ∧
    match fresh_lookup E mbid w with
    | Raise _ w' => conn w' = conn w ∧ trace w' = (new ++ trace w)%list
    | Ok (g, y, a) w' =>
        ∃ t json, mbid_cache (conn w) = Some t ∧ truthy json = true ∧
          w' = {| conn := {| tracks := tracks (conn w);
                             mbid_cache :=
                               Some {| cache_columns := cache_columns t;
                                       cache_rows :=
                                         <[mbid := {| c_genre := g; c_year := y;
                                                      c_album_type := a;
                                                      c_recording_json := Some json |}]>
                                           (cache_rows t) |} |};
                  diag := count_missing g y a (diag w);
                  trace := Sleep :: PrintResolved g y a
                           :: Committed (UpsertCache mbid) :: new ++ trace w |}
    end.
Proof.
  destruct (only_calls_aggregate E mbid w) as (new & Hnew & Hagg).
  exists new. split; [done|].
  unfold fresh_lookup. unfold mbind at 1. unfold M_bind at 1. unfold bind at 1.
  destruct (aggregate E mbid w) as [[[[recording g] y] a] w1|e w1]; subst w1;
    [|by split].
  unfold cache_insert. unfold_M.
  cbn -[missing_column fits_sqlite_integer json_dumps].
  destruct (mbid_cache (conn w)) as [t|] eqn:Ht; [|by split].
  destruct (missing_column cache_insert_columns (cache_columns t)); [by split|].
  destruct (fits_sqlite_integer y); [|by split].
  exists t, (json_dumps E recording). by repeat split.
Qed.

Lemma cache_select_spec mbid w :
  cache_select mbid w
  = match mbid_cache (conn w) with
    | None => Raise (OperationalError "no such table: mbid_cache") w
    | Some t =>
        match missing_column cache_select_columns (cache_columns t) with
        | Some c => Raise (OperationalError ("no such column: " +:+ c)) w
        | None => Ok (cache_rows t !! mbid) w
        end
    end.
Proof.
  unfold cache_select. unfold_M.
  destruct (mbid_cache (conn w)) as [t|]; [|done].
  by destruct (missing_column _ _).
Qed.

Lemma cache_entry_table d t mbid :
  mbid_cache d = Some t →
  cache_entry d mbid
  = match missing_column cache_select_columns (cache_columns t) with
    | Some _ => None
    | None => cache_rows t !! mbid
    end.
Proof. unfold cache_entry. by intros ->. Qed.

Lemma guarded_lookup_result E mbid w t :
  has_payload (conn w) mbid = false →
  mbid_cache (conn w) = Some t →
  missing_column cache_select_columns (cache_columns t) = None →
  query_result mbid w (guarded_lookup E mbid w).
Proof.
  intros Hp Ht Hcols.
  destruct (fresh_lookup_cases E mbid w) as (new & Hnew & Hf).
  unfold guarded_lookup, try_except.
  destruct (fresh_lookup E mbid w) as [[[g y] a] w'|e w'].
  - destruct Hf as (t' & json & Ht' & Hjson & ->).
    rewrite Ht in Ht'. injection Ht' as <-. by eapply QFresh.
  - destruct Hf as [Hconn Htrace]. unfold_M. cbn.
    rewrite Hconn, Htrace. by apply QFailed.
Qed.

(** Every call of [query_musicbrainz] ends in one of the four ways of
    [query_result]. *)
Lemma query_musicbrainz_result E mbid w :
  query_result mbid w (query_musicbrainz E mbid w).
Proof.
  unfold query_musicbrainz. unfold mbind, M_bind, bind.
  rewrite cache_select_spec.
  destruct (mbid_cache (conn w)) as [t|] eqn:Ht.
  - destruct (missing_column cache_select_columns (cache_columns t)) eqn:Hcols.
    + apply QSelectRaises. by rewrite (cache_entry_table _ t), Hcols.
    + assert (Hentry : cache_entry (conn w) mbid = cache_rows t !! mbid).
      { by rewrite (cache_entry_table _ t), Hcols. }
      destruct (cache_rows t !! mbid) as [c|] eqn:Hc.
      * destruct (truthy (c_recording_json c)) eqn:Hp.
        -- by apply QHit.
        -- eapply guarded_lookup_result; [|done..].
           unfold has_payload. by rewrite Hentry.
      * eapply guarded_lookup_result; [|done..].
        unfold has_payload. by rewrite Hentry.
  - apply QSelectRaises. unfold cache_entry. by rewrite Ht.
Qed.

(** [query_musicbrainz] raises only when its cache [SELECT] does: whatever
    goes wrong after the [SELECT] is caught. *)
Lemma query_musicbrainz_total E mbid w t :
  mbid_cache (conn w) = Some t →
  missing_column cache_select_columns (cache_columns t) = None →
  ∃ r w', query_musicbrainz E mbid w = Ok r w'.
Proof.
  intros Ht Hcols.
  unfold query_musicbrainz. unfold mbind, M_bind, bind.
  rewrite cache_select_spec, Ht, Hcols.
  assert (Hg : ∃ r w', guarded_lookup E mbid w = Ok r w').
  { unfold guarded_lookup, try_except.
    destruct (fresh_lookup E mbid w); unfold_M; eauto. }
  destruct (cache_rows t !! mbid) as [c|]; [|done].
  destruct (truthy (c_recording_json c)); eauto.
Qed.

(** A failure of the remote lookup itself is caught: the answer is all
    null, nothing is written, and the failure is only printed. *)
Lemma remote_failure_is_all_null E mbid w t e :
  mbid_cache (conn w) = Some t →
  missing_column cache_select_columns (cache_columns t) = None →
  has_payload (conn w) mbid = false →
  get_recording_by_id E (remote_calls (trace w)) mbid = Bad e →
  query_musicbrainz E mbid w
  = Ok (None, None, None)
      (after [PrintQueryFailed mbid; RemoteRecording mbid] w).
Proof.
  intros Ht Hcols Hp Hremote.
  assert (guarded_lookup E mbid w
          = Ok (None, None, None)
              (after [PrintQueryFailed mbid; RemoteRecording mbid] w)) as Hg.
  { unfold guarded_lookup, fresh_lookup, aggregate. unfold_M. cbn.
    by rewrite Hremote. }
  unfold query_musicbrainz. unfold mbind, M_bind, bind.
  rewrite cache_select_spec, Ht, Hcols.
  unfold has_payload in Hp. rewrite (cache_entry_table _ t), Hcols in Hp by done.
  destruct (cache_rows t !! mbid) as [c|]; [|done]. by rewrite Hp.
Qed.

(** ** Lookups and updates in table [tracks] *)

Lemma find_track_path rows path r :
  find_track rows path = Some r → file_path r = path.
Proof.
  unfold find_track. intros H. apply List.find_some in H as [_ H].
  by apply String.eqb_eq.
Qed.

Lemma find_track_update_same rows path g y a :
  find_track (update_track rows path g y a) path
  = (λ r, {| file_path := file_path r; track_mbid := track_mbid r;
             artist_mbid := artist_mbid r;
             release_group_mbid := release_group_mbid r;
             genre := g; year := y; album_type := a;
             embedding := embedding r |}) <$> find_track rows path.
Proof.
  induction rows as [|r rows IH]; [done|]. cbn.
  destruct (String.eqb (file_path r) path) eqn:Hr; cbn; rewrite Hr; [done|].
  apply IH.
Qed.

Lemma find_track_update_other rows path other g y a :
  other ≠ path →
  find_track (update_track rows path g y a) other = find_track rows other.
Proof.
  intros Hne. induction rows as [|r rows IH]; [done|]. cbn.
  destruct (String.eqb (file_path r) path) eqn:Hr; cbn.
  - apply String.eqb_eq in Hr.
    destruct (String.eqb (file_path r) other) eqn:Ho; [|apply IH].
    apply String.eqb_eq in Ho. congruence.
  - destruct (String.eqb (file_path r) other); [done | apply IH].
Qed.

Lemma find_track_append rows r path :
  find_track (rows ++ [r]) path
  = match find_track rows path with
    | Some x => Some x
    | None => if String.eqb (file_path r) path then Some r else None
    end.
Proof.
  induction rows as [|x rows IH]; cbn.
  - by destruct (String.eqb (file_path r) path).
  - by destruct (String.eqb (file_path x) path).
Qed.

(** ** The three branches of [process_file] *)

Lemma select_track_spec path w :
  select_track path w
  = match tracks (conn w) with
    | None => Raise (OperationalError "no such table: tracks") w
    | Some rows => Ok (find_track rows path) w
    end.
Proof. unfold select_track. unfold_M. by destruct (tracks (conn w)). Qed.

(** Existing record that asks for nothing: "Existing Complete". *)
Lemma process_file_complete E path w rows r :
  tracks (conn w) = Some rows →
  find_track rows path = Some r →
  needs_lookup r = false →
  process_file E path w = Ok tt (after [PrintStatus path ExistingComplete] w).
Proof.
  intros Hrows Hr Hneed. unfold process_file. unfold mbind at 1.
  unfold M_bind at 1. unfold bind at 1.
  rewrite select_track_spec, Hrows, Hr. fold (needs_lookup r). rewrite Hneed.
  reflexivity.
Qed.

(** Existing record with a missing field: the lookup and the backfill. *)
Lemma process_file_backfill E path w rows r :
  tracks (conn w) = Some rows →
  find_track rows path = Some r →
  needs_lookup r = true →
  process_file E path w
  = match query_musicbrainz E (default EmptyString (track_mbid r)) w with
    | Raise e wq => Raise e wq
    | Ok (g, y, a) wq =>
        if any_update r g y a
        then match tracks (conn wq) with
             | None => Raise (OperationalError "no such table: tracks") wq
             | Some rows' =>
                 Ok tt
                   {| conn := {| tracks :=
                                   Some (update_track rows' path
                                           (genre (backfill r g y a))
                                           (year (backfill r g y a))
                                           (album_type (backfill r g y a)));
                                 mbid_cache := mbid_cache (conn wq) |};
                      diag := diag wq;
                      trace :=
                        PrintStatus path
                          (MetadataUpdated
                             (truthy g && negb (truthy (genre r)))
                             (truthy y && negb (truthy (year r)))
                             (truthy a && negb (truthy (album_type r))))
                        :: Committed (UpdateTrack path) :: trace wq |}
             end
        else Ok tt (after [PrintStatus path NoNewMetadata] wq)
    end.
Proof.
  intros Hrows Hr Hneed. unfold process_file. unfold mbind at 1.
  unfold M_bind at 1. unfold bind at 1.
  rewrite select_track_spec, Hrows, Hr. fold (needs_lookup r). rewrite Hneed.
  unfold mbind at 1. unfold M_bind at 1. unfold bind at 1.
  unfold mbind at 1. unfold M_bind at 1. unfold bind at 1.
  destruct (query_musicbrainz E (default EmptyString (track_mbid r)) w)
    as [[[g y] a] wq|e wq]; [|done].
  fold (any_update r g y a). destruct (any_update r g y a); [|done].
  unfold execute_update_track. unfold_M. cbn.
  by destruct (tracks (conn wq)).
Qed.

Lemma get_mbids_spec E path w :
  get_mbids E path w
  = match read_mbids E path with
    | Good ids => Ok ids w
    | Bad _ => Ok (None, None, None) (after [PrintFailedTags path] w)
    end.
Proof.
  unfold get_mbids. unfold_M. destruct (read_mbids E path); [|done].
  by destruct w.
Qed.

(** No record yet: "New Added". *)
Lemma process_file_new E path w rows :
  tracks (conn w) = Some rows →
  find_track rows path = None →
  process_file E path w
  = match get_mbids E path w with
    | Raise e wt => Raise e wt
    | Ok (mbid, artist, rg) wt =>
        match (if truthy mbid then query_musicbrainz E (default EmptyString mbid) wt
               else Ok (None, None, None) wt) with
        | Raise e wq => Raise e wq
        | Ok (g, y, a) wq =>
            match tracks (conn wq) with
            | None => Raise (OperationalError "no such table: tracks") wq
            | Some rows' =>
                match find_track rows' path with
                | Some _ =>
                    Raise (IntegrityError
                             "UNIQUE constraint failed: tracks.file_path") wq
                | None =>
                    Ok tt
                      {| conn :=
                           {| tracks :=
                                Some (app rows'
                                      [{| file_path := path; track_mbid := mbid;
                                          artist_mbid := artist;
                                          release_group_mbid := rg;
                                          genre := g; year := y;
                                          album_type := a;
                                          embedding := None |}]);
                              mbid_cache := mbid_cache (conn wq) |};
                         diag := diag wq;
                         trace := PrintStatus path (NewAdded g y a)
                                  :: Committed (InsertTrack path) :: trace wq |}
                end
            end
        end
    end.
Proof.
  intros Hrows Hr. unfold process_file. unfold mbind at 1.
  unfold M_bind at 1. unfold bind at 1.
  rewrite select_track_spec, Hrows, Hr.
  unfold mbind at 1. unfold M_bind at 1. unfold bind at 1.
  unfold mbind at 1. unfold M_bind at 1. unfold bind at 1.
  destruct (get_mbids E path w) as [[[mbid artist] rg] wt|e wt]; [|done].
  unfold mbind at 1. unfold M_bind at 1. unfold bind at 1.
  assert (Hq : (if truthy mbid then query_musicbrainz E (default EmptyString mbid)
                else mret (None, None, None)) wt
               = (if truthy mbid then query_musicbrainz E (default EmptyString mbid) wt
                  else Ok (None, None, None) wt)).
  { by destruct (truthy mbid). }
  rewrite Hq. clear Hq.
  destruct (if truthy mbid then _ else _) as [[[g y] a] wq|e wq]; [|done].
  unfold execute_insert_track. unfold_M. cbn.
  destruct (tracks (conn wq)) as [rows'|]; [|done].
  by destruct (find_track rows' path).
Qed.

(** ** What a lookup leaves behind *)

Lemma query_result_tracks mbid w o :
  query_result mbid w o →
  match o with
  | Ok _ w' | Raise _ w' => tracks (conn w') = tracks (conn w)
  end.
Proof. by destruct 1. Qed.

Lemma query_result_counts mbid w r w' :
  query_result mbid w (Ok r w') →
  (failed_queries (trace w) ≤ failed_queries (trace w'))%nat
  ∧ ∀ path, track_updates path (trace w') = track_updates path (trace w).
Proof.
  inversion 1 as [|c Hc Hp|t new g y a json Hp Ht Hcols Hnew Hjson
                  |new d' Hp Hnew]; subst.
  - split; [lia | done].
  - pose proof (failed_queries_remote new Hnew) as Hf.
    split; [|intros path; pose proof (track_updates_remote path new Hnew)];
      unfold failed_queries, track_updates in *; cbn [trace];
      rewrite !count_events_cons, count_events_app; cbn; lia.
  - pose proof (failed_queries_remote new Hnew) as Hf.
    split; [|intros path; pose proof (track_updates_remote path new Hnew)];
      unfold failed_queries, track_updates in *; cbn [trace];
      rewrite !count_events_cons, count_events_app; cbn; lia.
Qed.

Lemma cache_entry_inv d mbid c :
  cache_entry d mbid = Some c →
  ∃ t, mbid_cache d = Some t
       ∧ missing_column cache_select_columns (cache_columns t) = None
       ∧ cache_rows t !! mbid = Some c.
Proof.
  unfold cache_entry. destruct (mbid_cache d) as [t|]; [|done]. cbn -[missing_column].
  destruct (missing_column _ _) eqn:Hcols; [done|]. eauto.
Qed.

Lemma query_musicbrainz_hit E mbid w c :
  cache_entry (conn w) mbid = Some c →
  truthy (c_recording_json c) = true →
  query_musicbrainz E mbid w = Ok (c_genre c, c_year c, c_album_type c) w.
Proof.
  intros (t & Ht & Hcols & Hc)%cache_entry_inv Hp.
  unfold query_musicbrainz. unfold mbind, M_bind, bind.
  by rewrite cache_select_spec, Ht, Hcols, Hc, Hp.
Qed.

(** After a lookup that did not fail, the cache entry of the identifier is
    authoritative and holds the answer. *)
Lemma query_result_entry mbid w g y a w' :
  query_result mbid w (Ok (g, y, a) w') →
  failed_queries (trace w') = failed_queries (trace w) →
  ∃ c, cache_entry (conn w') mbid = Some c
       ∧ truthy (c_recording_json c) = true
       ∧ c_genre c = g ∧ c_year c = y ∧ c_album_type c = a.
Proof.
  inversion 1 as [|c Hc Hp|t new g' y' a' json Hp Ht Hcols Hnew Hjson
                  |new d' Hp Hnew]; subst; intros Hfailed.
  - exists c. by repeat split.
  - exists {| c_genre := g; c_year := y; c_album_type := a;
              c_recording_json := Some json |}.
    split; [|by repeat split].
    erewrite cache_entry_table by done.
    cbn -[missing_column]. by rewrite Hcols, lookup_insert_eq.
  - exfalso. pose proof (failed_queries_remote new Hnew) as Hf.
    unfold failed_queries in *. cbn [trace] in Hfailed.
    rewrite count_events_cons, count_events_app in Hfailed. cbn in Hfailed. lia.
Qed.

(** A lookup changes the cache only at an identifier whose entry was not
    authoritative. *)
Lemma query_result_other_entry mbid w r w' other c :
  query_result mbid w (Ok r w') →
  cache_entry (conn w) other = Some c →
  truthy (c_recording_json c) = true →
  cache_entry (conn w') other = Some c.
Proof.
  inversion 1 as [|c' Hc' Hp'|t new g y a json Hp Ht Hcols Hnew Hjson
                  |new d' Hp Hnew]; subst; intros Hc Hpc; [done| |done].
  assert (other ≠ mbid) as Hne.
  { intros ->. unfold has_payload in Hp. rewrite Hc in Hp. congruence. }
  rewrite (cache_entry_table _ t), Hcols in Hc by done.
  cbn [conn]. erewrite cache_entry_table by done.
  cbn -[missing_column]. by rewrite Hcols, lookup_insert_ne.
Qed.

(** ** Settled files *)

Lemma settled_tracks d d' path :
  tracks d' = tracks d → mbid_cache d' = mbid_cache d →
  settled d path → settled d' path.
Proof.
  intros Ht Hc (r & Hr & Hneed). exists r.
  unfold stored_track, cache_entry in *. by rewrite Ht, Hc.
Qed.

(** Processing a settled file changes nothing and calls nothing: it only
    prints a status line. *)
Lemma settled_noop E path w :
  settled (conn w) path →
  ∃ flag, process_file E path w = Ok tt (after [PrintStatus path flag] w).
Proof.
  intros (r & Hr & Hneed). unfold stored_track in Hr.
  destruct (tracks (conn w)) as [rows|] eqn:Hrows; [|done]. cbn in Hr.
  destruct (needs_lookup r) eqn:Hn.
  - destruct (Hneed eq_refl) as (c & Hc & Hp & Hg & Hy & Ha).
    exists NoNewMetadata.
    rewrite (process_file_backfill E path w rows r) by done.
    rewrite (query_musicbrainz_hit E _ w c) by done.
    assert (any_update r (c_genre c) (c_year c) (c_album_type c) = false) as ->;
      [|done].
    unfold any_update.
    destruct (truthy (genre r)); [|rewrite Hg by done];
      destruct (truthy (year r)); try rewrite Hy by done;
      destruct (truthy (album_type r)); try rewrite Ha by done;
      by rewrite ?andb_false_r.
  - exists ExistingComplete. by eapply process_file_complete.
Qed.

(** ** Inversion of a successful [process_file] *)

Lemma process_file_ok E path w w' :
  process_file E path w = Ok tt w' →
  ∃ rows, tracks (conn w) = Some rows ∧
    match find_track rows path with
    | Some r =>
        if needs_lookup r
        then ∃ g y a wq,
            query_result (default EmptyString (track_mbid r)) w (Ok (g, y, a) wq) ∧
            if any_update r g y a
            then w' = written
                        (update_track rows path (genre (backfill r g y a))
                           (year (backfill r g y a))
                           (album_type (backfill r g y a)))
                        (UpdateTrack path) path
                        (MetadataUpdated
                           (truthy g && negb (truthy (genre r)))
                           (truthy y && negb (truthy (year r)))
                           (truthy a && negb (truthy (album_type r)))) wq
            else w' = after [PrintStatus path NoNewMetadata] wq
        else w' = after [PrintStatus path ExistingComplete] w
    | None =>
        ∃ mbid artist rg wt g y a wq,
          (wt = w ∨ wt = after [PrintFailedTags path] w) ∧
          (if truthy mbid
           then query_result (default EmptyString mbid) wt (Ok (g, y, a) wq)
           else (g, y, a) = (None, None, None) ∧ wq = wt) ∧
          w' = written (rows ++ [new_track path mbid artist rg g y a])
                 (InsertTrack path) path (NewAdded g y a) wq
    end.
Proof.
  intros Hrun.
  destruct (tracks (conn w)) as [rows|] eqn:Hrows.
  2: { unfold process_file in Hrun. unfold mbind at 1 in Hrun.
       unfold M_bind at 1 in Hrun. unfold bind at 1 in Hrun.
       by rewrite select_track_spec, Hrows in Hrun. }
  exists rows. split; [done|].
  destruct (find_track rows path) as [r|] eqn:Hr.
  - destruct (needs_lookup r) eqn:Hneed.
    + rewrite (process_file_backfill E path w rows r) in Hrun by done.
      pose proof (query_musicbrainz_result E (default EmptyString (track_mbid r)) w) as Hq.
      destruct (query_musicbrainz E (default EmptyString (track_mbid r)) w)
        as [[[g y] a] wq|e wq]; [|done].
      exists g, y, a, wq. split; [done|].
      apply query_result_tracks in Hq. rewrite Hq, Hrows in Hrun.
      destruct (any_update r g y a); by injection Hrun as <-.
    + rewrite (process_file_complete E path w rows r) in Hrun by done.
      by injection Hrun as <-.
  - rewrite (process_file_new E path w rows) in Hrun by done.
    rewrite get_mbids_spec in Hrun.
    assert (∃ mbid artist rg wt,
               (wt = w ∨ wt = after [PrintFailedTags path] w) ∧
               match read_mbids E path with
               | Good ids => Ok ids w
               | Bad _ => Ok (None, None, None) (after [PrintFailedTags path] w)
               end = Ok (mbid, artist, rg) wt)
      as (mbid & artist & rg & wt & Hwt & Hids).
    { destruct (read_mbids E path) as [[[mbid artist] rg]|e]; eauto 10. }
    rewrite Hids in Hrun.
    assert (tracks (conn wt) = Some rows) as Hrows_t.
    { by destruct Hwt as [->| ->]. }
    exists mbid, artist, rg, wt.
    destruct (truthy mbid).
    + pose proof (query_musicbrainz_result E (default EmptyString mbid) wt) as Hq.
      destruct (query_musicbrainz E (default EmptyString mbid) wt)
        as [[[g y] a] wq|e wq]; [|done].
      exists g, y, a, wq. split; [done|]. split; [done|].
      apply query_result_tracks in Hq. rewrite Hq, Hrows_t, Hr in Hrun.
      by injection Hrun as <-.
    + exists None, None, None, wt. split; [done|]. split; [done|].
      rewrite Hrows_t, Hr in Hrun. by injection Hrun as <-.
Qed.

(** ** Processing a file settles it, and settled files stay settled *)

Lemma cache_entry_ext d d' mbid :
  mbid_cache d' = mbid_cache d → cache_entry d' mbid = cache_entry d mbid.
Proof. unfold cache_entry. by intros ->. Qed.

Lemma failed_queries_cons e t :
  failed_queries (e :: t)
  = ((if is_query_failed e then 1 else 0) + failed_queries t)%nat.
Proof. apply count_events_cons. Qed.

Lemma track_updates_cons path e t :
  track_updates path (e :: t)
  = ((if is_track_update path e then 1 else 0) + track_updates path t)%nat.
Proof. apply count_events_cons. Qed.

Lemma settled_query mbid w r wq path :
  query_result mbid w (Ok r wq) →
  settled (conn w) path → settled (conn wq) path.
Proof.
  intros Hq (x & Hx & Hneed). exists x. split.
  - unfold stored_track in *. by rewrite (query_result_tracks _ _ _ Hq).
  - intros Hn. destruct (Hneed Hn) as (c & Hc & Hp & Hrest).
    exists c. split; [|done]. by eapply query_result_other_entry.
Qed.

Lemma settled_written rows rows' stmt q flag wq path :
  tracks (conn wq) = Some rows →
  find_track rows' path = find_track rows path →
  settled (conn wq) path →
  settled (conn (written rows' stmt q flag wq)) path.
Proof.
  intros Hrows Hfind (x & Hx & Hneed). exists x. split.
  - unfold stored_track in *. rewrite Hrows in Hx. cbn in *. congruence.
  - intros Hn. destruct (Hneed Hn) as (c & Hc & Hrest).
    exists c. split; [|done]. by rewrite <- Hc.
Qed.

(** Lemma C: processing any file keeps every settled file settled. *)
Lemma settled_preserved E q w w' path :
  process_file E q w = Ok tt w' →
  settled (conn w) path → settled (conn w') path.
Proof.
  intros Hrun Hs.
  destruct (decide (q = path)) as [->|Hne].
  { destruct (settled_noop E path w Hs) as [flag Hnoop].
    rewrite Hnoop in Hrun. by injection Hrun as <-. }
  destruct (process_file_ok E q w w' Hrun) as (rows & Hrows & Hcases).
  destruct (find_track rows q) as [r|] eqn:Hr.
  - destruct (needs_lookup r); [|by subst w'].
    destruct Hcases as (g & y & a & wq & Hq & Hw').
    pose proof (settled_query _ _ _ _ _ Hq Hs) as Hsq.
    destruct (any_update r g y a); subst w'; [|done].
    eapply settled_written; [|by apply find_track_update_other|done].
    by rewrite (query_result_tracks _ _ _ Hq).
  - destruct Hcases as (mbid & artist & rg & wt & g & y & a & wq & Hwt & Hq & ->).
    assert (settled (conn wt) path ∧ tracks (conn wt) = Some rows) as [Hst Hrt].
    { by destruct Hwt as [->| ->]. }
    assert (settled (conn wq) path ∧ tracks (conn wq) = Some rows) as [Hsq Hrq].
    { destruct (truthy mbid).
      - split; [by eapply settled_query|].
        by rewrite (query_result_tracks _ _ _ Hq).
      - by destruct Hq as [_ ->]. }
    eapply settled_written; [done| |done].
    rewrite find_track_append.
    destruct Hs as (x & Hx & _). unfold stored_track in Hx.
    rewrite Hrows in Hx. cbn in Hx. by rewrite Hx.
Qed.

(** Reduces the trace of a world built by [after] or [written]. *)
Ltac simpl_trace :=
  cbn [trace after written app] in *;
  rewrite ?failed_queries_cons, ?track_updates_cons in *;
  cbn [is_query_failed is_track_update] in *.

(** The failed-lookup count never decreases. *)
Lemma process_file_failed_mono E path w w' :
  process_file E path w = Ok tt w' →
  (failed_queries (trace w) ≤ failed_queries (trace w'))%nat.
Proof.
  intros Hrun.
  destruct (process_file_ok E path w w' Hrun) as (rows & Hrows & Hcases).
  destruct (find_track rows path) as [r|].
  - destruct (needs_lookup r); [|subst w'; simpl_trace; lia].
    destruct Hcases as (g & y & a & wq & Hq & Hw').
    apply query_result_counts in Hq as [Hq _].
    destruct (any_update r g y a); subst w'; simpl_trace; lia.
  - destruct Hcases as (mbid & artist & rg & wt & g & y & a & wq & Hwt & Hq & ->).
    assert (failed_queries (trace w) ≤ failed_queries (trace wt))%nat.
    { destruct Hwt as [->| ->]; simpl_trace; lia. }
    destruct (truthy mbid).
    + apply query_result_counts in Hq as [Hq _]. simpl_trace. lia.
    + destruct Hq as [_ ->]. simpl_trace. lia.
Qed.

Lemma backfill_missing {A} `{Truthy A} (new old : option A) :
  truthy (if truthy new && negb (truthy old) then new else old) = false →
  truthy new = false.
Proof.
  destruct (truthy new) eqn:Hn, (truthy old) eqn:Ho; cbn; congruence.
Qed.

(** Lemma B: a file processed without a failed lookup is settled. *)
Lemma process_file_settles E path w w' :
  process_file E path w = Ok tt w' →
  failed_queries (trace w') = failed_queries (trace w) →
  settled (conn w') path.
Proof.
  intros Hrun Hfailed.
  destruct (process_file_ok E path w w' Hrun) as (rows & Hrows & Hcases).
  destruct (find_track rows path) as [r|] eqn:Hr.
  - destruct (needs_lookup r) eqn:Hneed.
    2: { subst w'. exists r. split; [|congruence].
         unfold stored_track. cbn. by rewrite Hrows. }
    destruct Hcases as (g & y & a & wq & Hq & Hw').
    assert (failed_queries (trace wq) = failed_queries (trace w)) as Hfq.
    { pose proof (query_result_counts _ _ _ _ Hq) as [Hle _].
      destruct (any_update r g y a); subst w'; simpl_trace; lia. }
    destruct (query_result_entry _ _ _ _ _ _ Hq Hfq)
      as (c & Hc & Hp & <- & <- & <-).
    pose proof (query_result_tracks _ _ _ Hq) as Htr. cbn in Htr.
    destruct (any_update r _ _ _) eqn:Hany; subst w'.
    + exists (backfill r (c_genre c) (c_year c) (c_album_type c)). split.
      { unfold stored_track. cbn. by rewrite find_track_update_same, Hr. }
      intros _. exists c. split; [done|]. split; [done|].
      unfold backfill. cbn [genre year album_type].
      repeat split; apply backfill_missing.
    + exists r. split.
      { unfold stored_track. cbn. by rewrite Htr, Hrows. }
      intros _. exists c. split; [done|]. split; [done|].
      unfold any_update in Hany.
      apply orb_false_elim in Hany as [Hany Ha].
      apply orb_false_elim in Hany as [Hg Hy].
      repeat split; intros Hmiss; rewrite Hmiss in *;
        by rewrite andb_true_r in *.
  - destruct Hcases as (mbid & artist & rg & wt & g & y & a & wq & Hwt & Hq & ->).
    exists (new_track path mbid artist rg g y a). split.
    { unfold stored_track. cbn. rewrite find_track_append.
      assert (find_track rows path = None) as -> by done.
      by rewrite String.eqb_refl. }
    unfold needs_lookup. cbn. intros [Hm _]%andb_prop. rewrite Hm in Hq.
    assert (failed_queries (trace wq) = failed_queries (trace wt)) as Hfq.
    { pose proof (query_result_counts _ _ _ _ Hq) as [Hle _].
      destruct Hwt as [->| ->]; simpl_trace; lia. }
    destruct (query_result_entry _ _ _ _ _ _ Hq Hfq)
      as (c & Hc & Hp & <- & <- & <-).
    exists c. by repeat split.
Qed.

(** ** Whole runs *)

Lemma process_all_cons E p ps w w2 :
  process_all E (p :: ps) w = Ok tt w2 →
  ∃ w1, process_file E p w = Ok tt w1 ∧ process_all E ps w1 = Ok tt w2.
Proof.
  cbn. unfold mbind, M_bind, bind.
  destruct (process_file E p w) as [[] w1|e w1]; [|done]. eauto.
Qed.

Lemma process_all_failed_mono E ps w w' :
  process_all E ps w = Ok tt w' →
  (failed_queries (trace w) ≤ failed_queries (trace w'))%nat.
Proof.
  revert w. induction ps as [|p ps IH]; intros w Hrun.
  - cbn in Hrun. injection Hrun as <-. lia.
  - apply process_all_cons in Hrun as (w1 & H1 & H2).
    apply process_file_failed_mono in H1. apply IH in H2. lia.
Qed.

(** After a run without a failed lookup every processed file is settled. *)
Lemma process_all_settles E ps w w' :
  process_all E ps w = Ok tt w' →
  failed_queries (trace w') = failed_queries (trace w) →
  (∀ p, settled (conn w) p → settled (conn w') p)
  ∧ (∀ p, p ∈ ps → settled (conn w') p).
Proof.
  revert w. induction ps as [|p ps IH]; intros w Hrun Hfailed.
  - cbn in Hrun. injection Hrun as <-. split; [done|]. by intros p ?%elem_of_nil.
  - apply process_all_cons in Hrun as (w1 & H1 & H2).
    pose proof (process_file_failed_mono _ _ _ _ H1).
    pose proof (process_all_failed_mono _ _ _ _ H2).
    destruct (IH w1 H2) as [Hkeep Hall]; [lia|].
    split.
    + intros q Hq. apply Hkeep. by eapply settled_preserved.
    + intros q [->|Hq]%elem_of_cons; [|by apply Hall].
      apply Hkeep. eapply process_file_settles; [done|lia].
Qed.

(** A run over settled files only prints status lines. *)
Lemma process_all_noop E ps w :
  (∀ p, p ∈ ps → settled (conn w) p) →
  ∃ new, process_all E ps w = Ok tt (after new w)
         ∧ remote_calls new = 0%nat.
Proof.
  revert w. induction ps as [|p ps IH]; intros w Hs.
  - exists []. by rewrite after_nil.
  - destruct (settled_noop E p w) as [flag Hp]; [apply Hs; by left|].
    destruct (IH (after [PrintStatus p flag] w)) as (new & Hrun & Hcalls).
    { intros q Hq. apply Hs. by right. }
    exists (new ++ [PrintStatus p flag])%list. split.
    + cbn. unfold mbind, M_bind, bind. by rewrite Hp, Hrun, after_after.
    + unfold remote_calls in *. rewrite filter_app, length_app, Hcalls.
      reflexivity.
Qed.

Lemma remote_calls_after new w :
  remote_calls (trace (after new w))
  = (remote_calls new + remote_calls (trace w))%nat.
Proof. unfold remote_calls. cbn. by rewrite filter_app, length_app. Qed.

(** C5, as amended. After a completed enrichment run in which no lookup
    failed (no call of [query_musicbrainz] went through its [except]
    branch), running enrichment again over the same directory completes,
    leaves the track store, the recording cache and the diagnostics
    counters as they were, and makes no remote call. *)
Theorem rerun_after_clean_run_changes_nothing
    (E : env) (music_dir : string) (w0 w1 : world) :
  walk_and_process E music_dir w0 = Ok tt w1 →
  failed_queries (trace w1) = failed_queries (trace w0) →
  ∃ w2, walk_and_process E music_dir w1 = Ok tt w2
        ∧ conn w2 = conn w1 ∧ diag w2 = diag w1
        ∧ remote_calls (trace w2) = remote_calls (trace w1).
Proof.
  unfold walk_and_process. intros Hrun Hfailed.
  destruct (process_all_settles _ _ _ _ Hrun Hfailed) as [_ Hall].
  destruct (process_all_noop E _ w1 Hall) as (new & Hagain & Hcalls).
  exists (after new w1). split; [done|]. split; [done|]. split; [done|].
  by rewrite remote_calls_after, Hcalls.
Qed.

Lemma rerun_after_clean_run_changes_nothing_witness :
  ∃ w2, walk_and_process Sample.online "/music" Sample.online_first = Ok tt w2
        ∧ conn w2 = conn Sample.online_first
        ∧ diag w2 = diag Sample.online_first
        ∧ remote_calls (trace w2) = remote_calls (trace Sample.online_first).
Proof.
  apply (rerun_after_clean_run_changes_nothing Sample.online "/music"
           (Sample.start Sample.clean_db) Sample.online_first);
    vm_compute; reflexivity.
Defined.

(** C5 as stated fails.  With the remote service down, the first run
    completes (each lookup error is caught and the files are stored with
    null fields) and the second run looks both files up again: two more
    remote calls.  With a service that fails once and then answers, the
    second run makes no remote call and yet changes the track store: the
    record of the first file is backfilled from the cache entry that the
    second file's lookup created. *)
Lemma rerun_repeats_failed_lookups :
  (walk_and_process Sample.offline "/music" (Sample.start Sample.clean_db)
   = Ok tt Sample.offline_first
   ∧ walk_and_process Sample.offline "/music" Sample.offline_first
     = Ok tt Sample.offline_second
   ∧ remote_calls (trace Sample.offline_first) = 2%nat
   ∧ remote_calls (trace Sample.offline_second) = 4%nat)
  ∧ (walk_and_process Sample.flaky "/music" (Sample.start Sample.clean_db)
     = Ok tt Sample.flaky_first
     ∧ walk_and_process Sample.flaky "/music" Sample.flaky_first
       = Ok tt Sample.flaky_second
     ∧ remote_calls (trace Sample.flaky_second)
       = remote_calls (trace Sample.flaky_first)
     ∧ stored_track (conn Sample.flaky_first) "/music/one.mp3"
       = Some (Sample.track "/music/one.mp3" (Some "b1a9c0e9")
                 None None None None)
     ∧ stored_track (conn Sample.flaky_second) "/music/one.mp3"
       = Some (Sample.track "/music/one.mp3" (Some "b1a9c0e9")
                 (Some "rock") (Some 1975) (Some "Album") None)).
Proof. repeat split; vm_compute; reflexivity. Qed.

(** ** Backfill of an existing record *)

Lemma truthy_differs {A} `{Truthy A} (new old : option A) :
  truthy new = true → truthy old = false → new ≠ old.
Proof. intros Hn Ho ->. congruence. Qed.

Lemma backfill_field {A} `{Truthy A} (new old : option A) :
  let field := if truthy new && negb (truthy old) then new else old in
  field = old ∨ (truthy old = false ∧ truthy field = true).
Proof.
  cbn. destruct (truthy new) eqn:Hn, (truthy old) eqn:Ho; cbn; auto.
Qed.

(** C3, as amended. For an existing track record, [process_file] never
    replaces a populated field, where populated means truthy (not null,
    not the empty string, not 0): each of genre, year and album_type keeps
    its value or goes from a missing value (null, empty or 0) to a
    populated one. The [UPDATE] is committed only if at least one of the
    three fields changed, and without it table [tracks] is left as it
    was. *)
Theorem backfill_never_replaces_populated_field
    (E : env) (path : string) (w w' : world) (r : track_row) :
  stored_track (conn w) path = Some r →
  process_file E path w = Ok tt w' →
  ∃ r', stored_track (conn w') path = Some r'
    ∧ (genre r' = genre r
       ∨ (truthy (genre r) = false ∧ truthy (genre r') = true))
    ∧ (year r' = year r
       ∨ (truthy (year r) = false ∧ truthy (year r') = true))
    ∧ (album_type r' = album_type r
       ∨ (truthy (album_type r) = false ∧ truthy (album_type r') = true))
    ∧ (track_updates path (trace w') ≠ track_updates path (trace w) →
       genre r' ≠ genre r ∨ year r' ≠ year r ∨ album_type r' ≠ album_type r)
    ∧ (track_updates path (trace w') = track_updates path (trace w) →
       tracks (conn w') = tracks (conn w)).
Proof.
  intros Hstored Hrun.
  destruct (process_file_ok E path w w' Hrun) as (rows & Hrows & Hcases).
  unfold stored_track in Hstored. rewrite Hrows in Hstored. cbn in Hstored.
  rewrite Hstored in Hcases.
  assert (∀ wx, tracks (conn wx) = Some rows →
            stored_track (conn wx) path = Some r) as Hsame.
  { intros wx Hx. unfold stored_track. by rewrite Hx. }
  destruct (needs_lookup r).
  2: { subst w'. exists r. split; [by apply Hsame|].
       simpl_trace. by repeat split; auto. }
  destruct Hcases as (g & y & a & wq & Hq & Hw').
  pose proof (query_result_tracks _ _ _ Hq) as Htr. cbn in Htr.
  pose proof (query_result_counts _ _ _ _ Hq) as [_ Hupd].
  specialize (Hupd path).
  destruct (any_update r g y a) eqn:Hany; subst w'.
  - exists (backfill r g y a). split.
    { unfold stored_track. cbn. by rewrite find_track_update_same, Hstored. }
    split; [apply backfill_field|]. split; [apply backfill_field|].
    split; [apply backfill_field|]. split.
    + intros _. unfold any_update in Hany. unfold backfill.
      cbn [genre year album_type].
      apply orb_prop in Hany as [[Hf|Hf]%orb_prop|Hf]; rewrite Hf;
        apply andb_prop in Hf as [Hn Ho%negb_true_iff];
        eauto using truthy_differs.
    + simpl_trace. rewrite String.eqb_refl. lia.
  - exists r. split; [apply Hsame; cbn; by rewrite Htr|].
    simpl_trace. repeat split; auto; intros; first [lia | cbn; by rewrite Htr].
Qed.

Lemma backfill_never_replaces_populated_field_witness :
  ∃ r', stored_track (conn Sample.flaky_backfilled) "/music/one.mp3" = Some r'
    ∧ (genre r' = None ∨ (truthy (@None string) = false ∧ truthy (genre r') = true))
    ∧ (year r' = None ∨ (truthy (@None Z) = false ∧ truthy (year r') = true))
    ∧ (album_type r' = None
       ∨ (truthy (@None string) = false ∧ truthy (album_type r') = true))
    ∧ (track_updates "/music/one.mp3" (trace Sample.flaky_backfilled)
       ≠ track_updates "/music/one.mp3" (trace Sample.flaky_first) →
       genre r' ≠ None ∨ year r' ≠ None ∨ album_type r' ≠ None)
    ∧ (track_updates "/music/one.mp3" (trace Sample.flaky_backfilled)
       = track_updates "/music/one.mp3" (trace Sample.flaky_first) →
       tracks (conn Sample.flaky_backfilled) = tracks (conn Sample.flaky_first)).
Proof.
  apply (backfill_never_replaces_populated_field Sample.flaky "/music/one.mp3"
           Sample.flaky_first Sample.flaky_backfilled
           (Sample.track "/music/one.mp3" (Some "b1a9c0e9")
              None None None None));
    vm_compute; reflexivity.
Defined.

(** C3 as stated fails: a year stored as 0 is not null, yet [not year]
    holds for it, so the backfill replaces it by the cached year. *)
Lemma backfill_replaces_zero_year :
  process_file Sample.online "/music/one.mp3"
    (Sample.start Sample.zero_year_db) = Ok tt Sample.zero_year_after
  ∧ (year <$> stored_track Sample.zero_year_db "/music/one.mp3")
    = Some (Some 0)
  ∧ (year <$> stored_track (conn Sample.zero_year_after) "/music/one.mp3")
    = Some (Some 1975).
Proof. repeat split; vm_compute; reflexivity. Qed.

(** ** The embedding *)

(** C1 (the code does not do what the claim says). [process_file] never
    builds the descriptor and never stores an embedding:
    [generate_metadata_string] and [generate_embedding] are not called, the
    [INSERT] of a new record does not name column [embedding] and the
    [UPDATE] does not set it. After a file is processed, the embedding of
    its record is what it was before, and is null for a new file. *)
Theorem process_file_stores_no_embedding
    (E : env) (path : string) (w w' : world) :
  process_file E path w = Ok tt w' →
  stored_embedding (conn w') path = stored_embedding (conn w) path
  ∧ (stored_track (conn w) path = None →
     stored_embedding (conn w') path = None).
Proof.
  intros Hrun.
  assert (stored_embedding (conn w') path = stored_embedding (conn w) path)
    as Heq.
  { destruct (process_file_ok E path w w' Hrun) as (rows & Hrows & Hcases).
    unfold stored_embedding, stored_track. rewrite Hrows. cbn.
    destruct (find_track rows path) as [r|] eqn:Hr.
    - destruct (needs_lookup r); [|subst w'; cbn; by rewrite Hrows; cbn; rewrite Hr].
      destruct Hcases as (g & y & a & wq & Hq & Hw').
      pose proof (query_result_tracks _ _ _ Hq) as Htr. cbn in Htr.
      destruct (any_update r g y a); subst w'; cbn.
      + by rewrite find_track_update_same, Hr.
      + rewrite Htr, Hrows. cbn. by rewrite Hr.
    - destruct Hcases
        as (mbid & artist & rg & wt & g & y & a & wq & Hwt & Hq & ->).
      cbn. rewrite find_track_append, Hr. by rewrite String.eqb_refl. }
  split; [done|]. intros Hnone. rewrite Heq.
  unfold stored_embedding. by rewrite Hnone.
Qed.

Lemma process_file_stores_no_embedding_witness :
  (stored_embedding (conn Sample.one_file_after) "/music/one.mp3"
   = stored_embedding Sample.clean_db "/music/one.mp3"
   ∧ (stored_track Sample.clean_db "/music/one.mp3" = None →
      stored_embedding (conn Sample.one_file_after) "/music/one.mp3" = None))
  ∧ stored_track (conn Sample.one_file_after) "/music/one.mp3"
    = Some (Sample.track "/music/one.mp3" (Some "b1a9c0e9")
              (Some "rock") (Some 1975) (Some "Album") None)
  ∧ generate_metadata_string None None (Some "rock") (Some 1975) (Some "Album")
    = "genre: rock; year: 1975; album_type: Album".
Proof.
  split; [|split; vm_compute; reflexivity].
  apply (process_file_stores_no_embedding Sample.online "/music/one.mp3"
           (Sample.start Sample.clean_db) Sample.one_file_after).
  vm_compute; reflexivity.
Defined.

(** ** Cache hits *)

(** C2. When the cache entry of a recording identifier holds a raw
    payload, [query_musicbrainz] returns the entry's cached
    [(genre, year, album_type)], whatever they are, and leaves the world as
    it was: no remote call is made, nothing is written. *)
Theorem cache_hit_is_authoritative
    (E : env) (mbid : string) (w : world) (t : cache_table) (r : cache_row) :
  mbid_cache (conn w) = Some t →
  missing_column cache_select_columns (cache_columns t) = None →
  cache_rows t !! mbid = Some r →
  truthy (c_recording_json r) = true →
  query_musicbrainz E mbid w = Ok (c_genre r, c_year r, c_album_type r) w.
Proof.
  intros Ht Hcols Hr Hp.
  apply query_musicbrainz_hit; [|done].
  by rewrite (cache_entry_table _ t), Hcols.
Qed.

Lemma cache_hit_is_authoritative_witness :
  query_musicbrainz Sample.online "b1a9c0e9"
    (Sample.start {| tracks := Some [];
                     mbid_cache :=
                       Some (Sample.full_cache {[ "b1a9c0e9" := Sample.unknown_entry ]}) |})
  = Ok (None, None, None)
      (Sample.start {| tracks := Some [];
                       mbid_cache :=
                         Some (Sample.full_cache {[ "b1a9c0e9" := Sample.unknown_entry ]}) |}).
Proof.
  apply (cache_hit_is_authoritative Sample.online "b1a9c0e9" _
           (Sample.full_cache {[ "b1a9c0e9" := Sample.unknown_entry ]}) Sample.unknown_entry);
    reflexivity.
Defined.

End BuildDbSpec.

(** * Properties of the selection engine *)

Module NextTrackSpec.
Import Py Store NextTrack.

(** ** The winner is one of the candidates *)

Lemma examine_path iso emb st c st' s' :
  examine iso emb st c = Good st' → st' = Some s' →
  best_path s' = cand_path c ∨ st = Some s'.
Proof.
  unfold examine. destruct (cosine_distance emb (cand_emb c)) as [dist|e];
    [cbn|done].
  destruct (dist <? DISTANCE_THRESHOLD)%float.
  { intros [= <-] ->. by right. }
  destruct st as [s|]; [|intros [= <-] [= <-]; by left].
  destruct (dist <? best_dist s)%float; [intros [= <-] [= <-]; by left|].
  destruct (PrimFloat.abs (dist - best_dist s) <? TIE_EPSILON)%float;
    [|intros [= <-] ->; by right].
  destruct (best_last_played s) as [b|],
    (parse_last_played iso (cand_last_played c)) as [l|];
    try destruct (l <? b)%Z; intros [= <-] [= <-]; auto.
Qed.

Lemma examine_all_path iso emb cands st st' s' :
  examine_all iso emb st cands = Good st' → st' = Some s' →
  (∃ c, c ∈ cands ∧ best_path s' = cand_path c) ∨ st = Some s'.
Proof.
  revert st. induction cands as [|c cands IH]; intros st; cbn.
  { intros [= <-] ->. by right. }
  destruct (examine iso emb st c) as [st1|e] eqn:Hex; [cbn|done].
  intros Hall Hs'. destruct (IH st1 Hall Hs') as [(c' & Hc' & Hp)|Hst1].
  - left. exists c'. split; [by right|done].
  - destruct (examine_path iso emb st c st1 s' Hex Hst1) as [Hp|Hst];
      [|by right].
    left. exists c. split; [by left|done].
Qed.

Lemma select_best_match_candidate iso emb cands f score lp :
  select_best_match iso emb cands = Good (Some (f, score, lp)) →
  ∃ c, c ∈ cands ∧ cand_path c = f.
Proof.
  unfold select_best_match.
  destruct (examine_all iso emb None cands) as [[s|]|e] eqn:Hall; [|done..].
  cbn. intros [= Hbest].
  destruct (examine_all_path iso emb cands None (Some s) s Hall eq_refl)
    as [(c & Hc & Hp)|?]; [|done].
  exists c. split; [done|]. unfold best_path in Hp. by rewrite Hbest in Hp.
Qed.

(** ** What [load_candidates] lets through *)

Lemma scan_candidates_spec library cur mbid title rows c :
  c ∈ scan_candidates library cur mbid title rows →
  ∃ r, r ∈ rows ∧ cand_path c = file_path r ∧ cand_mbid c = track_mbid r
       ∧ embedding r = Some (cand_emb c)
       ∧ file_path r ≠ cur
       ∧ (truthy mbid = true → track_mbid r ≠ mbid)
       ∧ str_in title (normalize_string (basename (file_path r))) = false.
Proof.
  induction rows as [|r rows IH]; cbn; [by intros ?%elem_of_nil|].
  assert (c ∈ scan_candidates library cur mbid title rows →
          ∃ r0, r0 ∈ r :: rows ∧ cand_path c = file_path r0
                ∧ cand_mbid c = track_mbid r0
                ∧ embedding r0 = Some (cand_emb c)
                ∧ file_path r0 ≠ cur
                ∧ (truthy mbid = true → track_mbid r0 ≠ mbid)
                ∧ str_in title (normalize_string (basename (file_path r0)))
                  = false) as Hrest.
  { intros (r0 & Hr0 & H)%IH. exists r0. split; [by right|done]. }
  destruct (embedding r) as [emb|] eqn:Hemb; [|done].
  destruct (String.eqb (file_path r) cur) eqn:Hcur; [done|].
  destruct (truthy mbid && bool_decide (track_mbid r = mbid)) eqn:Hmbid; [done|].
  destruct (str_in title (normalize_string (basename (file_path r)))) eqn:Hin;
    [done|].
  intros [->|Hc]%elem_of_cons; [|by apply Hrest].
  exists r. cbn. split; [by left|]. repeat split; try done.
  - by apply String.eqb_neq.
  - intros Ht Heq. rewrite Ht in Hmbid. cbn in Hmbid.
    by apply bool_decide_eq_false in Hmbid.
Qed.

(** ** What [main] does *)

Lemma main_selected iso prog cur dbp conn_tracks library now f score lp library' :
  main iso [prog; cur; dbp] conn_tracks library now
  = (Good (Selected f score lp), library') →
  ∃ rows ref emb,
    tracks conn_tracks = Some rows
    ∧ find_track rows cur = Some ref
    ∧ embedding ref = Some emb
    ∧ select_best_match iso emb
        (scan_candidates library cur (track_mbid ref)
           (normalize_string (strip_mp3 (basename cur))) rows)
      = Good (Some (f, score, lp))
    ∧ library' = update_play_info library f now.
Proof.
  unfold main, load_input_track, load_candidates.
  destruct (tracks conn_tracks) as [rows|]; [|done].
  destruct (find_track rows cur) as [[p m am rm g y a [emb|]]|] eqn:Href;
    [|done..].
  destruct (select_best_match iso emb _) as [[[[f' s'] lp']|]|e] eqn:Hsel;
    [|done..].
  intros [= -> -> -> <-]. eexists rows, _, emb. by repeat split.
Qed.

(** C6, as amended. [main] never returns the reference file itself, never
    returns a candidate whose recording identifier equals the reference's
    recording identifier when that identifier is non-null and non-empty,
    and never returns a candidate whose normalized filename contains the
    reference's normalized title as a substring. *)
Theorem selection_excludes_duplicates
    (iso : string → option Z) (prog cur dbp : string) (conn_tracks : db)
    (library library' : gmap string play_row) (now f : string)
    (score : float) (lp : option Z) :
  main iso [prog; cur; dbp] conn_tracks library now
  = (Good (Selected f score lp), library') →
  ∃ rows ref r,
    tracks conn_tracks = Some rows
    ∧ find_track rows cur = Some ref
    ∧ r ∈ rows ∧ file_path r = f
    ∧ f ≠ cur
    ∧ (truthy (track_mbid ref) = true → track_mbid r ≠ track_mbid ref)
    ∧ str_in (normalize_string (strip_mp3 (basename cur)))
        (normalize_string (basename f)) = false.
Proof.
  intros (rows & ref & emb & Hrows & Href & Hemb & Hsel & _)%main_selected.
  apply select_best_match_candidate in Hsel as (c & Hc & <-).
  apply scan_candidates_spec in Hc
    as (r & Hr & Hpath & _ & _ & Hcur & Hmbid & Htitle).
  exists rows, ref, r. rewrite Hpath. by repeat split.
Qed.

Lemma selection_excludes_duplicates_witness :
  ∃ rows ref r,
    tracks Sample.selection_db = Some rows
    ∧ find_track rows "/music/Queen - Bohemian Rhapsody.mp3" = Some ref
    ∧ r ∈ rows ∧ file_path r = "/music/Under Pressure.mp3"
    ∧ "/music/Under Pressure.mp3" ≠ "/music/Queen - Bohemian Rhapsody.mp3"
    ∧ (truthy (track_mbid ref) = true → track_mbid r ≠ track_mbid ref)
    ∧ str_in
        (normalize_string
           (strip_mp3 (basename "/music/Queen - Bohemian Rhapsody.mp3")))
        (normalize_string (basename "/music/Under Pressure.mp3")) = false.
Proof.
  apply (selection_excludes_duplicates Sample.iso_seconds "nexttrack.py"
           "/music/Queen - Bohemian Rhapsody.mp3" "resolver.db"
           Sample.selection_db ∅ ∅ "2025-01-01 00:00:00"
           "/music/Under Pressure.mp3" 1%float None).
  vm_compute. reflexivity.
Defined.

(** C6 as stated fails: a recording identifier that is the empty string is
    not null, yet [current_mbid and ...] is false for it, so a candidate
    with the same (empty) identifier is returned. *)
Lemma selection_returns_same_empty_identifier :
  main Sample.iso_seconds ["nexttrack.py"; "/music/ref.mp3"; "resolver.db"]
    Sample.empty_id_db ∅ "2025-01-01 00:00:00"
  = (Good (Selected "/music/other.mp3" 1%float None), ∅)
  ∧ (track_mbid <$> stored_track Sample.empty_id_db "/music/ref.mp3")
    = Some (Some EmptyString)
  ∧ (track_mbid <$> stored_track Sample.empty_id_db "/music/other.mp3")
    = Some (Some EmptyString).
Proof. repeat split; vm_compute; reflexivity. Qed.

(** The example of the specification: the reference title keeps the
    artist name, so the remastered file, whose name lacks it, passes the
    title test. *)
Example remastered_file_passes_title_test :
  normalize_string (strip_mp3 (basename "Queen - Bohemian Rhapsody.mp3"))
  = "queenbohemianrhapsody"
  ∧ normalize_string (basename "01 - Bohemian Rhapsody (Remastered).mp3")
    = "01bohemianrhapsodyremasteredmp3"
  ∧ str_in "queenbohemianrhapsody" "01bohemianrhapsodyremasteredmp3" = false.
Proof. repeat split; vm_compute; reflexivity. Qed.

(** ** The play-history store *)

Lemma or_default_zero (o : option Z) : or_default o 0 = default 0 o.
Proof.
  destruct o as [n|]; [|done]. unfold or_default, truthy, truthy_Z. cbn.
  destruct (Z.eqb_spec n 0); by subst.
Qed.

Lemma examine_all_no_survivor iso emb cands st :
  (∀ c, c ∈ cands → survives emb c = false) →
  examine_all iso emb st cands = Good st.
Proof.
  revert st. induction cands as [|c cands IH]; intros st Hall; [done|].
  cbn. pose proof (Hall c ltac:(by left)) as Hc.
  unfold survives in Hc. unfold examine.
  destruct (cosine_distance emb (cand_emb c)) as [dist|]; [cbn|done].
  apply negb_false_iff in Hc. rewrite Hc. apply IH.
  intros c' Hc'. apply Hall. by right.
Qed.



(** ** A reference title without letters or digits *)

Lemma strip_non_alnum_no_alnum s :
  has_alnum s = false → normalize_string s = EmptyString.
Proof.
  unfold normalize_string. induction s as [|c s IH]; [done|]. cbn.
  intros [[[Hu Hl]%orb_false_elim Hd]%orb_false_elim Hs]%orb_false_elim.
  unfold lower_char. rewrite Hu, Hl, Hd. cbn. by apply IH.
Qed.

Lemma str_in_empty s : str_in EmptyString s = true.
Proof. by destruct s. Qed.

Lemma scan_candidates_empty_title library cur mbid rows :
  scan_candidates library cur mbid EmptyString rows = [].
Proof.
  induction rows as [|r rows IH]; [done|]. cbn. rewrite IH.
  destruct (embedding r); [|done].
  destruct (String.eqb (file_path r) cur); [done|].
  destruct (truthy mbid && bool_decide (track_mbid r = mbid)); [done|].
  by rewrite str_in_empty.
Qed.



(** ** Ties *)




End NextTrackSpec.

(** * Further properties of the enrichment pipeline *)

Module BuildDbExtra.
Import Py Store BuildDb.

(** ** [create_db] *)

(** X1. [create_db] never loses or alters what the database file holds
    and is idempotent: both tables exist afterwards, every track record
    and every cache entry the cache [SELECT] could read is still there,
    an existing cache table keeps its columns, and calling it again
    changes nothing. *)
Theorem create_db_keeps_what_is_stored (file : db) :
  create_db (create_db file) = create_db file
  ∧ is_Some (tracks (create_db file))
  ∧ is_Some (mbid_cache (create_db file))
  ∧ (∀ path, stored_track (create_db file) path = stored_track file path)
  ∧ (∀ mbid, cache_entry (create_db file) mbid = cache_entry file mbid)
  ∧ match mbid_cache file with
    | Some t => mbid_cache (create_db file) = Some t
    | None => True
    end.
Proof.
  destruct file as [[rows|] [t|]]; cbn; repeat split; by eauto.
Qed.

(** ** [get_mbids] and [embed_mbid_in_file] *)

Lemma scan_txxx_with_track frames t a0 r0 t' a r m :
  scan_txxx frames (t, a0, r0) = Good (t', a, r) →
  truthy m = true →
  scan_txxx frames (Some m, a0, r0) = Good (Some m, a, r).
Proof.
  intros Hscan Hm. revert t a0 r0 Hscan.
  induction frames as [|f frames IH]; intros t a0 r0; cbn [scan_txxx].
  { by intros [= _ -> ->]. }
  destruct (String.eqb (lower (txxx_desc f)) "musicbrainz track id") eqn:Htrack.
  - apply String.eqb_eq in Htrack. rewrite Htrack.
    cbn [String.eqb Ascii.eqb Bool.eqb andb]. change (truthy (Some m)) with (truthy m).
    rewrite Hm. cbn [negb andb].
    destruct (negb (truthy t)); cbn [andb].
    + destruct (text0 f) as [s|]; [cbn [res_bind]|done]. apply IH.
    + apply IH.
  - cbn [andb].
    destruct (String.eqb (lower (txxx_desc f)) "musicbrainz artist id").
    { destruct (text0 f) as [s|]; [cbn [res_bind]|done]. apply IH. }
    destruct (String.eqb (lower (txxx_desc f)) "musicbrainz release group id").
    { destruct (text0 f) as [s|]; [cbn [res_bind]|done]. apply IH. }
    apply IH.
Qed.

Lemma scan_txxx_keeps_track frames m a0 r0 t' a r :
  scan_txxx frames (Some m, a0, r0) = Good (t', a, r) →
  truthy m = true → t' = Some m.
Proof.
  intros Hscan Hm.
  rewrite (scan_txxx_with_track _ _ _ _ _ _ _ m Hscan Hm) in Hscan.
  congruence.
Qed.

(** X2. A MusicBrainz UFID frame takes precedence. When the first UFID
    frame owned by MusicBrainz holds a non-empty ASCII identifier,
    [get_mbids] returns that identifier as the recording identifier
    whatever the TXXX frames hold, or, when a TXXX identifier frame has an
    empty text list, prints the failure and returns no identifier at all;
    it never raises and changes nothing else. *)
Theorem ufid_identifier_takes_precedence
    (E : env) (path : string) (tags : id3_tags) (m : string) (w : world) :
  ID3 E path = Good tags →
  scan_ufid (id3_ufid tags) = Good (Some m) →
  truthy m = true →
  (∃ artist rg, get_mbids E path w = Ok (Some m, artist, rg) w)
  ∨ get_mbids E path w
    = Ok (None, None, None) (after [PrintFailedTags path] w).
Proof.
  intros Htags Hufid Hm. rewrite BuildDbSpec.get_mbids_spec.
  unfold read_mbids. rewrite Htags. cbn [res_bind]. rewrite Hufid. cbn [res_bind].
  destruct (scan_txxx (id3_txxx tags) (Some m, None, None))
    as [[[t a] r]|e] eqn:Hscan; [|by right].
  left. exists a, r. by rewrite (scan_txxx_keeps_track _ _ _ _ _ _ _ Hscan Hm).
Qed.

Lemma ufid_identifier_takes_precedence_witness :
  (∃ artist rg,
     get_mbids Sample.online "/music/one.mp3" (Sample.start Sample.clean_db)
     = Ok (Some "b1a9c0e9", artist, rg) (Sample.start Sample.clean_db))
  ∨ get_mbids Sample.online "/music/one.mp3" (Sample.start Sample.clean_db)
    = Ok (None, None, None)
        (after [PrintFailedTags "/music/one.mp3"] (Sample.start Sample.clean_db)).
Proof.
  apply (ufid_identifier_takes_precedence Sample.online "/music/one.mp3"
           (Sample.tagged "b1a9c0e9") "b1a9c0e9"
           (Sample.start Sample.clean_db)); reflexivity.
Defined.

(** X3. Embedding then reading is a round trip. When the tags of a file
    can be read, giving [(t0, artist, rg)], and [embed_mbid_in_file]
    stores a non-empty ASCII identifier in it (the save succeeding), the
    success line is printed, reading the file again gives that identifier
    with the same artist and release-group identifiers, and what is read
    from every other file is as before. *)
Theorem embedded_identifier_is_read_back
    (E : env) (save_ok : string → bool) (path mbid : string)
    (t0 artist rg : option string) :
  read_mbids E path = Good (t0, artist, rg) →
  encode_ascii mbid = Good mbid →
  truthy mbid = true →
  save_ok path = true →
  let after_embed := embed_mbid_in_file (ID3 E) save_ok path mbid in
  after_embed.2 = true
  ∧ read_mbids (with_files E after_embed.1) path = Good (Some mbid, artist, rg)
  ∧ ∀ other, other ≠ path →
      read_mbids (with_files E after_embed.1) other = read_mbids E other.
Proof.
  intros Hread Hascii Hm Hsave. unfold embed_mbid_in_file, read_mbids in *.
  destruct (ID3 E path) as [tags|] eqn:Htags; [|done]. cbn [res_bind] in Hread.
  rewrite Hascii, Hsave. cbn [fst snd with_files ID3].
  split; [done|]. split.
  - rewrite String.eqb_refl. cbn [res_bind with_ufid id3_ufid id3_txxx scan_ufid].
    rewrite String.eqb_refl. cbn [ufid_data].
    assert (decode_ascii mbid = Good mbid) as ->.
    { unfold decode_ascii. unfold encode_ascii in Hascii.
      by destruct (forallb _ _). }
    cbn [res_bind].
    destruct (scan_ufid (id3_ufid tags)) as [t1|]; [|done]. cbn [res_bind] in Hread.
    by eapply scan_txxx_with_track.
  - intros other Hne. apply String.eqb_neq in Hne. by rewrite Hne.
Qed.

Lemma embedded_identifier_is_read_back_witness :
  let after_embed :=
    embed_mbid_in_file (ID3 Sample.online) (fun _ => true)
      "/music/one.mp3" "32c7e292" in
  after_embed.2 = true
  ∧ read_mbids (with_files Sample.online after_embed.1) "/music/one.mp3"
    = Good (Some "32c7e292", None, None)
  ∧ ∀ other, other ≠ "/music/one.mp3" →
      read_mbids (with_files Sample.online after_embed.1) other
      = read_mbids Sample.online other.
Proof.
  apply (embedded_identifier_is_read_back Sample.online (fun _ => true)
           "/music/one.mp3" "32c7e292" (Some "b1a9c0e9") None None);
    reflexivity.
Defined.
(** ** The aggregation of tags, years and album types *)

Lemma dict_get_set d k v k' dflt :
  dict_get (dict_set d k v) k' dflt
  = if String.eqb k k' then v else dict_get d k' dflt.
Proof.
  induction d as [|[k0 v0] d IH]; cbn; [done|].
  destruct (String.eqb k0 k) eqn:Hk0; cbn.
  - apply String.eqb_eq in Hk0 as ->. by destruct (String.eqb k k').
  - rewrite IH. destruct (String.eqb k0 k') eqn:Hk0'; [|done].
    apply String.eqb_eq in Hk0' as ->. by rewrite String.eqb_sym, Hk0.
Qed.

Lemma dict_get_add d k n name :
  dict_get (dict_add d k n) name 0
  = dict_get d name 0 + (if bool_decide (k = name) then n else 0).
Proof.
  unfold dict_add. rewrite dict_get_set.
  destruct (String.eqb_spec k name) as [->|Hne].
  - by rewrite bool_decide_true.
  - rewrite bool_decide_false by done. lia.
Qed.

Lemma add_tag_votes E d t d1 name :
  add_tag E d t = Good d1 →
  dict_get d1 name 0
  = dict_get d name 0
    + (if bool_decide (tag_name t = Some name) then tag_votes E t else 0).
Proof.
  unfold add_tag, tag_votes.
  destruct (tag_name t) as [nm|] eqn:Hname.
  2: { destruct (tag_count t) as [s|]; [destruct (py_int E s)|]; done. }
  assert (∀ count, dict_get (dict_add d nm count) name 0
                   = dict_get d name 0
                     + (if bool_decide (Some nm = Some name) then count else 0))
    as Hadd.
  { intros count. rewrite dict_get_add.
    destruct (decide (nm = name)) as [->|Hne].
    - by rewrite !bool_decide_true.
    - rewrite !bool_decide_false; [done|congruence|done]. }
  destruct (tag_count t) as [s|].
  - destruct (py_int E s) as [n|]; cbn; [|done]. intros [= <-]. apply Hadd.
  - cbn. intros [= <-]. apply Hadd.
Qed.

(** X4. The tag dictionary sums the votes. A loop over a tag list adds,
    for every name, the counts of the entries of that name that it
    processed (an entry without count weighs 1, names are told apart
    exactly); it processes the whole list, or stops at the first entry
    without a name or with a count that [int] refuses, keeping what the
    entries before it added. *)
Theorem tag_counts_sum_the_votes
    (E : env) (d : dict) (tags : list mb_tag) :
  ∃ counted rest,
    tags = (counted ++ rest)%list
    ∧ (∀ name, dict_get (add_tags E d tags).1 name 0
               = dict_get d name 0 + tag_weight E name counted)
    ∧ match (add_tags E d tags).2 with
      | None => rest = []
      | Some e => ∃ t rest', rest = t :: rest'
                             ∧ add_tag E (add_tags E d tags).1 t = Bad e
      end.
Proof.
  revert d. induction tags as [|t tags IH]; intros d; cbn [add_tags].
  { exists [], []. split; [done|]. split; [|done]. intros name. cbn. lia. }
  destruct (add_tag E d t) as [d1|e] eqn:Hadd.
  - destruct (IH d1) as (counted & rest & -> & Hsum & Herr).
    exists (t :: counted), rest. split; [done|]. split; [|done].
    intros name. rewrite Hsum, (add_tag_votes E d t d1 name Hadd). cbn. lia.
  - exists [], (t :: tags). split; [done|]. cbn. split; [intros; lia|eauto].
Qed.

Lemma max_from_first_maximum kb vb d :
  ∃ before v later,
    (kb, vb) :: d = (before ++ (max_from (kb, vb) d, v) :: later)%list
    ∧ Forall (fun kv => kv.2 < v) before
    ∧ Forall (fun kv => kv.2 ≤ v) later.
Proof.
  revert kb vb. induction d as [|[k1 v1] d IH]; intros kb vb; cbn [max_from].
  { exists [], vb, []. by repeat split. }
  cbn [snd]. destruct (Z.ltb_spec vb v1) as [Hlt|Hge].
  - destruct (IH k1 v1) as (before & v & later & Heq & Hbefore & Hlater).
    exists ((kb, vb) :: before), v, later.
    split; [cbn [app]; by f_equal|].
    split; [|done]. constructor; [|done]. cbn.
    destruct before as [|b before]; cbn in Heq.
    + assert (v1 = v) by congruence. lia.
    + assert (b = (k1, v1)) as -> by congruence.
      apply Forall_cons in Hbefore as [Hb _]. cbn in Hb. lia.
  - destruct (IH kb vb) as (before & v & later & Heq & Hbefore & Hlater).
    destruct before as [|b before]; cbn in Heq.
    + assert (max_from (kb, vb) d = kb ∧ v = vb ∧ later = d)
        as (Hk & -> & ->) by (repeat split; congruence).
      exists [], vb, ((k1, v1) :: d). rewrite Hk.
      split; [done|]. split; [done|]. by constructor.
    + assert (b = (kb, vb)
              ∧ d = (before ++ (max_from (kb, vb) d, v) :: later)%list)
        as [-> Hd] by (split; congruence).
      exists ((kb, vb) :: (k1, v1) :: before), v, later.
      split; [cbn [app]; by do 2 f_equal|]. split; [|done].
      apply Forall_cons in Hbefore as [Hb Hbefore]. cbn in Hb.
      repeat constructor; cbn; [done|lia|done].
Qed.

(** X5. [max(d, key=d.get)] on an insertion-ordered dictionary: the key
    returned carries the greatest count, and among the keys of greatest
    count it is the one inserted first, every key before it having a
    strictly smaller count; the result is [None] only for the empty
    dictionary.  The genre, the primary type and the status are chosen
    this way. *)
Theorem max_key_is_the_first_maximum (d : dict) :
  match max_key d with
  | Some k =>
      ∃ before v later,
        d = (before ++ (k, v) :: later)%list
        ∧ Forall (fun kv => kv.2 < v) before
        ∧ Forall (fun kv => kv.2 ≤ v) later
  | None => d = []
  end.
Proof.
  destruct d as [|[kb vb] d]; [done|]. cbn [max_key].
  apply max_from_first_maximum.
Qed.

Lemma foldl_min_spec x l :
  foldl Z.min x l ≤ x
  ∧ Forall (Z.le (foldl Z.min x l)) l
  ∧ (foldl Z.min x l = x ∨ foldl Z.min x l ∈ l).
Proof.
  revert x. induction l as [|y l IH]; intros x; cbn [foldl].
  { split; [lia|]. split; [done|by left]. }
  destruct (IH (Z.min x y)) as (Hle & Hall & Hin).
  split; [lia|]. split; [constructor; [lia|done]|].
  destruct Hin as [Hin|Hin]; [|right; by right].
  rewrite Hin. destruct (Z.min_spec x y) as [[_ ->]|[_ ->]]; [by left|].
  right. by left.
Qed.

(** X6. The resolved year is the earliest release year. The year
    [query_musicbrainz] computes is the year of some release and is not
    later than the year of any release; releases whose date is absent,
    empty or not starting with a number are left out, and the year is
    null exactly when every release is left out. *)
Theorem resolved_year_is_the_earliest (E : env) (releases : list mb_release) :
  match min_list (release_years E releases) with
  | Some y =>
      (∃ r, r ∈ releases ∧ release_year E r = Some y)
      ∧ ∀ r y', r ∈ releases → release_year E r = Some y' → y ≤ y'
  | None => ∀ r, r ∈ releases → release_year E r = None
  end.
Proof.
  unfold release_years.
  destruct (omap (release_year E) releases) as [|x l] eqn:Hyears; cbn [min_list].
  - intros r Hr. destruct (release_year E r) as [y|] eqn:Hy; [|done].
    assert (y ∈ omap (release_year E) releases) as Hin.
    { apply list_elem_of_omap. eauto. }
    rewrite Hyears in Hin. by apply elem_of_nil in Hin.
  - destruct (foldl_min_spec x l) as (Hle & Hall & Hin). split.
    + assert (foldl Z.min x l ∈ omap (release_year E) releases) as Hmem.
      { rewrite Hyears. destruct Hin as [->|Hin]; [by left|by right]. }
      by apply list_elem_of_omap in Hmem.
    + intros r y' Hr Hy'.
      assert (y' ∈ x :: l) as Hmem.
      { rewrite <- Hyears. apply list_elem_of_omap. eauto. }
      apply elem_of_cons in Hmem as [->|Hmem]; [done|].
      rewrite Forall_forall in Hall. by apply Hall.
Qed.

Lemma dict_set_keys (P : string → Prop) d k v :
  P k → Forall (fun kv => P kv.1) d → Forall (fun kv => P kv.1) (dict_set d k v).
Proof.
  intros Hk. induction 1 as [|[k0 v0] d H0 Hd IH]; cbn.
  - by repeat constructor.
  - destruct (String.eqb k0 k); by constructor.
Qed.

Lemma count_primary_types_keys d releases :
  Forall (fun kv => truthy kv.1 = true) d →
  Forall (fun kv => truthy kv.1 = true) (count_primary_types d releases).
Proof.
  revert d. induction releases as [|r releases IH]; intros d Hd; cbn; [done|].
  destruct (rel_release_group r) as [rg|]; [|by apply IH].
  destruct (rg_primary_type rg) as [t|]; [|by apply IH].
  destruct (truthy t) eqn:Ht; [|by apply IH].
  apply IH. by apply (dict_set_keys (fun k => truthy k = true)).
Qed.

Lemma count_statuses_keys d releases :
  Forall (fun kv => truthy kv.1 = true) d →
  Forall (fun kv => truthy kv.1 = true) (count_statuses d releases).
Proof.
  revert d. induction releases as [|r releases IH]; intros d Hd; cbn; [done|].
  destruct (rel_status r) as [s|]; [|by apply IH].
  destruct (truthy s) eqn:Hs; [|by apply IH].
  apply IH. by apply (dict_set_keys (fun k => truthy k = true)).
Qed.

Lemma max_key_truthy d k :
  Forall (fun kv => truthy kv.1 = true) d →
  max_key d = Some k → truthy k = true.
Proof.
  intros Hd Hk. pose proof (max_key_first := max_from_first_maximum).
  destruct d as [|[kb vb] d]; [done|]. cbn in Hk. injection Hk as <-.
  destruct (max_key_first kb vb d) as (before & v & later & Heq & _).
  rewrite Heq in Hd. apply Forall_app in Hd as [_ Hd].
  by apply Forall_cons in Hd as [Hd _].
Qed.

Lemma scan_titles_truthy releases t :
  scan_titles releases = Some t → truthy t = true.
Proof.
  induction releases as [|r releases IH]; cbn; [done|].
  unfold title_keyword.
  destruct (_ || _); [by intros [= <-]|].
  destruct (str_in "deluxe" _); [by intros [= <-]|].
  destruct (str_in "soundtrack" _); [by intros [= <-]|].
  destruct (str_in "live" _); [by intros [= <-]|done].
Qed.

(** X7. The album type is resolved by a strict waterfall: the most
    frequent non-empty release-group primary type when any release has
    one; else the most frequent non-empty release status when any release
    has one; else the keyword class of the first release title that holds
    a keyword; else null.  It is never the empty string. *)
Theorem album_type_waterfall (releases : list mb_release) :
  resolve_album_type releases
  = match max_key (count_primary_types [] releases) with
    | Some t => Some t
    | None =>
        match max_key (count_statuses [] releases) with
        | Some s => Some s
        | None => scan_titles releases
        end
    end
  ∧ resolve_album_type releases ≠ Some EmptyString.
Proof.
  assert (resolve_album_type releases
          = match max_key (count_primary_types [] releases) with
            | Some t => Some t
            | None =>
                match max_key (count_statuses [] releases) with
                | Some s => Some s
                | None => scan_titles releases
                end
            end) as Heq.
  { unfold resolve_album_type.
    pose proof (max_key_truthy (count_primary_types [] releases)) as Htypes.
    pose proof (max_key_truthy (count_statuses [] releases)) as Hstatuses.
    destruct (max_key (count_primary_types [] releases)) as [t|].
    { pose proof (Htypes t (count_primary_types_keys _ _ (Forall_nil_2 _))
                    eq_refl) as Ht.
      change (truthy (Some t)) with (truthy t). rewrite Ht. cbn [negb].
      change (truthy (Some t)) with (truthy t). by rewrite Ht. }
    cbn [truthy truthy_option negb].
    destruct (count_statuses [] releases) as [|kv statuses] eqn:Hs.
    { cbn. by destruct (scan_titles releases). }
    change (truthy (kv :: statuses)) with true. cbn match.
    destruct (max_key (kv :: statuses)) as [s|] eqn:Hmax; [|done].
    assert (truthy s = true) as Htruthy.
    { apply Hstatuses; [|done]. rewrite <- Hs. by apply count_statuses_keys. }
    change (truthy (Some s)) with (truthy s). by rewrite Htruthy. }
  split; [done|]. rewrite Heq.
  pose proof (max_key_truthy (count_primary_types [] releases)) as Htypes.
  pose proof (max_key_truthy (count_statuses [] releases)) as Hstatuses.
  destruct (max_key (count_primary_types [] releases)) as [t|].
  { intros [= ->]. by specialize (Htypes _ (count_primary_types_keys _ _ (Forall_nil_2 _)) eq_refl). }
  destruct (max_key (count_statuses [] releases)) as [s|].
  { intros [= ->]. by specialize (Hstatuses _ (count_statuses_keys _ _ (Forall_nil_2 _)) eq_refl). }
  intros H. by apply scan_titles_truthy in H.
Qed.

(** ** The descriptor *)

(** X8. [generate_metadata_string] leaves out what is absent: the
    descriptor is empty exactly when artist, title, genre and album type
    are all null or empty and the year is null or 0. *)
Theorem metadata_string_empty_iff_nothing_known
    (artist title genre : option string) (year : option Z)
    (album_type : option string) :
  truthy (generate_metadata_string artist title genre year album_type)
  = truthy artist || truthy title || truthy genre || truthy year
    || truthy album_type.
Proof.
  unfold generate_metadata_string.
  destruct (truthy artist), (truthy title), (truthy genre), (truthy year),
    (truthy album_type); reflexivity.
Qed.

(** ** What one lookup does *)

Lemma artist_tags_after E id d w :
  ∃ d', artist_tags E id d w = Ok d' (after [RemoteArtist id] w).
Proof.
  unfold artist_tags. BuildDbSpec.unfold_M. cbn.
  destruct (get_artist_by_id E _ id); eauto.
Qed.

Lemma artist_fallback_after E credits d w :
  ∃ new, forallb is_artist_call new = true ∧
    match artist_fallback E credits d w with
    | Ok _ w' | Raise _ w' => w' = after new w
    end.
Proof.
  revert d w. induction credits as [|[s|[a|]] rest IH]; intros d w;
    cbn [artist_fallback].
  - exists []. split; [done|]. cbn. by rewrite BuildDbSpec.after_nil.
  - destruct (str_in "artist" s); [|apply IH].
    exists []. split; [done|]. cbn. by rewrite BuildDbSpec.after_nil.
  - destruct (artist_id a) as [id|].
    2: { exists []. split; [done|]. cbn. by rewrite BuildDbSpec.after_nil. }
    unfold mbind, M_bind, bind.
    destruct (artist_tags_after E id d w) as [d' ->].
    destruct (IH d' (after [RemoteArtist id] w)) as (new & Hnew & Hrest).
    exists (new ++ [RemoteArtist id])%list. split.
    + by rewrite forallb_app, Hnew.
    + destruct (artist_fallback E rest d' _);
        by rewrite Hrest, BuildDbSpec.after_after.
  - apply IH.
Qed.

Lemma aggregate_after E mbid w :
  ∃ artists, forallb is_artist_call artists = true ∧
    match aggregate E mbid w with
    | Ok _ w' | Raise _ w' => w' = after (artists ++ [RemoteRecording mbid]) w
    end.
Proof.
  unfold aggregate. unfold mbind, M_bind, bind, get_world, log, lift.
  change {| conn := conn w; diag := diag w;
            trace := RemoteRecording mbid :: trace w |}
    with (after [RemoteRecording mbid] w).
  destruct (get_recording_by_id E _ mbid) as [recording|e];
    [|by exists []].
  destruct (add_tags_or_raise E [] (rec_tag_list recording)) as [d1|e];
    [|by exists []].
  destruct (add_release_tags E d1 (rec_release_list recording)) as [d2|e];
    [|by exists []].
  destruct (negb (truthy d2)); [|by exists []].
  destruct (artist_fallback_after E (rec_artist_credit recording) d2
              (after [RemoteRecording mbid] w)) as (new & Hnew & Hrest).
  exists new. split; [done|].
  destruct (artist_fallback E _ d2 _); cbn;
    by rewrite Hrest, BuildDbSpec.after_after.
Qed.

Lemma fresh_lookup_trace E mbid w :
  ∃ artists, forallb is_artist_call artists = true ∧
    match fresh_lookup E mbid w with
    | Ok (g, y, a) w' =>
        trace w' = Sleep :: PrintResolved g y a :: Committed (UpsertCache mbid)
                   :: (artists ++ RemoteRecording mbid :: trace w)%list
        ∧ diag w' = count_missing g y a (diag w)
    | Raise _ w' =>
        trace w' = (artists ++ RemoteRecording mbid :: trace w)%list
        ∧ conn w' = conn w
        ∧ (diag w' = diag w ∨ ∃ g y a, diag w' = count_missing g y a (diag w))
    end.
Proof.
  destruct (aggregate_after E mbid w) as (artists & Hartists & Hagg).
  exists artists. split; [done|].
  assert (trace (after (artists ++ [RemoteRecording mbid]) w)
          = (artists ++ RemoteRecording mbid :: trace w)%list) as Htrace.
  { cbn. by rewrite <- app_assoc. }
  unfold fresh_lookup. unfold mbind at 1. unfold M_bind at 1. unfold bind at 1.
  destruct (aggregate E mbid w) as [[[[recording g] y] a] w1|e w1]; subst w1.
  2: { split; [done|]. split; [done|]. by left. }
  unfold cache_insert. BuildDbSpec.unfold_M.
  cbn -[missing_column fits_sqlite_integer json_dumps app].
  destruct (mbid_cache (conn w)) as [t|].
  2: { cbn -[app]. rewrite <- app_assoc. split; [done|]. split; [done|]. eauto. }
  destruct (missing_column cache_insert_columns (cache_columns t)).
  { cbn -[app]. rewrite <- app_assoc. split; [done|]. split; [done|]. eauto. }
  destruct (fits_sqlite_integer y).
  - cbn -[app]. by rewrite <- app_assoc.
  - cbn -[app]. rewrite <- app_assoc. split; [done|]. split; [done|]. eauto.
Qed.

(** The three ways a call of [query_musicbrainz] returns. *)
Lemma query_musicbrainz_shape E mbid w r w' :
  query_musicbrainz E mbid w = Ok r w' →
  (has_payload (conn w) mbid = true ∧ w' = w)
  ∨ (has_payload (conn w) mbid = false
     ∧ ∃ artists, forallb is_artist_call artists = true
       ∧ ((∃ g y a, r = (g, y, a)
             ∧ trace w' = Sleep :: PrintResolved g y a
                          :: Committed (UpsertCache mbid)
                          :: (artists ++ RemoteRecording mbid :: trace w)%list
             ∧ diag w' = count_missing g y a (diag w))
          ∨ (r = (None, None, None) ∧ conn w' = conn w
             ∧ trace w' = PrintQueryFailed mbid
                          :: (artists ++ RemoteRecording mbid :: trace w)%list
             ∧ (diag w' = diag w
                ∨ ∃ g y a, diag w' = count_missing g y a (diag w))))).
Proof.
  assert (∀ r w', guarded_lookup E mbid w = Ok r w' →
            ∃ artists, forallb is_artist_call artists = true
              ∧ ((∃ g y a, r = (g, y, a)
                    ∧ trace w' = Sleep :: PrintResolved g y a
                                 :: Committed (UpsertCache mbid)
                                 :: (artists ++ RemoteRecording mbid
                                     :: trace w)%list
                    ∧ diag w' = count_missing g y a (diag w))
                 ∨ (r = (None, None, None) ∧ conn w' = conn w
                    ∧ trace w' = PrintQueryFailed mbid
                                 :: (artists ++ RemoteRecording mbid
                                     :: trace w)%list
                    ∧ (diag w' = diag w
                       ∨ ∃ g y a, diag w' = count_missing g y a (diag w)))))
    as Hguarded.
  { intros r0 w0. unfold guarded_lookup, try_except.
    destruct (fresh_lookup_trace E mbid w) as (artists & Hartists & Hf).
    destruct (fresh_lookup E mbid w) as [[[g y] a] w1|e w1].
    - intros [= <- <-]. exists artists. split; [done|]. left.
      exists g, y, a. by destruct Hf.
    - BuildDbSpec.unfold_M. cbn. intros [= <- <-]. exists artists.
      split; [done|]. right. destruct Hf as (Ht & Hc & Hd). cbn.
      by rewrite Ht. }
  unfold query_musicbrainz. unfold mbind, M_bind, bind.
  rewrite BuildDbSpec.cache_select_spec. unfold has_payload.
  destruct (mbid_cache (conn w)) as [t|] eqn:Ht; [|done].
  rewrite (BuildDbSpec.cache_entry_table _ t) by done.
  destruct (missing_column cache_select_columns (cache_columns t)); [done|].
  destruct (cache_rows t !! mbid) as [c|].
  - destruct (truthy (c_recording_json c)).
    + intros [= <- <-]. by left.
    + intros Hg. right. split; [done|]. by apply Hguarded.
  - intros Hg. right. split; [done|]. by apply Hguarded.
Qed.

Lemma count_events_artists p artists :
  (∀ id, p (RemoteArtist id) = false) →
  forallb is_artist_call artists = true →
  count_events p artists = 0%nat.
Proof.
  intros Hp. induction artists as [|e artists IH]; [done|].
  intros [He Hrest]%andb_prop. rewrite BuildDbSpec.count_events_cons, IH by done.
  destruct e; try done. by rewrite Hp.
Qed.

(** X9. One remote recording lookup per cache miss, and the pacing
    delay follows a stored answer only. A call of [query_musicbrainz] that
    returns either finds an authoritative cache entry and does nothing at
    all, or makes exactly one [get_recording_by_id] call and then either
    commits the cache row and sleeps once, or fails: then it neither
    writes nor sleeps, prints the failure, answers all-null and leaves the
    database as it was. *)
Theorem lookup_calls_once_and_sleeps_after_storing
    (E : env) (mbid : string) (w w' : world)
    (r : option string * option Z * option string) :
  query_musicbrainz E mbid w = Ok r w' →
  (has_payload (conn w) mbid = true ∧ w' = w)
  ∨ (has_payload (conn w) mbid = false
     ∧ recording_calls (trace w') = S (recording_calls (trace w))
     ∧ ((cache_writes (trace w') = S (cache_writes (trace w))
         ∧ pacing_delays (trace w') = S (pacing_delays (trace w))
         ∧ failed_queries (trace w') = failed_queries (trace w))
        ∨ (cache_writes (trace w') = cache_writes (trace w)
           ∧ pacing_delays (trace w') = pacing_delays (trace w)
           ∧ failed_queries (trace w') = S (failed_queries (trace w))
           ∧ r = (None, None, None) ∧ conn w' = conn w))).
Proof.
  intros [Hhit|(Hmiss & artists & Hartists & Hcases)]%query_musicbrainz_shape;
    [by left|].
  right. split; [done|].
  pose proof (count_events_artists is_recording_call artists
                ltac:(done) Hartists) as Hrec.
  pose proof (count_events_artists is_cache_write artists
                ltac:(done) Hartists) as Hwrite.
  pose proof (count_events_artists is_pacing_delay artists
                ltac:(done) Hartists) as Hsleep.
  pose proof (count_events_artists is_query_failed artists
                ltac:(done) Hartists) as Hfail.
  unfold recording_calls, cache_writes, pacing_delays, failed_queries.
  destruct Hcases as [(g & y & a & -> & -> & _)|(-> & Hconn & -> & _)];
    rewrite !BuildDbSpec.count_events_cons, !BuildDbSpec.count_events_app,
      !BuildDbSpec.count_events_cons, Hrec, Hwrite, Hsleep, Hfail; cbn.
  - split; [done|]. left. by repeat split.
  - split; [done|]. right. by repeat split.
Qed.

Lemma lookup_calls_once_and_sleeps_after_storing_witness :
  (has_payload (conn (Sample.start Sample.clean_db)) "b1a9c0e9" = true
   ∧ Sample.looked_up = Sample.start Sample.clean_db)
  ∨ (has_payload (conn (Sample.start Sample.clean_db)) "b1a9c0e9" = false
     ∧ recording_calls (trace Sample.looked_up)
       = S (recording_calls (trace (Sample.start Sample.clean_db)))
     ∧ ((cache_writes (trace Sample.looked_up)
         = S (cache_writes (trace (Sample.start Sample.clean_db)))
         ∧ pacing_delays (trace Sample.looked_up)
           = S (pacing_delays (trace (Sample.start Sample.clean_db)))
         ∧ failed_queries (trace Sample.looked_up)
           = failed_queries (trace (Sample.start Sample.clean_db)))
        ∨ (cache_writes (trace Sample.looked_up)
           = cache_writes (trace (Sample.start Sample.clean_db))
           ∧ pacing_delays (trace Sample.looked_up)
             = pacing_delays (trace (Sample.start Sample.clean_db))
           ∧ failed_queries (trace Sample.looked_up)
             = S (failed_queries (trace (Sample.start Sample.clean_db)))
           ∧ (Some "rock", Some 1975, Some "Album") = (None, None, None)
           ∧ conn Sample.looked_up = conn (Sample.start Sample.clean_db)))).
Proof.
  apply (lookup_calls_once_and_sleeps_after_storing Sample.online "b1a9c0e9"
           (Sample.start Sample.clean_db) Sample.looked_up
           (Some "rock", Some 1975, Some "Album")).
  vm_compute. reflexivity.
Defined.

(** X10. On a store whose cache table has the columns the statements
    name, [query_musicbrainz] never raises, whatever the remote service
    and the collaborators do; it leaves table [tracks] alone and changes
    no cache entry but that of the identifier asked for. *)
Theorem lookup_never_raises_on_a_migrated_store
    (E : env) (mbid : string) (w : world) (t : cache_table) :
  mbid_cache (conn w) = Some t →
  missing_column cache_select_columns (cache_columns t) = None →
  ∃ r w', query_musicbrainz E mbid w = Ok r w'
          ∧ tracks (conn w') = tracks (conn w)
          ∧ ∀ other, other ≠ mbid →
              cache_entry (conn w') other = cache_entry (conn w) other.
Proof.
  intros Ht Hcols.
  destruct (BuildDbSpec.query_musicbrainz_total E mbid w t Ht Hcols)
    as (r & w' & Hq).
  exists r, w'. split; [done|].
  pose proof (BuildDbSpec.query_musicbrainz_result E mbid w) as Hres.
  rewrite Hq in Hres.
  inversion Hres as [|c Hc Hp|t' new g y a json Hp Ht' Hcols' Hnew Hjson
                     |new d' Hp Hnew]; subst; [done| |done].
  split; [done|]. intros other Hne.
  unfold cache_entry. cbn [conn mbid_cache]. rewrite Ht'.
  cbn -[missing_column]. destruct (missing_column _ _); [done|].
  by rewrite lookup_insert_ne.
Qed.

Lemma lookup_never_raises_on_a_migrated_store_witness :
  ∃ r w',
    query_musicbrainz Sample.offline "b1a9c0e9" (Sample.start Sample.clean_db)
    = Ok r w'
    ∧ tracks (conn w') = tracks (conn (Sample.start Sample.clean_db))
    ∧ ∀ other, other ≠ "b1a9c0e9" →
        cache_entry (conn w') other
        = cache_entry (conn (Sample.start Sample.clean_db)) other.
Proof.
  apply (lookup_never_raises_on_a_migrated_store Sample.offline "b1a9c0e9"
           (Sample.start Sample.clean_db) (Sample.full_cache ∅));
    reflexivity.
Defined.

(** X11. An answer that was stored is served from the cache from then on.
    After a call of [query_musicbrainz] that returned without failing,
    asking again for the same identifier gives the same answer and does
    nothing: no remote call, no write, no delay, whatever the remote
    service would answer now. *)
Theorem stored_answer_is_served_from_the_cache
    (E E2 : env) (mbid : string) (w w' : world)
    (r : option string * option Z * option string) :
  query_musicbrainz E mbid w = Ok r w' →
  failed_queries (trace w') = failed_queries (trace w) →
  query_musicbrainz E2 mbid w' = Ok r w'.
Proof.
  intros Hq Hfailed. destruct r as [[g y] a].
  pose proof (BuildDbSpec.query_musicbrainz_result E mbid w) as Hres.
  rewrite Hq in Hres.
  destruct (BuildDbSpec.query_result_entry _ _ _ _ _ _ Hres Hfailed)
    as (c & Hc & Hp & <- & <- & <-).
  by apply BuildDbSpec.query_musicbrainz_hit.
Qed.

Lemma stored_answer_is_served_from_the_cache_witness :
  query_musicbrainz Sample.offline "b1a9c0e9" Sample.looked_up
  = Ok (Some "rock", Some 1975, Some "Album") Sample.looked_up.
Proof.
  apply (stored_answer_is_served_from_the_cache Sample.online Sample.offline
           "b1a9c0e9" (Sample.start Sample.clean_db) Sample.looked_up
           (Some "rock", Some 1975, Some "Album")); vm_compute; reflexivity.
Defined.

Lemma count_missing_bounds g y a d :
  missing_genre d ≤ missing_genre (count_missing g y a d) ≤ missing_genre d + 1
  ∧ missing_year d ≤ missing_year (count_missing g y a d) ≤ missing_year d + 1
  ∧ missing_album_type d ≤ missing_album_type (count_missing g y a d)
    ≤ missing_album_type d + 1.
Proof.
  unfold count_missing. cbn.
  destruct (truthy g), (truthy y), (truthy a); lia.
Qed.

(** X12. The diagnostics counters count stored fresh answers. A call of
    [query_musicbrainz] that returns leaves the counters as they were on
    a cache hit; on a miss that does not fail it adds one to the counter
    of every field of its answer that is null, empty or 0; and in every
    case no counter decreases or grows by more than one. *)
Theorem diagnostics_count_fresh_answers
    (E : env) (mbid : string) (w w' : world)
    (g : option string) (y : option Z) (a : option string) :
  query_musicbrainz E mbid w = Ok (g, y, a) w' →
  (if has_payload (conn w) mbid then diag w' = diag w
   else failed_queries (trace w') = failed_queries (trace w) →
        diag w' = count_missing g y a (diag w))
  ∧ missing_genre (diag w) ≤ missing_genre (diag w') ≤ missing_genre (diag w) + 1
  ∧ missing_year (diag w) ≤ missing_year (diag w') ≤ missing_year (diag w) + 1
  ∧ missing_album_type (diag w) ≤ missing_album_type (diag w')
    ≤ missing_album_type (diag w) + 1.
Proof.
  intros Hq.
  destruct (query_musicbrainz_shape _ _ _ _ _ Hq)
    as [[-> ->]|(-> & artists & Hartists & Hcases)].
  { split; [done|]. lia. }
  pose proof (count_events_artists is_query_failed artists
                ltac:(done) Hartists) as Hfail.
  destruct Hcases as [(g' & y' & a' & [= -> -> ->] & Htrace & ->)
                     |(_ & _ & Htrace & Hdiag)].
  - split; [done|]. apply count_missing_bounds.
  - split.
    + intros Hfailed. exfalso. rewrite Htrace in Hfailed.
      unfold failed_queries in Hfailed.
      rewrite BuildDbSpec.count_events_cons, BuildDbSpec.count_events_app,
        BuildDbSpec.count_events_cons, Hfail in Hfailed.
      cbn in Hfailed. lia.
    + destruct Hdiag as [->|(g' & y' & a' & ->)]; [lia|].
      apply count_missing_bounds.
Qed.

Lemma diagnostics_count_fresh_answers_witness :
  (if has_payload (conn (Sample.start Sample.clean_db)) "b1a9c0e9"
   then diag Sample.looked_up = diag (Sample.start Sample.clean_db)
   else failed_queries (trace Sample.looked_up)
        = failed_queries (trace (Sample.start Sample.clean_db)) →
        diag Sample.looked_up
        = count_missing (Some "rock") (Some 1975) (Some "Album")
            (diag (Sample.start Sample.clean_db)))
  ∧ missing_genre (diag (Sample.start Sample.clean_db))
    ≤ missing_genre (diag Sample.looked_up)
    ≤ missing_genre (diag (Sample.start Sample.clean_db)) + 1
  ∧ missing_year (diag (Sample.start Sample.clean_db))
    ≤ missing_year (diag Sample.looked_up)
    ≤ missing_year (diag (Sample.start Sample.clean_db)) + 1
  ∧ missing_album_type (diag (Sample.start Sample.clean_db))
    ≤ missing_album_type (diag Sample.looked_up)
    ≤ missing_album_type (diag (Sample.start Sample.clean_db)) + 1.
Proof.
  apply (diagnostics_count_fresh_answers Sample.online "b1a9c0e9"
           (Sample.start Sample.clean_db) Sample.looked_up
           (Some "rock") (Some 1975) (Some "Album")).
  vm_compute. reflexivity.
Defined.

(** ** What processing a file does to the records *)

Lemma process_file_records E p w w' :
  process_file E p w = Ok tt w' →
  (∀ q, q ≠ p → stored_track (conn w') q = stored_track (conn w) q)
  ∧ match stored_track (conn w) p with
    | Some r =>
        ∃ r', stored_track (conn w') p = Some r'
              ∧ file_path r' = file_path r
              ∧ track_mbid r' = track_mbid r
              ∧ artist_mbid r' = artist_mbid r
              ∧ release_group_mbid r' = release_group_mbid r
              ∧ embedding r' = embedding r
    | None =>
        ∃ r', stored_track (conn w') p = Some r'
              ∧ file_path r' = p ∧ embedding r' = None
    end.
Proof.
  intros Hrun.
  destruct (BuildDbSpec.process_file_ok E p w w' Hrun) as (rows & Hrows & Hcases).
  unfold stored_track. rewrite Hrows. cbn [mbind option_bind].
  destruct (find_track rows p) as [r|] eqn:Hr.
  - destruct (needs_lookup r).
    2: { subst w'. cbn [conn after]. rewrite Hrows. cbn. rewrite Hr.
         split; [done|]. by exists r. }
    destruct Hcases as (g & y & a & wq & Hq & Hw').
    pose proof (BuildDbSpec.query_result_tracks _ _ _ Hq) as Htr. cbn in Htr.
    destruct (any_update r g y a); subst w'.
    + cbn [conn written tracks mbind option_bind]. split.
      * intros q Hq'. by apply BuildDbSpec.find_track_update_other.
      * rewrite BuildDbSpec.find_track_update_same, Hr. cbn.
        eexists. split; [done|]. by repeat split.
    + cbn [conn after]. rewrite Htr, Hrows. cbn. rewrite Hr.
      split; [done|]. by exists r.
  - destruct Hcases as (mbid & artist & rg & wt & g & y & a & wq & Hwt & Hq & ->).
    cbn [conn written tracks mbind option_bind]. split.
    + intros q Hne. rewrite BuildDbSpec.find_track_append.
      destruct (find_track rows q); [done|]. cbn.
      assert (String.eqb p q = false) as ->; [|done].
      apply String.eqb_neq. congruence.
    + rewrite BuildDbSpec.find_track_append, Hr. cbn.
      rewrite String.eqb_refl. eexists. by repeat split.
Qed.

(** X13. Processing a file touches the record of that file only. After
    [process_file] has returned for a path, the record of every other
    path is exactly as before; the path itself has a record; and if it
    had one before, its path, its three identifiers and its embedding are
    unchanged (only genre, year and album type can change), while a
    record created now has no embedding. *)
Theorem process_file_touches_one_record
    (E : env) (p : string) (w w' : world) :
  process_file E p w = Ok tt w' →
  (∀ q, q ≠ p → stored_track (conn w') q = stored_track (conn w) q)
  ∧ match stored_track (conn w) p with
    | Some r =>
        ∃ r', stored_track (conn w') p = Some r'
              ∧ file_path r' = file_path r
              ∧ track_mbid r' = track_mbid r
              ∧ artist_mbid r' = artist_mbid r
              ∧ release_group_mbid r' = release_group_mbid r
              ∧ embedding r' = embedding r
    | None =>
        ∃ r', stored_track (conn w') p = Some r'
              ∧ file_path r' = p ∧ embedding r' = None
    end.
Proof. apply process_file_records. Qed.

Lemma process_file_touches_one_record_witness :
  (∀ q, q ≠ "/music/one.mp3" →
     stored_track (conn Sample.flaky_backfilled) q
     = stored_track (conn Sample.flaky_first) q)
  ∧ match stored_track (conn Sample.flaky_first) "/music/one.mp3" with
    | Some r =>
        ∃ r', stored_track (conn Sample.flaky_backfilled) "/music/one.mp3"
              = Some r'
              ∧ file_path r' = file_path r
              ∧ track_mbid r' = track_mbid r
              ∧ artist_mbid r' = artist_mbid r
              ∧ release_group_mbid r' = release_group_mbid r
              ∧ embedding r' = embedding r
    | None =>
        ∃ r', stored_track (conn Sample.flaky_backfilled) "/music/one.mp3"
              = Some r'
              ∧ file_path r' = "/music/one.mp3" ∧ embedding r' = None
    end.
Proof.
  apply (process_file_touches_one_record Sample.flaky "/music/one.mp3"
           Sample.flaky_first Sample.flaky_backfilled).
  vm_compute. reflexivity.
Defined.

(** ** Whole runs *)

Lemma track_already_in_db_stored d q :
  track_already_in_db d q = Good true ↔ is_Some (stored_track d q).
Proof.
  unfold track_already_in_db, stored_track.
  destruct (tracks d) as [rows|]; cbn.
  - split.
    + intros [= H]. by apply bool_decide_eq_true in H.
    + intros H. f_equal. by apply bool_decide_eq_true.
  - split; [done|]. by intros [? ?].
Qed.

Lemma process_file_keeps_records E p w w' q :
  process_file E p w = Ok tt w' →
  (is_Some (stored_track (conn w) q) → is_Some (stored_track (conn w') q))
  ∧ is_Some (stored_track (conn w') p).
Proof.
  intros [Hother Hself]%process_file_records.
  assert (is_Some (stored_track (conn w') p)) as Hp.
  { destruct (stored_track (conn w) p);
      destruct Hself as (r' & -> & _); by eexists. }
  split; [|done]. intros Hq.
  destruct (decide (q = p)) as [->|Hne]; [done|]. by rewrite Hother.
Qed.

Lemma process_all_records E ps w w' :
  process_all E ps w = Ok tt w' →
  (∀ p, p ∈ ps → is_Some (stored_track (conn w') p))
  ∧ (∀ q, q ∉ ps → stored_track (conn w') q = stored_track (conn w) q)
  ∧ (∀ q, is_Some (stored_track (conn w) q) →
          is_Some (stored_track (conn w') q)).
Proof.
  revert w. induction ps as [|p ps IH]; intros w Hrun.
  { cbn in Hrun. injection Hrun as <-.
    split; [by intros p ?%elem_of_nil|]. by split. }
  apply BuildDbSpec.process_all_cons in Hrun as (w1 & H1 & H2).
  destruct (IH w1 H2) as (Hall & Hframe & Hkeep).
  split; [|split].
  - intros q [->|Hq]%elem_of_cons; [|by apply Hall].
    apply Hkeep. by apply (process_file_keeps_records E p w w1 p).
  - intros q Hq. apply not_elem_of_cons in Hq as [Hne Hq].
    rewrite (Hframe q Hq).
    by apply (proj1 (process_file_records E p w w1 H1)).
  - intros q Hq. apply Hkeep.
    by apply (process_file_keeps_records E p w w1 q).
Qed.

Lemma mp3_paths_elem listing root files file :
  (root, files) ∈ listing → file ∈ files →
  endswith (lower file) ".mp3" = true →
  os_path_join root file ∈ mp3_paths listing.
Proof.
  intros Hlisting Hfile Hmp3. unfold mp3_paths.
  apply list_elem_of_In, in_flat_map. exists (root, files).
  split; [by apply list_elem_of_In|].
  apply in_map, filter_In. split; [by apply list_elem_of_In|done].
Qed.

(** X14. A completed walk stores every file it found and drops nothing.
    After [walk_and_process] has returned, every file of the directory
    listing whose name ends in [.mp3], in any letter case, is in the
    database ([track_already_in_db] answers true for its joined path);
    every path that was in the database before still is; and the record
    of any path that is not one of the files found is exactly as
    before. *)
Theorem completed_walk_stores_every_file
    (E : env) (music_dir : string) (w w' : world) :
  walk_and_process E music_dir w = Ok tt w' →
  (∀ root files file,
     (root, files) ∈ os_walk E music_dir → file ∈ files →
     endswith (lower file) ".mp3" = true →
     track_already_in_db (conn w') (os_path_join root file) = Good true)
  ∧ (∀ q, track_already_in_db (conn w) q = Good true →
          track_already_in_db (conn w') q = Good true)
  ∧ (∀ q, q ∉ mp3_paths (os_walk E music_dir) →
          stored_track (conn w') q = stored_track (conn w) q).
Proof.
  unfold walk_and_process.
  intros (Hall & Hframe & Hkeep)%process_all_records.
  split; [|split; [|done]].
  - intros root files file Hlisting Hfile Hmp3.
    apply track_already_in_db_stored, Hall. by eapply mp3_paths_elem.
  - intros q Hq. by apply track_already_in_db_stored, Hkeep,
                     track_already_in_db_stored.
Qed.

Lemma completed_walk_stores_every_file_witness :
  (∀ root files file,
     (root, files) ∈ os_walk Sample.online "/music" → file ∈ files →
     endswith (lower file) ".mp3" = true →
     track_already_in_db (conn Sample.online_first) (os_path_join root file)
     = Good true)
  ∧ (∀ q, track_already_in_db (conn (Sample.start Sample.clean_db)) q
          = Good true →
          track_already_in_db (conn Sample.online_first) q = Good true)
  ∧ (∀ q, q ∉ mp3_paths (os_walk Sample.online "/music") →
          stored_track (conn Sample.online_first) q
          = stored_track (conn (Sample.start Sample.clean_db)) q).
Proof.
  apply (completed_walk_stores_every_file Sample.online "/music"
           (Sample.start Sample.clean_db) Sample.online_first).
  vm_compute. reflexivity.
Defined.

Lemma needs_lookup_found rows p r :
  Forall (fun r => needs_lookup r = false) rows →
  find_track rows p = Some r → needs_lookup r = false.
Proof.
  intros Hrows Hr. apply List.find_some in Hr as [Hr _].
  rewrite Forall_forall in Hrows. by apply Hrows, list_elem_of_In.
Qed.

Lemma process_file_untagged E p w rows :
  tracks (conn w) = Some rows →
  Forall (fun r => needs_lookup r = false) rows →
  untagged E p = true →
  ∃ w' added,
    process_file E p w = Ok tt w'
    ∧ tracks (conn w') = Some (rows ++ added)%list
    ∧ Forall (fun r => needs_lookup r = false) (rows ++ added)%list
    ∧ Forall (fun r => genre r = None ∧ year r = None ∧ album_type r = None)
        added
    ∧ mbid_cache (conn w') = mbid_cache (conn w)
    ∧ diag w' = diag w
    ∧ remote_calls (trace w') = remote_calls (trace w).
Proof.
  intros Hrows Hsettled Huntagged.
  destruct (find_track rows p) as [r|] eqn:Hr.
  - exists (after [PrintStatus p ExistingComplete] w), [].
    rewrite app_nil_r. split; [|by repeat split].
    eapply BuildDbSpec.process_file_complete; [done..|].
    by eapply needs_lookup_found.
  - rewrite (BuildDbSpec.process_file_new E p w rows) by done.
    rewrite BuildDbSpec.get_mbids_spec. unfold untagged in Huntagged.
    destruct (read_mbids E p) as [[[mbid artist] rg]|e].
    + apply negb_true_iff in Huntagged. rewrite Huntagged, Hrows, Hr.
      eexists _, [new_track p mbid artist rg None None None].
      split; [done|]. cbn [conn tracks mbid_cache diag trace].
      split; [done|]. split.
      { apply Forall_app. split; [done|]. constructor; [|done].
        unfold needs_lookup. cbn. by rewrite Huntagged. }
      split; [by repeat constructor|]. by repeat split.
    + cbn [truthy truthy_option after conn]. rewrite Hrows, Hr.
      eexists _, [new_track p None None None None None None].
      split; [done|]. cbn [conn tracks mbid_cache diag trace].
      split; [done|]. split.
      { apply Forall_app. split; [done|]. by repeat constructor. }
      split; [by repeat constructor|]. by repeat split.
Qed.

(** X15. Files without a usable recording identifier are stored without
    any lookup. When no stored record asks for a lookup and every file of
    a run has tags that cannot be read, or no recording identifier, or an
    empty one, the run completes whatever the state of the cache table
    (even missing, or lacking the payload column): it only appends
    records, each with null genre, year and album type, and it makes no
    remote call, leaves the cache table and the diagnostics counters as
    they were. *)
Theorem untagged_files_are_stored_without_lookup
    (E : env) (ps : list string) (w : world) (rows : list track_row) :
  tracks (conn w) = Some rows →
  Forall (fun r => needs_lookup r = false) rows →
  Forall (fun p => untagged E p = true) ps →
  ∃ w' added,
    process_all E ps w = Ok tt w'
    ∧ tracks (conn w') = Some (rows ++ added)%list
    ∧ Forall (fun r => genre r = None ∧ year r = None ∧ album_type r = None)
        added
    ∧ mbid_cache (conn w') = mbid_cache (conn w)
    ∧ diag w' = diag w
    ∧ remote_calls (trace w') = remote_calls (trace w).
Proof.
  intros Hrows Hsettled Hps. revert w rows Hrows Hsettled.
  induction Hps as [|p ps Hp Hps IH]; intros w rows Hrows Hsettled.
  { exists w, []. rewrite app_nil_r. by repeat split. }
  destruct (process_file_untagged E p w rows Hrows Hsettled Hp)
    as (w1 & added1 & Hrun1 & Hrows1 & Hsettled1 & Hnull1 & Hc1 & Hd1 & Hr1).
  destruct (IH w1 _ Hrows1 Hsettled1)
    as (w2 & added2 & Hrun2 & Hrows2 & Hnull2 & Hc2 & Hd2 & Hr2).
  exists w2, (added1 ++ added2)%list. split.
  { cbn. unfold mbind, M_bind, bind. by rewrite Hrun1. }
  rewrite app_assoc. split; [done|]. split; [by apply Forall_app|].
  repeat split; congruence.
Qed.

Lemma untagged_files_are_stored_without_lookup_witness :
  ∃ w' added,
    process_all Sample.untagged_library ["/music/one.mp3"; "/music/two.mp3"]
      (Sample.start (create_db empty_db)) = Ok tt w'
    ∧ tracks (conn w') = Some ([] ++ added)%list
    ∧ Forall (fun r => genre r = None ∧ year r = None ∧ album_type r = None)
        added
    ∧ mbid_cache (conn w')
      = mbid_cache (conn (Sample.start (create_db empty_db)))
    ∧ diag w' = diag (Sample.start (create_db empty_db))
    ∧ remote_calls (trace w')
      = remote_calls (trace (Sample.start (create_db empty_db))).
Proof.
  apply (untagged_files_are_stored_without_lookup Sample.untagged_library
           ["/music/one.mp3"; "/music/two.mp3"]
           (Sample.start (create_db empty_db)) []);
    [reflexivity | constructor | by repeat constructor].
Defined.

(** ** Lookups and delays of a run *)

Lemma lookup_counts_status w path flag :
  recording_calls (trace (after [PrintStatus path flag] w))
  = recording_calls (trace w)
  ∧ pacing_delays (trace (after [PrintStatus path flag] w))
    = pacing_delays (trace w)
  ∧ cache_writes (trace (after [PrintStatus path flag] w))
    = cache_writes (trace w).
Proof. done. Qed.

Lemma lookup_counts_query E mbid w r wq :
  query_musicbrainz E mbid w = Ok r wq →
  (recording_calls (trace wq) ≤ S (recording_calls (trace w)))%nat
  ∧ (pacing_delays (trace wq) + cache_writes (trace w)
     = pacing_delays (trace w) + cache_writes (trace wq))%nat.
Proof.
  intros [[_ ->]|(_ & artists & Hartists & Hcases)]%query_musicbrainz_shape;
    [lia|].
  pose proof (count_events_artists is_recording_call artists
                ltac:(done) Hartists) as Hrec.
  pose proof (count_events_artists is_cache_write artists
                ltac:(done) Hartists) as Hwrite.
  pose proof (count_events_artists is_pacing_delay artists
                ltac:(done) Hartists) as Hsleep.
  unfold recording_calls, cache_writes, pacing_delays.
  destruct Hcases as [(g & y & a & _ & -> & _)|(_ & _ & -> & _)];
    rewrite !BuildDbSpec.count_events_cons, !BuildDbSpec.count_events_app,
      !BuildDbSpec.count_events_cons, Hrec, Hwrite, Hsleep; cbn; lia.
Qed.

Lemma process_file_lookup_counts E p w w' :
  process_file E p w = Ok tt w' →
  (recording_calls (trace w') ≤ S (recording_calls (trace w)))%nat
  ∧ (pacing_delays (trace w') + cache_writes (trace w)
     = pacing_delays (trace w) + cache_writes (trace w'))%nat.
Proof.
  intros Hrun.
  destruct (BuildDbSpec.process_file_ok E p w w' Hrun) as (rows & Hrows & _).
  destruct (find_track rows p) as [r|] eqn:Hr.
  - destruct (needs_lookup r) eqn:Hneed.
    2: { rewrite (BuildDbSpec.process_file_complete E p w rows r) in Hrun by done.
         injection Hrun as <-.
         destruct (lookup_counts_status w p ExistingComplete) as (-> & -> & ->).
         lia. }
    rewrite (BuildDbSpec.process_file_backfill E p w rows r) in Hrun by done.
    destruct (query_musicbrainz E (default EmptyString (track_mbid r)) w)
      as [[[g y] a] wq|e wq] eqn:Hq; [|done].
    apply lookup_counts_query in Hq.
    destruct (any_update r g y a).
    + destruct (tracks (conn wq)); [|done]. injection Hrun as <-.
      unfold recording_calls, pacing_delays, cache_writes in *. cbn [trace].
      rewrite !BuildDbSpec.count_events_cons. cbn. lia.
    + injection Hrun as <-.
      unfold recording_calls, pacing_delays, cache_writes in *. cbn [trace after app].
      rewrite !BuildDbSpec.count_events_cons. cbn. lia.
  - rewrite (BuildDbSpec.process_file_new E p w rows) in Hrun by done.
    rewrite BuildDbSpec.get_mbids_spec in Hrun.
    assert (∃ ids wt,
               match read_mbids E p with
               | Good ids => Ok ids w
               | Bad _ => Ok (None, None, None) (after [PrintFailedTags p] w)
               end = Ok ids wt
               ∧ recording_calls (trace wt) = recording_calls (trace w)
               ∧ pacing_delays (trace wt) = pacing_delays (trace w)
               ∧ cache_writes (trace wt) = cache_writes (trace w))
      as ([[mbid artist] rg] & wt & Hids & Hrec & Hsleep & Hwrite).
    { destruct (read_mbids E p) as [ids|e]; eauto 10. }
    rewrite Hids in Hrun.
    assert (∃ g y a wq,
               (if truthy mbid
                then query_musicbrainz E (default EmptyString mbid) wt
                else Ok (None, None, None) wt) = Ok (g, y, a) wq
               ∧ (recording_calls (trace wq) ≤ S (recording_calls (trace wt)))%nat
               ∧ (pacing_delays (trace wq) + cache_writes (trace wt)
                  = pacing_delays (trace wt) + cache_writes (trace wq))%nat)
      as (g & y & a & wq & Hq & Hrecq & Hsleepq).
    { destruct (truthy mbid).
      - destruct (query_musicbrainz E (default EmptyString mbid) wt)
          as [[[g y] a] wq|e wq] eqn:Hq; [|done].
        exists g, y, a, wq. split; [done|]. by eapply lookup_counts_query.
      - exists None, None, None, wt. split; [done|]. lia. }
    rewrite Hq in Hrun.
    destruct (tracks (conn wq)) as [rows'|]; [|done].
    destruct (find_track rows' p); [done|]. injection Hrun as <-.
    unfold recording_calls, pacing_delays, cache_writes in *. cbn [trace].
    rewrite !BuildDbSpec.count_events_cons. cbn. lia.
Qed.

(** X16. A run makes at most one recording lookup per file and sleeps
    exactly once for every cache row it writes. After [process_all] has
    returned for a list of files, the number of [get_recording_by_id]
    calls has grown by at most the number of files, and the number of
    pacing delays has grown by exactly the number of committed cache
    writes: cache hits and failed lookups are not followed by a delay. *)
Theorem run_lookups_and_delays
    (E : env) (ps : list string) (w w' : world) :
  process_all E ps w = Ok tt w' →
  (recording_calls (trace w') ≤ recording_calls (trace w) + length ps)%nat
  ∧ (pacing_delays (trace w') + cache_writes (trace w)
     = pacing_delays (trace w) + cache_writes (trace w'))%nat.
Proof.
  revert w. induction ps as [|p ps IH]; intros w Hrun.
  { cbn in Hrun. injection Hrun as <-. cbn [length]. lia. }
  apply BuildDbSpec.process_all_cons in Hrun as (w1 & H1 & H2).
  apply process_file_lookup_counts in H1. apply IH in H2. cbn [length]. lia.
Qed.

Lemma run_lookups_and_delays_witness :
  (recording_calls (trace Sample.flaky_first)
   ≤ recording_calls (trace (Sample.start Sample.clean_db))
     + length ["/music/one.mp3"; "/music/two.mp3"])%nat
  ∧ (pacing_delays (trace Sample.flaky_first)
     + cache_writes (trace (Sample.start Sample.clean_db))
     = pacing_delays (trace (Sample.start Sample.clean_db))
       + cache_writes (trace Sample.flaky_first))%nat.
Proof.
  apply (run_lookups_and_delays Sample.flaky
           ["/music/one.mp3"; "/music/two.mp3"]
           (Sample.start Sample.clean_db) Sample.flaky_first).
  vm_compute. reflexivity.
Defined.

(** ** Runs on a store whose cache table has the payload column *)

Lemma query_result_schema mbid w r w' t :
  query_result mbid w (Ok r w') →
  mbid_cache (conn w) = Some t →
  ∃ t', mbid_cache (conn w') = Some t' ∧ cache_columns t' = cache_columns t.
Proof.
  inversion 1 as [|c Hc Hp|t0 new g y a json Hp Ht0 Hcols Hnew Hjson
                  |new d' Hp Hnew]; subst; intros Ht.
  - by exists t.
  - rewrite Ht in Ht0. injection Ht0 as <-. by eexists.
  - by exists t.
Qed.

Lemma process_file_total E p w rows t :
  tracks (conn w) = Some rows →
  mbid_cache (conn w) = Some t →
  missing_column cache_select_columns (cache_columns t) = None →
  ∃ w' rows' t',
    process_file E p w = Ok tt w'
    ∧ tracks (conn w') = Some rows'
    ∧ mbid_cache (conn w') = Some t'
    ∧ cache_columns t' = cache_columns t.
Proof.
  intros Hrows Ht Hcols.
  assert (∀ mbid wt,
            conn wt = conn w →
            ∃ g y a wq t',
              query_musicbrainz E mbid wt = Ok (g, y, a) wq
              ∧ tracks (conn wq) = Some rows
              ∧ mbid_cache (conn wq) = Some t'
              ∧ cache_columns t' = cache_columns t) as Hquery.
  { intros mbid wt Hconn.
    assert (mbid_cache (conn wt) = Some t) as Ht' by (by rewrite Hconn).
    destruct (BuildDbSpec.query_musicbrainz_total E mbid wt t Ht' Hcols)
      as ([[g y] a] & wq & Hq).
    pose proof (BuildDbSpec.query_musicbrainz_result E mbid wt) as Hres.
    rewrite Hq in Hres.
    destruct (query_result_schema _ _ _ _ _ Hres Ht') as (t' & Ht'' & Hcols').
    exists g, y, a, wq, t'. split; [done|]. split; [|done].
    apply BuildDbSpec.query_result_tracks in Hres. cbn in Hres.
    by rewrite Hres, Hconn. }
  destruct (find_track rows p) as [r|] eqn:Hr.
  - destruct (needs_lookup r) eqn:Hneed.
    2: { rewrite (BuildDbSpec.process_file_complete E p w rows r) by done.
         by exists (after [PrintStatus p ExistingComplete] w), rows, t. }
    rewrite (BuildDbSpec.process_file_backfill E p w rows r) by done.
    destruct (Hquery (default EmptyString (track_mbid r)) w eq_refl)
      as (g & y & a & wq & t' & -> & Hrows' & Ht' & Hcols').
    destruct (any_update r g y a).
    + rewrite Hrows'. by eexists _, _, t'.
    + by exists (after [PrintStatus p NoNewMetadata] wq), rows, t'.
  - rewrite (BuildDbSpec.process_file_new E p w rows) by done.
    rewrite BuildDbSpec.get_mbids_spec.
    assert (∃ mbid artist rg wt,
               match read_mbids E p with
               | Good ids => Ok ids w
               | Bad _ => Ok (None, None, None) (after [PrintFailedTags p] w)
               end = Ok (mbid, artist, rg) wt
               ∧ conn wt = conn w)
      as (mbid & artist & rg & wt & -> & Hconn).
    { destruct (read_mbids E p) as [[[mbid artist] rg]|e]; eauto 10. }
    destruct (truthy mbid).
    + destruct (Hquery (default EmptyString mbid) wt Hconn)
        as (g & y & a & wq & t' & -> & Hrows' & Ht' & Hcols').
      rewrite Hrows', Hr. by eexists _, _, t'.
    + rewrite Hconn, Hrows, Hr. eexists _, _, t. by repeat split.
Qed.

Lemma process_all_total E ps w rows t :
  tracks (conn w) = Some rows →
  mbid_cache (conn w) = Some t →
  missing_column cache_select_columns (cache_columns t) = None →
  ∃ w', process_all E ps w = Ok tt w'.
Proof.
  revert w rows t. induction ps as [|p ps IH]; intros w rows t Hrows Ht Hcols.
  { by exists w. }
  destruct (process_file_total E p w rows t Hrows Ht Hcols)
    as (w1 & rows1 & t1 & Hrun1 & Hrows1 & Ht1 & Hcols1).
  destruct (IH w1 rows1 t1 Hrows1 Ht1) as (w2 & Hrun2).
  { by rewrite Hcols1. }
  exists w2. cbn. unfold mbind, M_bind, bind. by rewrite Hrun1.
Qed.

(** X17. On a database file whose cache table has the columns the cache
    statements name, build_db always runs to its end. Whatever the
    directory holds, whatever the tags are, and whatever the remote
    service answers or raises, [main] returns normally: every exception
    raised along the way is caught, and no statement can fail. *)
Theorem main_completes_on_a_migrated_store
    (E : env) (prog music_dir : string) (rest : list string) (file : db)
    (t : cache_table) :
  mbid_cache file = Some t →
  missing_column cache_select_columns (cache_columns t) = None →
  ∃ w', main E (prog :: music_dir :: rest) file = Ok tt w'.
Proof.
  intros Ht Hcols. unfold main, walk_and_process.
  destruct (process_all_total E (mp3_paths (os_walk E music_dir))
              {| conn := create_db file; diag := no_diagnostics; trace := [] |}
              (default [] (tracks file)) t) as (w1 & Hrun); [done| |done|].
  { cbn. by rewrite Ht. }
  unfold mbind, M_bind, bind. rewrite Hrun.
  BuildDbSpec.unfold_M. eauto.
Qed.

Lemma main_completes_on_a_migrated_store_witness :
  ∃ w', main Sample.offline ("build_db.py" :: "/music" :: []) Sample.clean_db
        = Ok tt w'.
Proof.
  apply (main_completes_on_a_migrated_store Sample.offline "build_db.py"
           "/music" [] Sample.clean_db (Sample.full_cache ∅)); reflexivity.
Defined.

End BuildDbExtra.

(** * Further properties of the selection engine *)

(** ** Facts on binary64 arithmetic *)

Module FloatFacts.

Lemma mul_comm (x y : float) : (x * y)%float = (y * x)%float.
Proof.
  apply FloatAxioms.Prim2SF_inj. rewrite !FloatAxioms.mul_spec.
  unfold FloatAxioms.SF64mul.
  destruct (FloatOps.Prim2SF x) as [sx|sx| |sx mx ex],
    (FloatOps.Prim2SF y) as [sy|sy| |sy my ey];
    cbn -[SpecFloat.binary_round_aux]; rewrite ?(xorb_comm sx sy);
    try reflexivity.
  by rewrite (Pos.mul_comm mx my), (Z.add_comm ex ey).
Qed.

Lemma SFltb_trans a b c :
  SpecFloat.SFltb a b = true → SpecFloat.SFltb b c = true →
  SpecFloat.SFltb a c = true.
Proof.
  unfold SpecFloat.SFltb.
  destruct a as [sa|sa| |sa ma ea], b as [sb|sb| |sb mb eb],
    c as [sc|sc| |sc mc ec];
    cbn; try discriminate; try reflexivity;
    repeat match goal with s : bool |- _ => destruct s end;
    cbn; try discriminate; try reflexivity.
  all: change (PosDef.Pos.compare_cont Eq) with Pos.compare.
  all: destruct (Z.compare_spec ea eb), (Z.compare_spec eb ec);
    try discriminate;
    destruct (Z.compare_spec ea ec); try lia; try reflexivity; subst.
  all: destruct (Pos.compare_spec ma mb), (Pos.compare_spec mb mc); cbn;
    try discriminate;
    destruct (Pos.compare_spec ma mc); cbn; try lia; try reflexivity.
Qed.

Lemma ltb_trans (x y z : float) :
  (x <? y)%float = true → (y <? z)%float = true → (x <? z)%float = true.
Proof. rewrite !FloatAxioms.ltb_spec. apply SFltb_trans. Qed.

Lemma SFltb_irrefl a : SpecFloat.SFltb a a = false.
Proof.
  unfold SpecFloat.SFltb.
  destruct a as [[]|[]| |[] m e]; cbn; try reflexivity;
    change (PosDef.Pos.compare_cont Eq) with Pos.compare;
    rewrite Z.compare_refl, ?Pos.compare_refl; reflexivity.
Qed.

Lemma ltb_irrefl (x : float) : (x <? x)%float = false.
Proof. rewrite FloatAxioms.ltb_spec. apply SFltb_irrefl. Qed.

End FloatFacts.

Module NextTrackExtra.
Import Py Store NextTrack.

(** ** [cosine_distance] *)

Lemma dot_from_comm acc a b : dot_from acc a b = dot_from acc b a.
Proof.
  revert acc b. induction a as [|x a IH]; intros acc [|y b]; cbn; try done.
  rewrite (FloatFacts.mul_comm x y). apply IH.
Qed.


Lemma dot_from_lengths acc a b :
  match dot_from acc a b with
  | Good _ => length a = length b
  | Bad e => e = ValueError ∧ length a ≠ length b
  end.
Proof.
  revert acc b. induction a as [|x a IH]; intros acc [|y b]; cbn; try done.
  specialize (IH (acc + x * y)%float b).
  destruct (dot_from _ a b); [by f_equal|].
  destruct IH as [-> Hne]. split; [done|]. by intros [=].
Qed.

Lemma cosine_distance_lengths a b :
  match cosine_distance a b with
  | Good _ => length a = length b
  | Bad e => e = ValueError ∧ length a ≠ length b
  end.
Proof.
  unfold cosine_distance, np_dot.
  pose proof (dot_from_lengths 0 a b) as H. by destruct (dot_from 0 a b).
Qed.

(** X19. [cosine_distance] returns a float exactly when the two arrays
    have the same length, and raises [ValueError] otherwise: zero vectors,
    empty arrays, infinities and NaNs give a float, never an exception. *)
Theorem cosine_distance_raises_iff_lengths_differ (a b : list float) :
  match cosine_distance a b with
  | Good _ => length a = length b
  | Bad e => e = ValueError ∧ length a ≠ length b
  end.
Proof.
  unfold cosine_distance, np_dot.
  pose proof (dot_from_lengths 0 a b) as Hdot.
  destruct (dot_from 0 a b) as [d|e]; cbn [res_bind]; [done|].
  by destruct Hdot.
Qed.

(** ** [normalize_string] *)

Lemma is_norm_char_not_upper c : is_norm_char c = true → is_upper c = false.
Proof.
  unfold is_norm_char, is_lower, is_digit, is_upper.
  destruct (Z.leb_spec 65 (Z.of_N (N_of_ascii c))),
    (Z.leb_spec (Z.of_N (N_of_ascii c)) 90),
    (Z.leb_spec 97 (Z.of_N (N_of_ascii c))),
    (Z.leb_spec (Z.of_N (N_of_ascii c)) 122),
    (Z.leb_spec 48 (Z.of_N (N_of_ascii c))),
    (Z.leb_spec (Z.of_N (N_of_ascii c)) 57); cbn; try done; lia.
Qed.

Lemma lower_char_idemp c : lower_char (lower_char c) = lower_char c.
Proof. by destruct c as [[] [] [] [] [] [] [] []]. Qed.

Lemma lower_idemp s : lower (lower s) = lower s.
Proof. induction s as [|c s IH]; [done|]. cbn. by rewrite lower_char_idemp, IH. Qed.

Lemma strip_non_alnum_chars s :
  forallb is_norm_char (String.list_ascii_of_string (strip_non_alnum s)) = true.
Proof.
  induction s as [|c s IH]; [done|]. cbn.
  destruct (is_lower c || is_digit c) eqn:Hc; [|done].
  cbn. unfold is_norm_char at 1. by rewrite Hc.
Qed.

Lemma lower_norm_chars s :
  forallb is_norm_char (String.list_ascii_of_string s) = true → lower s = s.
Proof.
  induction s as [|c s IH]; [done|]. cbn. intros [Hc Hs]%andb_prop.
  unfold lower_char. by rewrite (is_norm_char_not_upper c Hc), IH.
Qed.

Lemma strip_norm_chars s :
  forallb is_norm_char (String.list_ascii_of_string s) = true →
  strip_non_alnum s = s.
Proof.
  induction s as [|c s IH]; [done|]. cbn. intros [Hc Hs]%andb_prop.
  unfold is_norm_char in Hc. by rewrite Hc, IH.
Qed.

(** X20. [normalize_string] yields a canonical form: its result consists
    of lower-case ASCII letters and digits only, normalizing again changes
    nothing, and the result does not depend on the case of the input. *)
Theorem normalize_string_canonical (s : string) :
  forallb is_norm_char (String.list_ascii_of_string (normalize_string s)) = true
  ∧ normalize_string (normalize_string s) = normalize_string s
  ∧ normalize_string (lower s) = normalize_string s.
Proof.
  unfold normalize_string. split; [apply strip_non_alnum_chars|]. split.
  - rewrite (lower_norm_chars (strip_non_alnum (lower s)))
      by apply strip_non_alnum_chars.
    apply strip_norm_chars, strip_non_alnum_chars.
  - by rewrite lower_idemp.
Qed.

(** ** The title of a file found by the directory walk *)

Lemma append_cons c p s : String c p +:+ s = String c (p +:+ s).
Proof. reflexivity. Qed.

Lemma length_append p s :
  String.length (p +:+ s) = (String.length p + String.length s)%nat.
Proof. induction p as [|c p IH]; [done|]. rewrite ?append_cons; simpl. by rewrite IH. Qed.

Lemma append_assoc p q s : (p +:+ q) +:+ s = p +:+ (q +:+ s).
Proof. induction p as [|c p IH]; [done|]. rewrite ?append_cons; simpl. by rewrite IH. Qed.

Lemma lower_append p s : lower (p +:+ s) = lower p +:+ lower s.
Proof. induction p as [|c p IH]; [done|]. rewrite ?append_cons; simpl. by rewrite IH. Qed.

Lemma substring_all s : String.substring 0 (String.length s) s = s.
Proof. induction s as [|c s IH]; [done|]. rewrite ?append_cons; simpl. by rewrite IH. Qed.

Lemma substring_prefix p s :
  String.substring 0 (String.length p) (p +:+ s) = p.
Proof.
  induction p as [|c p IH]; rewrite ?append_cons; simpl; [by destruct s|]. by rewrite IH.
Qed.

Lemma substring_suffix p s :
  String.substring (String.length p) (String.length s) (p +:+ s) = s.
Proof. induction p as [|c p IH]; rewrite ?append_cons; simpl; [apply substring_all|done]. Qed.

Lemma substring_split s i :
  (i ≤ String.length s)%nat →
  s = String.substring 0 i s
      +:+ String.substring i (String.length s - i) s.
Proof.
  revert i. induction s as [|c s IH]; intros [|i] Hi; simpl in *; try done; try lia.
  - by rewrite substring_all.
  - rewrite append_cons. f_equal. apply IH. lia.
Qed.

Lemma endswith_append p suffix : endswith (p +:+ suffix) suffix = true.
Proof.
  unfold endswith. rewrite length_append.
  replace (String.length p + String.length suffix - String.length suffix)%nat
    with (String.length p) by lia.
  rewrite substring_suffix, String.eqb_refl, andb_true_r.
  apply Nat.leb_le. lia.
Qed.

Lemma endswith_inv s suffix :
  endswith s suffix = true → ∃ p, s = p +:+ suffix.
Proof.
  unfold endswith. remember (String.length suffix) as k eqn:Hk.
  intros [Hle Heq]%andb_prop.
  apply Nat.leb_le in Hle. apply String.eqb_eq in Heq.
  exists (String.substring 0 (String.length s - k) s).
  pose proof (substring_split s (String.length s - k)) as Hsplit.
  replace (String.length s - (String.length s - k))%nat with k in Hsplit by lia.
  rewrite Heq in Hsplit. apply Hsplit. lia.
Qed.

Lemma split_nonempty sep s : split sep s ≠ [].
Proof.
  destruct s as [|c s]; cbn; [done|].
  destruct (Ascii.eqb c sep); [done|]. by destruct (split sep s).
Qed.

Lemma split_append sep a b :
  split sep (a +:+ String sep b) = (split sep a ++ split sep b)%list.
Proof.
  induction a as [|c a IH]; rewrite ?append_cons; simpl.
  - by rewrite Ascii.eqb_refl.
  - rewrite IH. destruct (Ascii.eqb c sep); [done|].
    pose proof (split_nonempty sep a). by destruct (split sep a).
Qed.

Lemma split_no_separator sep s :
  forallb (fun c => negb (Ascii.eqb c sep)) (String.list_ascii_of_string s)
  = true →
  split sep s = [s].
Proof.
  induction s as [|c s IH]; [done|]. cbn. intros [Hc Hs]%andb_prop.
  apply negb_true_iff in Hc. by rewrite Hc, IH.
Qed.

Lemma last_app_nonempty {A} (l1 l2 : list A) d :
  l2 ≠ [] → List.last (l1 ++ l2) d = List.last l2 d.
Proof.
  intros Hne. induction l1 as [|x l1 IH]; [done|]. cbn.
  destruct (l1 ++ l2)%list eqn:Happ; [|done].
  apply app_eq_nil in Happ as [_ ?]. done.
Qed.

Lemma basename_join root file :
  forallb (fun c => negb (Ascii.eqb c "/")) (String.list_ascii_of_string file)
  = true →
  basename (BuildDb.os_path_join root file) = file.
Proof.
  intros Hfile. unfold basename, BuildDb.os_path_join.
  assert (∀ p, List.last (split "/" (p +:+ String "/" file)) EmptyString = file)
    as Hlast.
  { intros p. rewrite split_append, last_app_nonempty by apply split_nonempty.
    by rewrite split_no_separator. }
  destruct (negb (truthy root)) eqn:Hroot; cbn [orb].
  - destruct root; [|done]. cbn. by rewrite split_no_separator.
  - destruct (endswith root "/") eqn:Hend.
    + apply endswith_inv in Hend as [p ->]. rewrite append_assoc. apply Hlast.
    + apply Hlast.
Qed.

Lemma mp3_extension_no_slash ext :
  lower ext = ".mp3" →
  String.length ext = 4%nat
  ∧ forallb (fun c => negb (Ascii.eqb c "/")) (String.list_ascii_of_string ext)
    = true.
Proof.
  destruct ext as [|c1 [|c2 [|c3 [|c4 [|]]]]]; cbn; try done.
  intros [= H1 H2 H3 H4]. split; [done|].
  repeat (apply andb_true_intro; split); try done;
    apply negb_true_iff, Ascii.eqb_neq; by intros ->.
Qed.

Lemma forallb_append (p : Ascii.ascii → bool) a b :
  forallb p (String.list_ascii_of_string (a +:+ b))
  = forallb p (String.list_ascii_of_string a)
    && forallb p (String.list_ascii_of_string b).
Proof. induction a as [|c a IH]; [done|]. rewrite append_cons. simpl. by rewrite IH, andb_assoc. Qed.

(** X21. The two scripts agree on file names. For a file [stem ++ ext]
    whose extension is [.mp3] in any letter case and whose name holds no
    slash, found in any directory [root]: the directory walk of build_db
    takes the file, and the title that nexttrack derives from the path the
    walk stored is [stem], the name without directory and extension. *)
Theorem title_of_walked_file (root stem ext : string) :
  lower ext = ".mp3" →
  forallb (fun c => negb (Ascii.eqb c "/")) (String.list_ascii_of_string stem)
  = true →
  endswith (lower (stem +:+ ext)) ".mp3" = true
  ∧ strip_mp3 (basename (BuildDb.os_path_join root (stem +:+ ext))) = stem.
Proof.
  intros Hext Hstem.
  destruct (mp3_extension_no_slash ext Hext) as [Hlen Hslash].
  assert (endswith (lower (stem +:+ ext)) ".mp3" = true) as Hends.
  { rewrite lower_append, Hext. apply endswith_append. }
  split; [done|].
  rewrite basename_join by (by rewrite forallb_append, Hstem, Hslash).
  unfold strip_mp3. rewrite Hends, length_append, Hlen.
  replace (String.length stem + 4 - 4)%nat with (String.length stem) by lia.
  apply substring_prefix.
Qed.

Lemma title_of_walked_file_witness :
  endswith (lower ("Under Pressure" +:+ ".Mp3")) ".mp3" = true
  ∧ strip_mp3 (basename (BuildDb.os_path_join "/music/Queen"
                           ("Under Pressure" +:+ ".Mp3")))
    = "Under Pressure".
Proof.
  apply (title_of_walked_file "/music/Queen" "Under Pressure" ".Mp3");
    reflexivity.
Defined.

(** ** The loop of [select_best_match] *)

Lemma holds_best_skip iso emb seen st c dist :
  holds_best iso emb seen st →
  cosine_distance emb (cand_emb c) = Good dist →
  (dist <? DISTANCE_THRESHOLD)%float = true
  ∨ (∃ s, st = Some s ∧ (dist <? best_dist s)%float = false) →
  holds_best iso emb (c :: seen) st.
Proof.
  intros Hinv Hd Hskip. destruct st as [s|]; cbn in *.
  - destruct Hinv as ((cb & db & Hcb & Hdb & Hthr & Hbest & Hlp & Hnlt & Hnear)
                      & (c0 & Hc0 & Hd0) & Hmin).
    split; [|split].
    + exists cb, db. split; [by right|done].
    + exists c0. split; [by right|done].
    + intros c' d' [->|Hc']%elem_of_cons Hd' Hthr'; [|by eapply Hmin].
      rewrite Hd in Hd'. injection Hd' as <-.
      destruct Hskip as [Hs|(s' & [= <-] & Hs)]; [congruence|done].
  - intros c' d' [->|Hc']%elem_of_cons Hd'; [|by eapply Hinv].
    rewrite Hd in Hd'. injection Hd' as <-.
    destruct Hskip as [Hs|(s' & [=] & _)]. done.
Qed.

Lemma holds_best_closer iso emb seen st c dist :
  holds_best iso emb seen st →
  cosine_distance emb (cand_emb c) = Good dist →
  (dist <? DISTANCE_THRESHOLD)%float = false →
  st = None ∨ (∃ s, st = Some s ∧ (dist <? best_dist s)%float = true) →
  holds_best iso emb (c :: seen)
    (Some {| best := (cand_path c, dist,
                      parse_last_played iso (cand_last_played c));
             best_dist := dist;
             best_last_played := parse_last_played iso (cand_last_played c) |}).
Proof.
  intros Hinv Hd Hthr Hcase. cbn. split; [|split].
  - exists c, dist. split; [by left|].
    repeat split; try done; [apply FloatFacts.ltb_irrefl | by left].
  - exists c. split; [by left|done].
  - intros c' d' [->|Hc']%elem_of_cons Hd' Hthr'.
    { rewrite Hd in Hd'. injection Hd' as <-. apply FloatFacts.ltb_irrefl. }
    destruct Hcase as [->|(s & -> & Hlt)]; cbn in Hinv.
    + rewrite (Hinv c' d' Hc' Hd') in Hthr'. done.
    + destruct Hinv as (_ & _ & Hmin).
      destruct (d' <? dist)%float eqn:Hlt'; [|done].
      rewrite <- (Hmin c' d' Hc' Hd' Hthr').
      symmetry. by eapply FloatFacts.ltb_trans.
Qed.

Lemma holds_best_tie iso emb seen s c dist :
  holds_best iso emb seen (Some s) →
  cosine_distance emb (cand_emb c) = Good dist →
  (dist <? DISTANCE_THRESHOLD)%float = false →
  (dist <? best_dist s)%float = false →
  (PrimFloat.abs (dist - best_dist s) <? TIE_EPSILON)%float = true →
  holds_best iso emb (c :: seen)
    (Some {| best := (cand_path c, dist,
                      parse_last_played iso (cand_last_played c));
             best_dist := best_dist s;
             best_last_played := parse_last_played iso (cand_last_played c) |}).
Proof.
  intros (_ & (c0 & Hc0 & Hd0) & Hmin) Hd Hthr Hnlt Hnear. cbn.
  split; [|split].
  - exists c, dist. split; [by left|]. repeat split; try done. by right.
  - exists c0. split; [by right|done].
  - intros c' d' [->|Hc']%elem_of_cons Hd' Hthr'; [|by eapply Hmin].
    rewrite Hd in Hd'. by injection Hd' as <-.
Qed.

Lemma examine_holds iso emb seen st c st' :
  holds_best iso emb seen st →
  examine iso emb st c = Good st' →
  holds_best iso emb (c :: seen) st'.
Proof.
  intros Hinv. unfold examine.
  destruct (cosine_distance emb (cand_emb c)) as [dist|e] eqn:Hd; [cbn|done].
  destruct (dist <? DISTANCE_THRESHOLD)%float eqn:Hthr.
  { intros [= <-]. eapply holds_best_skip; eauto. }
  destruct st as [s|].
  2: { intros [= <-]. eapply holds_best_closer; eauto. }
  destruct (dist <? best_dist s)%float eqn:Hlt.
  { intros [= <-]. eapply holds_best_closer; eauto. }
  assert (holds_best iso emb (c :: seen) (Some s)) as Hkeep.
  { eapply holds_best_skip; eauto. }
  destruct (PrimFloat.abs (dist - best_dist s) <? TIE_EPSILON)%float eqn:Hnear;
    [|by intros [= <-]].
  pose proof (holds_best_tie iso emb seen s c dist Hinv Hd Hthr Hlt Hnear)
    as Htake.
  destruct (best_last_played s) as [b|],
    (parse_last_played iso (cand_last_played c)) as [l|];
    try destruct (l <? b)%Z; by intros [= <-].
Qed.

Lemma examine_all_holds iso emb cands seen st st' :
  holds_best iso emb seen st →
  examine_all iso emb st cands = Good st' →
  holds_best iso emb (reverse cands ++ seen) st'.
Proof.
  revert seen st.
  induction cands as [|c cands IH]; intros seen st Hinv; cbn [examine_all].
  { by intros [= <-]. }
  destruct (examine iso emb st c) as [st1|e] eqn:Hex; cbn [res_bind]; [|done].
  intros Hall. rewrite reverse_cons, <- app_assoc. cbn [app].
  eapply IH; [|done]. by eapply examine_holds.
Qed.

(** The invariant holds when the loop of [select_best_match] ends. *)
Lemma select_best_match_holds iso emb cands st :
  examine_all iso emb None cands = Good st →
  holds_best iso emb cands st.
Proof.
  intros Hall.
  assert (holds_best iso emb (reverse cands ++ []) st) as Hinv.
  { eapply examine_all_holds; [|done]. by intros c d ?%elem_of_nil. }
  rewrite app_nil_r in Hinv.
  destruct st as [s|]; cbn in *.
  - destruct Hinv as ((cb & db & Hcb & Hrest) & (c0 & Hc0 & Hd0) & Hmin).
    split; [|split].
    + exists cb, db. split; [by apply elem_of_reverse|done].
    + exists c0. split; [by apply elem_of_reverse|done].
    + intros c d Hc. apply Hmin. by apply elem_of_reverse.
  - intros c d Hc. apply Hinv. by apply elem_of_reverse.
Qed.

Lemma examine_all_distances iso emb cands st st' c :
  examine_all iso emb st cands = Good st' → c ∈ cands →
  ∃ d, cosine_distance emb (cand_emb c) = Good d.
Proof.
  revert st. induction cands as [|c1 cands IH]; intros st; cbn;
    [by intros _ ?%elem_of_nil|].
  destruct (examine iso emb st c1) as [st1|e] eqn:Hex; [cbn|done].
  intros Hall [->|Hc]%elem_of_cons; [|by eapply IH].
  unfold examine in Hex.
  destruct (cosine_distance emb (cand_emb c1)) as [d|]; [eauto|done].
Qed.

Lemma examine_all_raises iso emb cands st e :
  examine_all iso emb st cands = Bad e →
  ∃ c, c ∈ cands ∧ cosine_distance emb (cand_emb c) = Bad e.
Proof.
  revert st. induction cands as [|c1 cands IH]; intros st; cbn; [done|].
  destruct (examine iso emb st c1) as [st1|e1] eqn:Hex; cbn.
  - intros (c & Hc & Hd)%IH. exists c. split; [by right|done].
  - intros [= ->]. exists c1. split; [by left|].
    unfold examine in Hex.
    destruct (cosine_distance emb (cand_emb c1)) as [d|e1]; cbn in Hex.
    + destruct (d <? DISTANCE_THRESHOLD)%float; [done|].
      destruct st as [s|]; [|done].
      destruct (d <? best_dist s)%float; [done|].
      destruct (PrimFloat.abs (d - best_dist s) <? TIE_EPSILON)%float; [|done].
      destruct (best_last_played s) as [b|],
        (parse_last_played iso (cand_last_played c1)) as [l|];
        try destruct (l <? b)%Z; done.
    + by injection Hex as ->.
Qed.

(** X22. [select_best_match] returns [None] exactly when no candidate
    passes the near-duplicate threshold: every candidate has an embedding
    of the reference's length and a distance below 0.001.  (An empty
    candidate list is the special case.) *)
Theorem select_best_match_none_iff_no_survivor
    (iso : string → option Z) (emb : list float) (cands : list candidate) :
  select_best_match iso emb cands = Good None
  ↔ ∀ c, c ∈ cands → survives emb c = false.
Proof.
  unfold select_best_match. split.
  - destruct (examine_all iso emb None cands) as [[s|]|e] eqn:Hall; [done| |done].
    intros _ c Hc.
    destruct (examine_all_distances _ _ _ _ _ c Hall Hc) as [d Hd].
    pose proof (select_best_match_holds _ _ _ _ Hall) as Hinv. cbn in Hinv.
    unfold survives. by rewrite Hd, (Hinv c d Hc Hd).
  - intros Hnone. by rewrite NextTrackSpec.examine_all_no_survivor.
Qed.

(** X23. The tuple [select_best_match] returns describes one candidate:
    the path is the candidate's, the score is the cosine distance between
    the reference and that candidate's embedding, the score is not below
    the near-duplicate threshold, and the timestamp is that candidate's
    parsed last_played. *)
Theorem winner_score_is_its_own_distance
    (iso : string → option Z) (emb : list float) (cands : list candidate)
    (f : string) (score : float) (lp : option Z) :
  select_best_match iso emb cands = Good (Some (f, score, lp)) →
  ∃ c, c ∈ cands ∧ cand_path c = f
       ∧ cosine_distance emb (cand_emb c) = Good score
       ∧ (score <? DISTANCE_THRESHOLD)%float = false
       ∧ lp = parse_last_played iso (cand_last_played c).
Proof.
  unfold select_best_match.
  destruct (examine_all iso emb None cands) as [[s|]|e] eqn:Hall; [|done..].
  cbn. intros [= Hbest].
  destruct (select_best_match_holds _ _ _ _ Hall)
    as ((c & d & Hc & Hd & Hthr & Hb & _) & _).
  rewrite Hbest in Hb. injection Hb as -> -> ->. by exists c.
Qed.

Lemma winner_score_is_its_own_distance_witness :
  ∃ c, c ∈ [Sample.slightly_farther "/music/never.mp3" None;
            Sample.slightly_closer "/music/played.mp3"
              (Some "2024-01-01 00:00:00")]
       ∧ cand_path c = "/music/played.mp3"
       ∧ cosine_distance Sample.reference (cand_emb c)
         = Good Sample.closer_distance
       ∧ (Sample.closer_distance <? DISTANCE_THRESHOLD)%float = false
       ∧ Some 20240101000000
         = parse_last_played Sample.iso_seconds (cand_last_played c).
Proof.
  apply (winner_score_is_its_own_distance Sample.iso_seconds Sample.reference
           [Sample.slightly_farther "/music/never.mp3" None;
            Sample.slightly_closer "/music/played.mp3"
              (Some "2024-01-01 00:00:00")]
           "/music/played.mp3" Sample.closer_distance (Some 20240101000000)).
  vm_compute. reflexivity.
Defined.

(** X24. The winner is closest up to the tie epsilon.  When
    [select_best_match] returns a winner with score [score], there is a
    distance [m], attained by a candidate, such that no candidate that
    passes the near-duplicate threshold is strictly closer to the
    reference than [m], and [score] is [m] itself or is not below [m] and
    within 1e-6 of it. *)
Theorem winner_is_closest_up_to_epsilon
    (iso : string → option Z) (emb : list float) (cands : list candidate)
    (f : string) (score : float) (lp : option Z) :
  select_best_match iso emb cands = Good (Some (f, score, lp)) →
  ∃ m c0, c0 ∈ cands
    ∧ cosine_distance emb (cand_emb c0) = Good m
    ∧ (∀ c d, c ∈ cands → cosine_distance emb (cand_emb c) = Good d →
              (d <? DISTANCE_THRESHOLD)%float = false →
              (d <? m)%float = false)
    ∧ (score <? m)%float = false
    ∧ (score = m ∨ (PrimFloat.abs (score - m) <? TIE_EPSILON)%float = true).
Proof.
  unfold select_best_match.
  destruct (examine_all iso emb None cands) as [[s|]|e] eqn:Hall; [|done..].
  cbn. intros [= Hbest].
  destruct (select_best_match_holds _ _ _ _ Hall)
    as ((c & d & Hc & Hd & Hthr & Hb & _ & Hnlt & Hnear) & (c0 & Hc0 & Hd0) & Hmin).
  rewrite Hbest in Hb. injection Hb as -> -> ->.
  by exists (best_dist s), c0.
Qed.

Lemma winner_is_closest_up_to_epsilon_witness :
  ∃ m c0,
    c0 ∈ [Sample.slightly_closer "/music/played.mp3"
            (Some "2024-01-01 00:00:00");
          Sample.slightly_farther "/music/never.mp3" None]
    ∧ cosine_distance Sample.reference (cand_emb c0) = Good m
    ∧ (∀ c d,
         c ∈ [Sample.slightly_closer "/music/played.mp3"
                (Some "2024-01-01 00:00:00");
              Sample.slightly_farther "/music/never.mp3" None] →
         cosine_distance Sample.reference (cand_emb c) = Good d →
         (d <? DISTANCE_THRESHOLD)%float = false →
         (d <? m)%float = false)
    ∧ (Sample.farther_distance <? m)%float = false
    ∧ (Sample.farther_distance = m
       ∨ (PrimFloat.abs (Sample.farther_distance - m) <? TIE_EPSILON)%float
         = true).
Proof.
  apply (winner_is_closest_up_to_epsilon Sample.iso_seconds Sample.reference
           [Sample.slightly_closer "/music/played.mp3"
              (Some "2024-01-01 00:00:00");
            Sample.slightly_farther "/music/never.mp3" None]
           "/music/never.mp3" Sample.farther_distance None).
  vm_compute. reflexivity.
Defined.


(** ** [load_candidates] *)

Lemma scan_candidates_cons library cur mbid title r rows :
  scan_candidates library cur mbid title (r :: rows)
  = match embedding r with
    | Some emb =>
        if eligible cur mbid title r
        then candidate_of library r emb
             :: scan_candidates library cur mbid title rows
        else scan_candidates library cur mbid title rows
    | None => scan_candidates library cur mbid title rows
    end.
Proof.
  cbn [scan_candidates]. unfold eligible, candidate_of.
  destruct (embedding r) as [emb|]; [|done].
  destruct (String.eqb (file_path r) cur); [done|].
  destruct (truthy mbid && bool_decide (track_mbid r = mbid)); [done|].
  destruct (str_in title (normalize_string (basename (file_path r)))); [done|].
  cbn. by destruct (library !! file_path r).
Qed.


(** ** [update_play_info] *)

Lemma update_play_info_lookup library path now q :
  update_play_info library path now !! q
  = if bool_decide (q = path)
    then (fun row => {| play_count := Some (default 0 (play_count row) + 1);
                        last_played := Some now |}) <$> library !! path
    else library !! q.
Proof.
  unfold update_play_info. case_bool_decide as Hq.
  - subst q. destruct (library !! path) as [row|] eqn:Hrow.
    + by rewrite lookup_insert_eq, NextTrackSpec.or_default_zero.
    + by rewrite Hrow.
  - destruct (library !! path); [|done]. by rewrite lookup_insert_ne.
Qed.


(** ** The failures of [main] *)

Lemma select_best_match_raises iso emb cands e :
  select_best_match iso emb cands = Bad e →
  e = ValueError ∧ ∃ c, c ∈ cands ∧ length (cand_emb c) ≠ length emb.
Proof.
  unfold select_best_match.
  destruct (examine_all iso emb None cands) as [st|e'] eqn:Hall; [done|].
  cbn. intros [= ->].
  apply examine_all_raises in Hall as (c & Hc & Hd).
  pose proof (cosine_distance_lengths emb (cand_emb c)) as Hlen.
  rewrite Hd in Hlen. destruct Hlen as [-> Hne]. split; [done|].
  exists c. split; [done|]. congruence.
Qed.



End NextTrackExtra.
